(** * CLTC_SL: adversarial perturbation, confidence ranking and the
      warmup schedule, embedded from [src/at.py] and [src/run_ld.py].

    Python floats are IEEE binary64 values: they are modelled by Rocq's
    primitive floats ([PrimFloat]), whose operations are specified by
    [FloatAxioms] against [SpecFloat].  Python ints are [Z], list indices
    are [nat], dicts used as maps are [gmap]s, and a dict whose iteration
    order is observed is an association list. *)

From Stdlib Require Import ZArith Lia Floats.
From stdpp Require Import gmap strings list pretty sorting.
From Equations Require Import Equations.

Set Warnings "-inexact-float".
Set Default Proof Using "Type".

(** ** Comparisons and signs of binary64 values *)

Module PyFloat.

Definition lt (x y : float) : Prop := (x <? y)%float = true.
Definition le (x y : float) : Prop := (x <=? y)%float = true.
Definition nan (x : float) : Prop := Prim2SF x = S754_nan.

(** The three-way comparison of [SpecFloat] seen as a rank: negative
    infinity, negative finite, zero, positive finite, positive infinity. *)
Definition rank (x : spec_float) : option (Z * Z * Z) :=
  match x with
  | S754_nan => None
  | S754_zero _ => Some (0, 0, 0)%Z
  | S754_infinity s => Some (if s then (-2) else 2, 0, 0)%Z
  | S754_finite s m e =>
      Some (if s then (-1, - e, - Z.pos m) else (1, e, Z.pos m))%Z
  end.

Definition lex3 (a b : Z * Z * Z) : comparison :=
  let '(a1, a2, a3) := a in
  let '(b1, b2, b3) := b in
  match (a1 ?= b1)%Z with
  | Eq => match (a2 ?= b2)%Z with Eq => (a3 ?= b3)%Z | c => c end
  | c => c
  end.

Definition rank_compare (x y : spec_float) : option comparison :=
  match rank x, rank y with
  | Some a, Some b => Some (lex3 a b)
  | _, _ => None
  end.

(** The results of rounding that carry the sign [sx]. *)
Definition has_sign (sx : bool) (r : spec_float) : Prop :=
  match r with
  | S754_zero s | S754_infinity s | S754_finite s _ _ => s = sx
  | S754_nan => False
  end.

End PyFloat.

(** ** The warmup schedule ([run_ld.py], [warmup_linear])

    [def warmup_linear(x, warmup=0.002)]: both arguments are Python floats.
    The quotient is the IEEE one.  Python raises [ZeroDivisionError] where
    IEEE division by zero gives an infinity or NaN; the quotient is taken
    only when [x < warmup], so that can happen only with [warmup = 0] and
    [x < 0], and the training loop passes [x >= 0]. *)
Definition warmup_default : float := 0.002%float.

Definition warmup_linear (x warmup : float) : float :=
  if (x <? warmup)%float then (x / warmup)%float else (1.0 - x)%float.

(** The rate the training loop installs in every parameter group before
    [optimizer.step()]: [args.learning_rate * warmup_linear(args.global_step
    / args.t_total, args.warmup_proportion)].  [progress] is the float that
    Python's true division [global_step / t_total] produced. *)
Definition lr_this_step (learning_rate progress warmup_proportion : float) : float :=
  (learning_rate * warmup_linear progress warmup_proportion)%float.

(** ** Exceptions

    The Python exceptions the modelled code can raise.  Nothing in the
    repository catches them: a raised exception ends the run, and the
    state the call had reached is not observed. *)

Inductive exn : Type :=
  | AssertionError     (* [assert name in self.backup] *)
  | AttributeError     (* [torch.norm(None)]: a parameter without gradient *)
  | IndexError         (* list index or deletion out of range *)
  | ZeroDivisionError. (* [args.global_step / args.t_total] with [t_total = 0] *)

Inductive result (A : Type) : Type :=
  | Ok (a : A)
  | Raise (e : exn).
Arguments Ok {A} a.
Arguments Raise {A} e.

#[global] Instance result_ret : MRet result := λ A a, Ok a.
#[global] Instance result_bind : MBind result := λ A B k r,
  match r with
  | Ok a => k a
  | Raise e => Raise e
  end.

(** ** The perturbation engine ([at.py], class [FGM]) *)

(** [needle in hay] on Python strings. *)
Fixpoint is_substring (needle hay : string) : bool :=
  match hay with
  | EmptyString => String.prefix needle EmptyString
  | String _ hay' => String.prefix needle hay || is_substring needle hay'
  end.

(** The part of the torch tensor interface that [FGM] calls.  A scalar
    result ([torch.norm]) is read as a float; single precision values are
    binary64 values, and being zero or NaN does not depend on the width. *)
Class TorchTensor (tensor : Type) : Type := {
  torch_norm : tensor → float;           (* [torch.norm(t)] *)
  scalar_mul : float → tensor → tensor;  (* [epsilon * t] *)
  scalar_div : tensor → float → tensor;  (* [t / norm] *)
  add_ : tensor → tensor → tensor;       (* [t.add_(r)], the new value of [t] *)
}.

Section FGM.
Context {tensor : Type} `{!TorchTensor tensor}.

(** A [torch.nn.Parameter] (the word is reserved in Rocq, hence [Param]).
    [param.grad] is [None] until a backward pass has reached the
    parameter. *)
Record Param : Type := {
  requires_grad : bool;
  data : tensor;
  grad : option tensor;
}.

Definition set_data (t : tensor) (p : Param) : Param :=
  {| requires_grad := requires_grad p; data := t; grad := grad p |}.

(** An [FGM] object: [self.model], seen through [named_parameters()], and
    [self.backup], a dict from parameter names to tensors. *)
Record FGM : Type := {
  named_parameters : list (string * Param);
  backup : gmap string tensor;
}.

(** [FGM.__init__] *)
Definition FGM_init (params : list (string * Param)) : FGM :=
  {| named_parameters := params; backup := ∅ |}.

Definition emb_name_default : string := "bert.embeddings.word_embeddings.".
Definition epsilon_default : float := 1.0%float.

(** [param.requires_grad and emb_name in name] *)
Definition targeted (emb_name name : string) (param : Param) : bool :=
  requires_grad param && is_substring emb_name name.

(** [norm != 0 and not torch.isnan(norm)] *)
Definition usable_norm (norm : float) : bool :=
  negb (norm =? 0)%float && negb (is_nan norm).

(** The body of the loop of [attack] for one [(name, param)]. *)
Definition attack_param (epsilon : float) (emb_name : string)
    (bk : gmap string tensor) (name : string) (param : Param)
    : result (Param * gmap string tensor) :=
  if targeted emb_name name param then
    let bk := <[name := data param]> bk in
    match grad param with
    | None => Raise AttributeError
    | Some g =>
        let norm := torch_norm g in
        if usable_norm norm then
          let r_at := scalar_div (scalar_mul epsilon g) norm in
          Ok (set_data (add_ (data param) r_at) param, bk)
        else Ok (param, bk)
    end
  else Ok (param, bk).

Fixpoint attack_loop (epsilon : float) (emb_name : string)
    (params : list (string * Param)) (bk : gmap string tensor)
    : result (list (string * Param) * gmap string tensor) :=
  match params with
  | [] => Ok ([], bk)
  | (name, param) :: rest =>
      '(param', bk) ← attack_param epsilon emb_name bk name param;
      '(rest', bk) ← attack_loop epsilon emb_name rest bk;
      Ok ((name, param') :: rest', bk)
  end.

(** [FGM.attack] *)
Definition attack (epsilon : float) (emb_name : string) (self : FGM) : result FGM :=
  '(params, bk) ← attack_loop epsilon emb_name (named_parameters self) (backup self);
  Ok {| named_parameters := params; backup := bk |}.

(** The body of the loop of [restore] for one [(name, param)]. *)
Definition restore_param (emb_name : string) (bk : gmap string tensor)
    (name : string) (param : Param) : result Param :=
  if targeted emb_name name param then
    match bk !! name with
    | None => Raise AssertionError
    | Some t => Ok (set_data t param)
    end
  else Ok param.

Fixpoint restore_loop (emb_name : string) (bk : gmap string tensor)
    (params : list (string * Param)) : result (list (string * Param)) :=
  match params with
  | [] => Ok []
  | (name, param) :: rest =>
      param' ← restore_param emb_name bk name param;
      rest' ← restore_loop emb_name bk rest;
      Ok ((name, param') :: rest')
  end.

(** [FGM.restore] *)
Definition restore (emb_name : string) (self : FGM) : result FGM :=
  params ← restore_loop emb_name (backup self) (named_parameters self);
  Ok {| named_parameters := params; backup := ∅ |}.

(** *** The two loops as relations, parameter by parameter *)

(** What [attack] does to one parameter, as a relation between the
    parameter before and after. *)
Definition attacked (epsilon : float) (emb_name : string)
    (np np' : string * Param) : Prop :=
  np'.1 = np.1 ∧
  if targeted emb_name np.1 np.2 then
    ∃ g, grad np.2 = Some g ∧
      np'.2 = if usable_norm (torch_norm g)
              then set_data (add_ (data np.2)
                     (scalar_div (scalar_mul epsilon g) (torch_norm g))) np.2
              else np.2
  else np'.2 = np.2.

(** What [restore] does to one parameter. *)
Definition restored (emb_name : string) (bk : gmap string tensor)
    (np np' : string * Param) : Prop :=
  np'.1 = np.1 ∧
  if targeted emb_name np.1 np.2 then
    ∃ t, bk !! np.1 = Some t ∧ np'.2 = set_data t np.2
  else np'.2 = np.2.

End FGM.

Arguments Param tensor : clear implicits.
Arguments FGM tensor : clear implicits.

(** A concrete tensor: a flat list of floats, with the Frobenius norm
    summed left to right. *)
Definition list_norm (t : list float) : float :=
  sqrt (fold_left (λ acc v, acc + v * v)%float t 0%float).

#[global] Instance list_tensor : TorchTensor (list float) := {|
  torch_norm := list_norm;
  scalar_mul := λ c t, map (λ v, c * v)%float t;
  scalar_div := λ t c, map (λ v, v / c)%float t;
  add_ := λ t r, zip_with (λ v w, v + w)%float t r;
|}.

(** Parameter sets used to run [attack] and [restore]. *)
Definition word_embeddings : string := "bert.embeddings.word_embeddings.weight".
Definition frozen_grad_param : Param (list float) :=
  {| requires_grad := true; data := [1.0; 2.0]%float; grad := Some [0.0; 0.0]%float |}.
Definition live_grad_param : Param (list float) :=
  {| requires_grad := true; data := [1.0; 2.0]%float; grad := Some [3.0; 4.0]%float |}.
Definition classifier_bias : string := "classifier.bias".
Definition head_param : Param (list float) :=
  {| requires_grad := true; data := [0.5]%float; grad := None |}.
Definition two_params : FGM (list float) :=
  FGM_init [(word_embeddings, live_grad_param); (classifier_bias, head_param)].
Definition frozen_after_attack : FGM (list float) :=
  {| named_parameters := [(word_embeddings, frozen_grad_param)];
     backup := {[ word_embeddings := [1.0; 2.0]%float ]} |}.

(** ** The confidence ranker ([run_ld.py], [sort])

    The pools handed to [sort] are Python lists of [InputFeatures]
    objects.  [sort] assigns to a field of an object it has reached through
    one list and appends the same object to the other list, so objects live
    in a heap and a pool is a list of references. *)

Record InputFeatures : Type := {
  input_ids : list Z;
  input_mask : list Z;
  segment_ids : list Z;
  label_id : Z;
}.

(** [ex.label_id = i] *)
Definition set_label_id (i : Z) (ex : InputFeatures) : InputFeatures :=
  {| input_ids := input_ids ex; input_mask := input_mask ex;
     segment_ids := segment_ids ex; label_id := i |}.

Abbreviation ref := nat.

(** What [sort] can change besides its two lists: the objects, and the
    lines written by [print]. *)
Record world : Type := {
  heap : gmap ref InputFeatures;
  stdout : list string;
}.

(** A loop whose body may raise. *)
Fixpoint foldM {S A : Type} (body : S → A → result S) (s : S) (l : list A)
    : result S :=
  match l with
  | [] => Ok s
  | a :: l' => s' ← body s a; foldM body s' l'
  end.

(** [sorted(l, reverse=True, key=...)] where [key_lt x y] is [key(x) <
    key(y)].  Python's sort is stable, also under [reverse=True]: elements
    whose keys are equal keep their order.  When [<] is a strict weak
    order on the keys every stable sort returns this list, and so does
    Python's.  With a NaN among the keys [<] is no such order: the list
    Python returns is then a permutation of [l] that depends on the merge
    strategy of its sort, and it need not be this one.  The properties of
    [sort] claimed below that depend on the order of the sorted
    candidates, or on which of them are taken, assume that the scores are
    numbers. *)
Section sorted.
Context {A : Type} (key_lt : A → A → bool).

Fixpoint insert_rev (x : A) (l : list A) : list A :=
  match l with
  | [] => [x]
  | y :: l' => if key_lt x y then y :: insert_rev x l' else x :: l
  end.

Definition sorted_rev (l : list A) : list A := foldr insert_rev [] l.

End sorted.

(** [l[:k]]: a negative [k] counts from the end. *)
Definition slice_to {A : Type} (l : list A) (k : Z) : list A :=
  if (k <? 0)%Z then take (Z.to_nat (Z.of_nat (length l) + k)) l
  else take (Z.to_nat k) l.

(** [d[i] = c] on a dict that is later read through [items()]: a new key
    goes last, an old key keeps its place. *)
Fixpoint dict_set (i : nat) (c : float) (d : list (nat * float)) : list (nat * float) :=
  match d with
  | [] => [(i, c)]
  | (j, c') :: d' => if decide (i = j) then (i, c) :: d' else (j, c') :: dict_set i c d'
  end.

(** The first loop of [sort]: [label2id] maps a predicted label to the
    dict from pool indices to confidences. *)
Definition group_step (label2id : gmap Z (list (nat * float)))
    (i : nat) (item : Z * float) : gmap Z (list (nat * float)) :=
  let d := default [] (label2id !! item.1) in
  <[item.1 := dict_set i item.2 d]> label2id.

Fixpoint group_loop (i : nat) (id2conf : list (Z * float))
    (label2id : gmap Z (list (nat * float))) : gmap Z (list (nat * float)) :=
  match id2conf with
  | [] => label2id
  | item :: rest => group_loop (S i) rest (group_step label2id i item)
  end.

(** [key=lambda kv: kv[1]] *)
Definition conf_lt (kv kv' : nat * float) : bool := (kv.2 <? kv'.2)%float.

(** The state of the second loop. *)
Record rank_state : Type := {
  id2train : list nat;
  ud_train_examples : list ref;
  rank_world : world;
}.

(** The body of the inner loop, for one [i2c] of [sorted_i2cs[:num_k]]. *)
Definition promote (eval_examples : list ref) (i : nat)
    (st : rank_state) (i2c : nat * float) : result rank_state :=
  match eval_examples !! i2c.1 with
  | None => Raise IndexError
  | Some ex =>
      Ok {| id2train := id2train st ++ [i2c.1];
            ud_train_examples := ud_train_examples st ++ [ex];
            rank_world :=
              {| heap := alter (set_label_id (Z.of_nat i)) ex (heap (rank_world st));
                 stdout := stdout (rank_world st) |} |}
  end.

(** The body of the second loop, for one class [i] of [range(len(label_list))]. *)
Definition class_step (label2id : gmap Z (list (nat * float)))
    (eval_examples : list ref) (num_k : Z)
    (st : rank_state) (i : nat) : result rank_state :=
  match label2id !! Z.of_nat i with
  | None =>
      Ok {| id2train := id2train st;
            ud_train_examples := ud_train_examples st;
            rank_world :=
              {| heap := heap (rank_world st);
                 stdout := stdout (rank_world st) ++ ["no class " +:+ pretty i] |} |}
  | Some i2cs =>
      let sorted_i2cs := sorted_rev conf_lt i2cs in
      foldM (promote eval_examples i) st (slice_to sorted_i2cs num_k)
  end.

(** [del l[index]] *)
Definition del_step (l : list ref) (index : nat) : result (list ref) :=
  if decide (index < length l) then Ok (delete index l) else Raise IndexError.

(** [sort(train_examples, eval_examples, label_list, id2conf, num_k)].  The
    two lists are different objects (in [main] they are built by two calls
    of [convert_examples_to_features]). *)
Definition sort (w : world) (train_examples eval_examples : list ref)
    (label_list : list string) (id2conf : list (Z * float)) (num_k : Z)
    : result (world * (list ref * list ref)) :=
  let label2id := group_loop 0 id2conf ∅ in
  st ← foldM (class_step label2id eval_examples num_k)
         {| id2train := []; ud_train_examples := train_examples; rank_world := w |}
         (seq 0 (length label_list));
  ud_unlabel_examples ← foldM del_step eval_examples
                          (sorted_rev Nat.ltb (id2train st));
  Ok (rank_world st, (ud_train_examples st, ud_unlabel_examples)).

(** *** What the loops of [sort] compute

    The functions below state the results of the three loops without the
    dict, the mutable lists and the deletions. *)

(** [x] occurs in [l] and [y] occurs after it. *)
Fixpoint before {A : Type} (x y : A) (l : list A) : Prop :=
  match l with
  | [] => False
  | z :: l' => (z = x ∧ y ∈ l') ∨ before x y l'
  end.

(** The records of [id2conf] predicted [lab], each with its index in the
    pool, the first record having index [i]. *)
Fixpoint candidates (i : nat) (id2conf : list (Z * float)) (lab : Z)
    : list (nat * float) :=
  match id2conf with
  | [] => []
  | item :: rest =>
      if decide (item.1 = lab) then (i, item.2) :: candidates (S i) rest lab
      else candidates (S i) rest lab
  end.

(** The pool indices promoted for class [i]. *)
Definition selected (id2conf : list (Z * float)) (num_k : Z) (i : nat) : list nat :=
  (slice_to (sorted_rev conf_lt (candidates 0 id2conf (Z.of_nat i))) num_k).*1.

(** The pool indices promoted for the classes [0 .. n-1], in the order in
    which they are appended to [id2train]. *)
Definition promoted (id2conf : list (Z * float)) (num_k : Z) (n : nat) : list nat :=
  seq 0 n ≫= selected id2conf num_k.

(** The lines printed for the classes [0 .. n-1]. *)
Definition diagnostics (id2conf : list (Z * float)) (n : nat) : list string :=
  seq 0 n ≫= λ i,
    match candidates 0 id2conf (Z.of_nat i) with
    | [] => ["no class " +:+ pretty i]
    | _ => []
    end.

(** The objects found at the indices [ids] of a pool. *)
Definition gather (pool : list ref) (ids : list nat) : list ref :=
  omap (λ j, pool !! j) ids.

(** The pool without the objects at the indices [ids]; [i] is the index
    of the first element of [pool]. *)
Fixpoint remaining_from (i : nat) (ids : list nat) (pool : list ref) : list ref :=
  match pool with
  | [] => []
  | x :: pool' =>
      if decide (i ∈ ids) then remaining_from (S i) ids pool'
      else x :: remaining_from (S i) ids pool'
  end.

(** The heap after the objects at the indices [js] of [pool] got label [i]. *)
Definition relabel (pool : list ref) (h : gmap ref InputFeatures)
    (i : nat) (js : list nat) : gmap ref InputFeatures :=
  foldl (λ h ex, alter (set_label_id (Z.of_nat i)) ex h) h (gather pool js).

Definition relabel_all (pool : list ref) (id2conf : list (Z * float)) (num_k : Z)
    (h : gmap ref InputFeatures) (n : nat) : gmap ref InputFeatures :=
  foldl (λ h i, relabel pool h i (selected id2conf num_k i)) h (seq 0 n).

(** Pools and confidence records used to run [sort]: label vocabulary
    [{0,1,2,3}], nobody predicted class [2], and the first two records tie
    at [0.91] for class [0]. *)
Definition features (lab : Z) : InputFeatures :=
  {| input_ids := [101; 2023; 102]%Z; input_mask := [1; 1; 1]%Z;
     segment_ids := [0; 0; 0]%Z; label_id := lab |}.

Definition scenario_world : world :=
  {| heap := list_to_map
       [(100, features 0); (101, features 1); (10, features 3); (11, features 3);
        (12, features 0); (13, features 0); (14, features 2)];
     stdout := [] |}.

Definition scenario_labels : list string := ["CCAT"; "ECAT"; "MCAT"; "GCAT"].
Definition scenario_train : list ref := [100; 101].
Definition scenario_pool : list ref := [10; 11; 12; 13; 14].
Definition scenario_records : list (Z * float) :=
  [(0%Z, 0.91%float); (0%Z, 0.91%float); (1%Z, 0.5%float);
   (3%Z, 0.7%float); (1%Z, 0.6%float)].

(** A pool that holds the same object twice. *)
Definition twice_pool : list ref := [10; 10].
Definition twice_records : list (Z * float) := [(0%Z, 0.9%float); (0%Z, 0.8%float)].

(** The world after [sort] on the pools above with [num_k = 1]: the
    examples at the indices 0, 4 and 3 of the pool carry the classes 0, 1
    and 3, and one line was printed. *)
Definition scenario_after : world :=
  {| heap := list_to_map
       [(100, features 0); (101, features 1); (10, features 0); (11, features 3);
        (12, features 0); (13, features 3); (14, features 1)];
     stdout := ["no class 2"] |}.

(** Two records tied at [0.91] below a third one of the same class. *)
Definition tie_below_top : list (Z * float) :=
  [(0%Z, 0.91%float); (0%Z, 0.91%float); (0%Z, 0.99%float)].

(** ** The best-accuracy watermark ([run_ld.py], [train] and [main])

    The forward and backward passes, the optimizer and the data loaders
    are collaborators of the training loop.  What reaches the end of an
    epoch is the validation accuracy computed there and the [state_dict]
    that [torch.save] would write. *)

Section watermark.
Context {state_dict : Type}.

Record epoch_result : Type := {
  eval_accuracy : float;       (* [eval_accuracy / nb_eval_examples] *)
  model_state : state_dict;    (* [model_to_save.state_dict()] *)
}.

(** The local [best_acc] of [train] and the file [args.output_model_file]. *)
Record train_state : Type := {
  best_acc : float;
  output_model_file : option state_dict;
}.

(** The end of one epoch: [if eval_accuracy > best_acc: best_acc =
    eval_accuracy; torch.save(...)]. *)
Definition epoch_end (st : train_state) (ep : epoch_result) : train_state :=
  if (best_acc st <? eval_accuracy ep)%float then
    {| best_acc := eval_accuracy ep; output_model_file := Some (model_state ep) |}
  else st.

(** [train(model, optimizer, train_examples, eval_examples, best_acc,
    args)], one [epoch_result] for each of the [num_train_epochs] epochs;
    [best_acc (train st epochs)] is the value returned. *)
Definition train (st : train_state) (epochs : list epoch_result) : train_state :=
  fold_left epoch_end epochs st.

(** The watermark after each epoch of a call of [train]. *)
Fixpoint watermarks (st : train_state) (epochs : list epoch_result) : list float :=
  match epochs with
  | [] => []
  | ep :: rest => best_acc (epoch_end st ep) :: watermarks (epoch_end st ep) rest
  end.

(** The rounds of [main]: [best_acc = train(..., best_acc, args)] for each
    [time in range(self_train_time)].  Each call is recorded with the state
    it was given and the state it left. *)
Fixpoint run_rounds (st : train_state) (rounds : list (list epoch_result))
    : list (train_state * train_state) :=
  match rounds with
  | [] => []
  | epochs :: rest => (st, train st epochs) :: run_rounds (train st epochs) rest
  end.

(** [best_acc = 0] before the first round; [file] is what the output
    directory held. *)
Definition main_rounds (file : option state_dict)
    (rounds : list (list epoch_result)) : list (train_state * train_state) :=
  run_rounds {| best_acc := 0%float; output_model_file := file |} rounds.

End watermark.

Arguments epoch_result state_dict : clear implicits.
Arguments train_state state_dict : clear implicits.


(** An epoch with accuracy [acc] whose [state_dict] is told apart by
    [tag], and four epochs of one call of [train]: the highest accuracy
    occurs twice. *)
Definition scored (acc : float) (tag : nat) : epoch_result nat :=
  {| eval_accuracy := acc; model_state := tag |}.

Definition four_epochs : list (epoch_result nat) :=
  [scored 0.5 0; scored 0.4 1; scored 0.6 2; scored 0.6 3].

Definition fresh_run : train_state nat :=
  {| best_acc := 0; output_model_file := None |}.

(** ** The updates of one epoch ([run_ld.py], the loop over the batches
       in [train])

    What the loop over the batches of one epoch does to
    [args.global_step].  When [(step + 1) % args.gradient_accumulation_steps
    == 0] the loop computes [args.global_step / args.t_total], which raises
    [ZeroDivisionError] for [t_total = 0], installs the rate, calls
    [optimizer.step()] and adds one to the counter.  [main] refuses a
    [gradient_accumulation_steps] below [1], where Python's [%] is
    [Z.modulo].  The forward and backward passes, the optimizer and the
    perturbation are collaborators of the loop and are taken to return. *)
Definition batch_end (gradient_accumulation_steps t_total : Z)
    (global_step : Z) (step : nat) : result Z :=
  if ((Z.of_nat step + 1) mod gradient_accumulation_steps =? 0)%Z
  then if (t_total =? 0)%Z then Raise ZeroDivisionError
       else Ok (global_step + 1)%Z
  else Ok global_step.

(** [for step, batch in enumerate(train_dataloader)], over [batches] batches. *)
Definition epoch_updates (gradient_accumulation_steps t_total : Z) (batches : nat)
    (global_step : Z) : result Z :=
  foldM (batch_end gradient_accumulation_steps t_total) global_step (seq 0 batches).
(** ** Reading examples ([run_ld.py], [MLDProcessor] and [CLYProcessor])

    [_read_tsv] hands over the rows of a file, each a list of fields (the
    [csv] reader gives an empty list for an empty line). *)

Record InputExample : Type := {
  guid : string;
  text_a : string;
  text_b : option string;   (* [None] by default *)
  label : option string;    (* [None] by default *)
}.

(** [l[i]] for an index that is not negative. *)
Definition py_index {A : Type} (l : list A) (i : nat) : result A :=
  match l !! i with
  | Some x => Ok x
  | None => Raise IndexError
  end.

(** The loop that all the [get_*_examples] methods share, from row [i] on:
    [guid = "%s-%s" % (set_type, i)], [text_a = line[1]], [label = line[0]]. *)
Fixpoint read_examples (set_type : string) (i : nat) (lines : list (list string))
    : result (list InputExample) :=
  match lines with
  | [] => Ok []
  | line :: rest =>
      text ← py_index line 1;
      lab ← py_index line 0;
      examples ← read_examples set_type (S i) rest;
      Ok ({| guid := set_type +:+ "-" +:+ pretty i; text_a := text;
             text_b := None; label := Some lab |} :: examples)
  end.

Module MLDProcessor.

Definition get_train_examples (lines : list (list string)) : result (list InputExample) :=
  read_examples "train" 0 lines.

(** Two lists of separate objects with the same contents. *)
Definition get_unlabel_examples (lines : list (list string))
    : result (list InputExample * list InputExample) :=
  examples ← read_examples "uns" 0 lines;
  Ok (examples, examples).

(** Both files are read; the examples of the first are returned. *)
Definition get_dev_examples (src_lines trg_lines : list (list string))
    : result (list InputExample) :=
  src_examples ← read_examples "dev" 0 src_lines;
  trg_examples ← read_examples "dev" 0 trg_lines;
  Ok src_examples.

Definition get_test_examples (src_lines : list (list string))
    : result (list InputExample) :=
  read_examples "test" 0 src_lines.

Definition get_labels : list string := ["CCAT"; "ECAT"; "MCAT"; "GCAT"].

End MLDProcessor.

Module CLYProcessor.

Definition get_train_examples (lines : list (list string)) : result (list InputExample) :=
  read_examples "train" 0 lines.

Definition get_unlabel_examples (lines : list (list string))
    : result (list InputExample * list InputExample) :=
  examples ← read_examples "uns" 0 lines;
  Ok (examples, examples).

(** Both files are read; the examples of the second are returned. *)
Definition get_dev_examples (src_lines trg_lines : list (list string))
    : result (list InputExample) :=
  src_examples ← read_examples "dev" 0 src_lines;
  trg_examples ← read_examples "dev" 0 trg_lines;
  Ok trg_examples.

Definition get_labels : list string := ["1"; "2"; "3"; "4"; "5"].

End CLYProcessor.

(** ** Feature encoding ([run_ld.py], [_truncate_seq_pair] and
       [convert_examples_to_features]) *)

(** [while True]: stop when the two lists fit, else [pop()] the last token
    of the longer list, of [tokens_b] when they are equally long.  [pop()]
    on an empty list raises [IndexError].  The lists are changed in place:
    the result is what the caller finds in them. *)
Equations? _truncate_seq_pair (tokens_a tokens_b : list string) (max_length : Z)
    : result (list string * list string)
    by wf (length tokens_a + length tokens_b) lt :=
  _truncate_seq_pair tokens_a tokens_b max_length
    with decide (Z.of_nat (length tokens_a + length tokens_b) ≤ max_length)%Z := {
    | left _ => Ok (tokens_a, tokens_b)
    | right _ with decide (length tokens_b < length tokens_a) := {
      | left _ with tokens_a := {
        | [] => Raise IndexError
        | t :: a => _truncate_seq_pair (take (length a) (t :: a)) tokens_b max_length }
      | right _ with tokens_b := {
        | [] => Raise IndexError
        | t :: b => _truncate_seq_pair tokens_a (take (length b) (t :: b)) max_length } } }.
Proof.
  all: rewrite length_take; cbn; lia.
Qed.

(** The two methods of the tokenizer that the encoding calls. *)
Class Tokenizer : Type := {
  tokenize : string → list string;
  convert_tokens_to_ids : list string → list Z;
}.

(** The encoding raises [KeyError] besides the exceptions above. *)
Inductive convert_exn : Type :=
  | KeyError                (* [label_map[example.label]] *)
  | Builtin (e : exn).

Inductive outcome (A : Type) : Type :=
  | Return (a : A)
  | Throw (e : convert_exn).
Arguments Return {A} a.
Arguments Throw {A} e.

#[global] Instance outcome_ret : MRet outcome := λ A a, Return a.
#[global] Instance outcome_bind : MBind outcome := λ A B k r,
  match r with
  | Return a => k a
  | Throw e => Throw e
  end.

Definition lift {A : Type} (r : result A) : outcome A :=
  match r with
  | Ok a => Return a
  | Raise e => Throw (Builtin e)
  end.

(** [{label: i for i, label in enumerate(label_list)}]: a label that
    occurs twice keeps its last index. *)
Fixpoint label_map_from (i : nat) (label_list : list string)
    (label_map : gmap string nat) : gmap string nat :=
  match label_list with
  | [] => label_map
  | lab :: rest => label_map_from (S i) rest (<[lab := i]> label_map)
  end.

(** [assert len(l) == max_seq_length] *)
Definition assert_len {A : Type} (l : list A) (max_seq_length : Z) : outcome () :=
  if (Z.of_nat (length l) =? max_seq_length)%Z then Return ()
  else Throw (Builtin AssertionError).

Section convert.
Context `{Tokenizer}.

(** The body of the loop of [convert_examples_to_features] for one
    example, in two halves: the tokens of the two texts, cut to fit, and
    the feature built from them.  The [logger.info] calls for the first
    five examples are left out: log records carry the time of day. *)
Definition example_tokens (max_seq_length : Z) (example : InputExample)
    : outcome (list string * option (list string)) :=
  let tokens_a := tokenize (text_a example) in
  match text_b example with
  | Some (String c s) =>                         (* [if example.text_b:] *)
      let tokens_b := tokenize (String c s) in
      '(tokens_a, tokens_b) ←
        lift (_truncate_seq_pair tokens_a tokens_b (max_seq_length - 3));
      Return (tokens_a, Some tokens_b)
  | _ =>
      if (max_seq_length - 2 <? Z.of_nat (length tokens_a))%Z
      then Return (slice_to tokens_a (max_seq_length - 2), None)
      else Return (tokens_a, None)
  end.

Definition encode_tokens (label_map : gmap string nat) (max_seq_length : Z)
    (tokens_a : list string) (tokens_b : option (list string))
    (lab : option string) : outcome InputFeatures :=
  let tokens := ["[CLS]"] ++ tokens_a ++ ["[SEP]"] in
  let segment_ids := replicate (length tokens) 0%Z in
  let '(tokens, segment_ids) :=
    match tokens_b with
    | Some (t :: b) =>                           (* [if tokens_b:] *)
        (tokens ++ (t :: b) ++ ["[SEP]"],
         segment_ids ++ replicate (length (t :: b) + 1) 1%Z)
    | _ => (tokens, segment_ids)
    end in
  let input_ids := convert_tokens_to_ids tokens in
  let input_mask := replicate (length input_ids) 1%Z in
  let padding :=
    replicate (Z.to_nat (max_seq_length - Z.of_nat (length input_ids))) 0%Z in
  let input_ids := input_ids ++ padding in
  let input_mask := input_mask ++ padding in
  let segment_ids := segment_ids ++ padding in
  _ ← assert_len input_ids max_seq_length;
  _ ← assert_len input_mask max_seq_length;
  _ ← assert_len segment_ids max_seq_length;
  match lab ≫= (label_map !!.) with
  | None => Throw KeyError
  | Some i =>
      Return {| input_ids := input_ids; input_mask := input_mask;
                segment_ids := segment_ids; label_id := Z.of_nat i |}
  end.

Definition convert_example (label_map : gmap string nat) (max_seq_length : Z)
    (example : InputExample) : outcome InputFeatures :=
  '(tokens_a, tokens_b) ← example_tokens max_seq_length example;
  encode_tokens label_map max_seq_length tokens_a tokens_b (label example).

Fixpoint convert_loop (label_map : gmap string nat) (max_seq_length : Z)
    (examples : list InputExample) : outcome (list InputFeatures) :=
  match examples with
  | [] => Return []
  | example :: rest =>
      feature ← convert_example label_map max_seq_length example;
      features ← convert_loop label_map max_seq_length rest;
      Return (feature :: features)
  end.

(** [convert_examples_to_features(examples, label_list, max_seq_length,
    tokenizer)] *)
Definition convert_examples_to_features (examples : list InputExample)
    (label_list : list string) (max_seq_length : Z) : outcome (list InputFeatures) :=
  convert_loop (label_map_from 0 label_list ∅) max_seq_length examples.

End convert.

(** A tokenizer to run the encoding with: tokens are the words between
    spaces, and the id of a token is its length. *)
Fixpoint words_from (acc : string) (s : string) : list string :=
  match s with
  | EmptyString => if decide (acc = "") then [] else [acc]
  | String c s' =>
      if decide (String c "" = " ")
      then (if decide (acc = "") then [] else [acc]) ++ words_from "" s'
      else words_from (acc +:+ String c "") s'
  end.

#[global] Instance word_tokenizer : Tokenizer := {|
  tokenize := words_from "";
  convert_tokens_to_ids := map (λ t, Z.of_nat (String.length t));
|}.

(** * Vocabulary for the facts about the encoding *)

Section convert_spec.
Context `{Tokenizer}.

(** [convert_tokens_to_ids] gives one id for each token. *)
Definition ids_per_token : Prop :=
  ∀ tokens, length (convert_tokens_to_ids tokens) = length tokens.

End convert_spec.

(** [if example.text_b:] *)
Definition has_text_b (example : InputExample) : Prop :=
  ∃ c s, text_b example = Some (String c s).

(** Number of entries of the second segment: the tokens of the second
    text and their closing marker, none when there is no second text. *)
Definition second_segment (b : option (list string)) : nat :=
  match b with
  | Some (t :: b') => length (t :: b') + 1
  | _ => 0
  end.

(** The label of an example is one of [label_list]. *)
Definition known_label (label_list : list string) (example : InputExample) : Prop :=
  ∃ l, label example = Some l ∧ l ∈ label_list.

#[global] Instance known_label_dec (label_list : list string) (example : InputExample) :
  Decision (known_label label_list example).
Proof.
  unfold known_label. destruct (label example) as [l|].
  - destruct (decide (l ∈ label_list)); [left; eauto|right; by intros (?&[= <-]&?)].
  - right. by intros (?&?&?).
Defined.


(** Two examples to run the encoding on, a single text and a pair. *)
Definition hairy_dog : InputExample :=
  {| guid := "train-0"; text_a := "the dog is hairy ."; text_b := None;
     label := Some "ECAT" |}.

Definition jacksonville : InputExample :=
  {| guid := "train-1"; text_a := "is this jacksonville ?";
     text_b := Some "no it is not ."; label := Some "CCAT" |}.

(** The two examples encoded by [word_tokenizer] with
    [max_seq_length = 10] and the labels of [MLDProcessor]. *)
Definition encoded_examples : list InputFeatures :=
  [ {| input_ids := [5; 3; 3; 2; 5; 1; 5; 0; 0; 0];
       input_mask := [1; 1; 1; 1; 1; 1; 1; 0; 0; 0];
       segment_ids := [0; 0; 0; 0; 0; 0; 0; 0; 0; 0];
       label_id := 1 |};
    {| input_ids := [5; 2; 4; 12; 1; 5; 2; 2; 2; 5];
       input_mask := [1; 1; 1; 1; 1; 1; 1; 1; 1; 1];
       segment_ids := [0; 0; 0; 0; 0; 0; 1; 1; 1; 1];
       label_id := 0 |} ]%Z.

(** The example that the methods of the processors build from row [i]
    of a file with at least two fields: the first is the label, the
    second the text. *)
Definition row_example (set_type : string) (i : nat) (line : list string) : InputExample :=
  {| guid := set_type +:+ "-" +:+ pretty i; text_a := default "" (line !! 1);
     text_b := None; label := line !! 0 |}.

(** The layout of a feature whose first segment has [na] entries and
    whose second segment has [nb]: ones in the mask over both, zeros and
    ones in [segment_ids], and zeros in both up to [max_seq_length]. *)
Definition laid_out (max_seq_length : Z) (na nb : nat) (f : InputFeatures) : Prop :=
  length (input_ids f) = Z.to_nat max_seq_length ∧
  input_mask f =
    replicate (na + nb) 1%Z ++ replicate (Z.to_nat max_seq_length - (na + nb)) 0%Z ∧
  segment_ids f =
    replicate na 0%Z ++ replicate nb 1%Z ++
    replicate (Z.to_nat max_seq_length - (na + nb)) 0%Z.

Section kept.
Context `{Tokenizer}.

(** How many tokens of the two texts of an example the encoding keeps:
    of a single text the first [max_seq_length - 2]; of a pair what
    [_truncate_seq_pair] leaves for [max_seq_length - 3], the longer text
    being cut first, down to half of the room each. *)
Definition kept_tokens (max_seq_length : Z) (example : InputExample) : nat * nat :=
  let ta := length (tokenize (text_a example)) in
  match text_b example with
  | Some (String c s) =>
      let tb := length (tokenize (String c s)) in
      let M := Z.to_nat (max_seq_length - 3) in
      (ta `min` (((M + 1) / 2) `max` (M - tb)), tb `min` ((M / 2) `max` (M - ta)))
  | _ => (ta `min` Z.to_nat (max_seq_length - 2), 0)
  end.

(** The entries of the two segments: the first text between [[CLS]] and
    [[SEP]]; the second text, when some of it is kept, and its [[SEP]]. *)
Definition segment_sizes (max_seq_length : Z) (example : InputExample) : nat * nat :=
  let '(ka, kb) := kept_tokens max_seq_length example in
  (ka + 2, match kb with 0 => 0 | S _ => kb + 1 end).

End kept.

(* ================================================================== *)
(** * Properties *)

(** ** Order facts on binary64 values *)

Section float_order.
Import PyFloat.

Lemma SFcompare_rank x y : SFcompare x y = rank_compare x y.
Proof.
  destruct x as [sx|sx| |sx mx ex], y as [sy|sy| |sy my ey];
    try destruct sx; try destruct sy; try reflexivity.
  cbn. rewrite Z.compare_opp, (Z.compare_antisym ey ex).
  destruct (ey ?= ex)%Z; reflexivity.
Qed.

Lemma lex3_Lt a b : lex3 a b = Lt ↔
  (a.1.1 < b.1.1 ∨ (a.1.1 = b.1.1 ∧ (a.1.2 < b.1.2 ∨ (a.1.2 = b.1.2 ∧ a.2 < b.2))))%Z.
Proof.
  destruct a as [[a1 a2] a3], b as [[b1 b2] b3]; cbn.
  destruct (Z.compare_spec a1 b1), (Z.compare_spec a2 b2),
    (Z.compare_spec a3 b3); split; intros; try discriminate; try lia; auto.
Qed.

Lemma lex3_Eq a b : lex3 a b = Eq ↔ a = b.
Proof.
  destruct a as [[a1 a2] a3], b as [[b1 b2] b3]; cbn.
  destruct (Z.compare_spec a1 b1), (Z.compare_spec a2 b2),
    (Z.compare_spec a3 b3); split; intros; try discriminate;
    try congruence; try (exfalso; assert (a1 = b1 ∧ a2 = b2 ∧ a3 = b3) by
      (repeat split; congruence); lia).
Qed.

Lemma lex3_Gt a b : lex3 a b = Gt ↔ lex3 b a = Lt.
Proof.
  destruct a as [[a1 a2] a3], b as [[b1 b2] b3]; cbn.
  rewrite (Z.compare_antisym a1 b1), (Z.compare_antisym a2 b2),
    (Z.compare_antisym a3 b3).
  destruct (a1 ?= b1)%Z, (a2 ?= b2)%Z, (a3 ?= b3)%Z; cbn; split;
    intros; congruence.
Qed.

(** [x < y], [x <= y] and NaN through the ranks. *)
Lemma float_lt_rank x y : lt x y ↔
  ∃ a b, rank (Prim2SF x) = Some a ∧ rank (Prim2SF y) = Some b ∧ lex3 a b = Lt.
Proof.
  unfold lt. rewrite ltb_spec. unfold SFltb.
  rewrite SFcompare_rank. unfold rank_compare.
  destruct (rank (Prim2SF x)) as [a|], (rank (Prim2SF y)) as [b|];
    try (split; [discriminate | intros (?&?&?&?&?); discriminate]).
  split.
  - destruct (lex3 a b) eqn:E; try discriminate. eauto.
  - intros (a'&b'&[= <-]&[= <-]&->). reflexivity.
Qed.

Lemma float_le_rank x y : le x y ↔
  ∃ a b, rank (Prim2SF x) = Some a ∧ rank (Prim2SF y) = Some b ∧ lex3 a b ≠ Gt.
Proof.
  unfold le. rewrite leb_spec. unfold SFleb.
  rewrite SFcompare_rank. unfold rank_compare.
  destruct (rank (Prim2SF x)) as [a|], (rank (Prim2SF y)) as [b|];
    try (split; [discriminate | intros (?&?&?&?&?); discriminate]).
  split.
  - destruct (lex3 a b) eqn:E; try discriminate; exists a, b; by rewrite E.
  - intros (a'&b'&[= <-]&[= <-]&Hne). destruct (lex3 a b); congruence.
Qed.

Lemma float_nan_rank x : nan x ↔ rank (Prim2SF x) = None.
Proof. unfold nan. destruct (Prim2SF x) as [|[]| |[]]; cbn; split; congruence. Qed.

Lemma float_lt_le x y : lt x y → le x y.
Proof.
  rewrite float_lt_rank, float_le_rank. intros (a&b&?&?&E). exists a, b. by rewrite E.
Qed.

Lemma float_le_refl x : ¬ nan x → le x x.
Proof.
  rewrite float_nan_rank, float_le_rank. destruct (rank (Prim2SF x)) as [a|] eqn:E; [|done].
  intros _. exists a, a. split_and!; try done.
  by rewrite (proj2 (lex3_Eq a a) eq_refl).
Qed.

Lemma float_le_not_nan_l x y : le x y → ¬ nan x.
Proof. rewrite float_le_rank, float_nan_rank. intros (?&?&->&_). done. Qed.

Lemma float_le_not_nan_r x y : le x y → ¬ nan y.
Proof. rewrite float_le_rank, float_nan_rank. intros (?&?&_&->&_). done. Qed.

Lemma lex3_le_trans a b c : lex3 a b ≠ Gt → lex3 b c ≠ Gt → lex3 a c ≠ Gt.
Proof.
  intros H1 H2 H3. apply lex3_Gt in H3.
  assert (Hab : lex3 a b = Lt ∨ a = b).
  { destruct (lex3 a b) eqn:E; [right; by apply lex3_Eq | by left | done]. }
  assert (Hbc : lex3 b c = Lt ∨ b = c).
  { destruct (lex3 b c) eqn:E; [right; by apply lex3_Eq | by left | done]. }
  rewrite lex3_Lt in H3.
  destruct Hab as [Hab%lex3_Lt | ->], Hbc as [Hbc%lex3_Lt | ->]; lia.
Qed.

Lemma float_le_trans x y z : le x y → le y z → le x z.
Proof.
  rewrite !float_le_rank. intros (a&b&Ha&Hb&H1) (b'&c&Hb'&Hc&H2).
  rewrite Hb in Hb'. injection Hb' as <-.
  exists a, c. split_and!; try done. by eapply lex3_le_trans.
Qed.

(** Totality on comparable values: [not (x < y)] is [y <= x]. *)
Lemma float_not_lt_le x y : ¬ nan x → ¬ nan y → ¬ lt x y → le y x.
Proof.
  rewrite !float_nan_rank, float_lt_rank, float_le_rank.
  destruct (rank (Prim2SF x)) as [a|] eqn:Ea; [|done].
  destruct (rank (Prim2SF y)) as [b|] eqn:Eb; [|done].
  intros _ _ Hn. exists b, a. split_and!; try done.
  intros Hgt%lex3_Gt. apply Hn. eauto.
Qed.

Lemma float_le_not_lt x y : le x y → ¬ lt y x.
Proof.
  rewrite float_le_rank, float_lt_rank. intros (a&b&Ha&Hb&Hne) (b'&a'&Hb'&Ha'&Hlt).
  rewrite Ha in Ha'; rewrite Hb in Hb'. injection Ha' as <-. injection Hb' as <-.
  by apply Hne, lex3_Gt.
Qed.

Lemma float_lt_not_nan_l x y : lt x y → ¬ nan x.
Proof. intros H%float_lt_le. by eapply float_le_not_nan_l. Qed.

Lemma float_lt_not_nan_r x y : lt x y → ¬ nan y.
Proof. intros H%float_lt_le. by eapply float_le_not_nan_r. Qed.

(** *** Signs of rounded differences and products *)

Lemma shr_1_nonneg mrs : (0 <= shr_m mrs)%Z → (0 <= shr_m (shr_1 mrs))%Z.
Proof. destruct mrs as [[|[p|p|]|p] r s]; cbn; lia. Qed.

Lemma iter_pos_shr_1_nonneg p mrs :
  (0 <= shr_m mrs)%Z → (0 <= shr_m (SpecFloat.iter_pos shr_1 p mrs))%Z.
Proof.
  revert mrs. induction p as [p IH|p IH|]; intros mrs H; cbn.
  - apply IH, IH, shr_1_nonneg, H.
  - apply IH, IH, H.
  - apply shr_1_nonneg, H.
Qed.

Lemma shr_fexp_nonneg pr em m e l :
  (0 <= m)%Z → (0 <= shr_m (shr_fexp pr em m e l).1)%Z.
Proof.
  intros H. unfold shr_fexp, shr.
  assert (H0 : (0 <= shr_m (shr_record_of_loc m l))%Z).
  { destruct l as [|[]]; exact H. }
  destruct (fexp pr em (Zdigits2 m + e) - e)%Z; cbn; try exact H0.
  by apply iter_pos_shr_1_nonneg.
Qed.

Lemma round_nearest_even_nonneg m l : (0 <= m)%Z → (0 <= round_nearest_even m l)%Z.
Proof. intros H. destruct l as [|[]]; cbn; try destruct (Z.even m); lia. Qed.

Lemma binary_round_aux_sign pr em sx mx ex lx :
  (0 <= mx)%Z → has_sign sx (binary_round_aux pr em sx mx ex lx).
Proof.
  intros H. unfold binary_round_aux.
  pose proof (shr_fexp_nonneg pr em mx ex lx H) as H1.
  destruct (shr_fexp pr em mx ex lx) as [mrs' e']. cbn [fst] in H1.
  pose proof (shr_fexp_nonneg pr em _ e' loc_Exact
    (round_nearest_even_nonneg _ (loc_of_shr_record mrs') H1)) as H2.
  destruct (shr_fexp pr em (round_nearest_even (shr_m mrs') (loc_of_shr_record mrs')) e' loc_Exact)
    as [mrs'' e'']. cbn [fst] in H2.
  destruct (shr_m mrs'') as [|m|m]; [done| |lia].
  by destruct (e'' <=? em - pr)%Z.
Qed.

Lemma binary_round_sign pr em sx mx ex : has_sign sx (binary_round pr em sx mx ex).
Proof.
  unfold binary_round. destruct (shl_align _ _ _) as [mz ez].
  by apply binary_round_aux_sign.
Qed.

Lemma has_sign_neg_le_zero r s : has_sign true r → SFleb r (S754_zero s) = true.
Proof. destruct r as [[]|[]| |[] m e]; cbn; intros; done. Qed.

Lemma digits2_pos_lower m : (2 ^ (Z.pos (digits2_pos m) - 1) <= Z.pos m)%Z.
Proof.
  induction m as [p IH|p IH|]; cbn [digits2_pos]; [| |done].
  all: rewrite Pos2Z.inj_succ; replace (Z.succ (Z.pos (digits2_pos p)) - 1)%Z
         with (Z.succ (Z.pos (digits2_pos p) - 1))%Z by lia;
       rewrite Z.pow_succ_r by lia; lia.
Qed.

Lemma iter_xO_ge m d : (Z.pos m <= Z.pos (Pos.iter xO m d))%Z.
Proof.
  apply (Pos.iter_invariant d _ xO (λ p, (Z.pos m <= Z.pos p)%Z)); [|lia].
  intros p Hp. lia.
Qed.

(** A valid binary64 mantissa above the subnormal range is normalised. *)
Lemma valid_finite_normal s m e :
  valid_binary (S754_finite s m e) = true → (-1074 < e)%Z →
  (2 ^ 52 <= Z.pos m)%Z.
Proof.
  cbn. unfold bounded, canonical_mantissa, fexp, SpecFloat.emin.
  intros [Hc _]%andb_true_iff He. apply Z.eqb_eq in Hc.
  change prec with 53%Z in Hc. change emax with 1024%Z in Hc.
  assert (Hd : Z.pos (digits2_pos m) = 53%Z) by lia.
  pose proof (digits2_pos_lower m) as Hl. rewrite Hd in Hl. exact Hl.
Qed.

Lemma SFleb_finite_pos m1 e1 m2 e2 :
  SFleb (S754_finite false m1 e1) (S754_finite false m2 e2) = true →
  (e1 < e2 ∨ (e1 = e2 ∧ Z.pos m1 <= Z.pos m2))%Z.
Proof.
  unfold SFleb, SFcompare.
  change (PosDef.Pos.compare_cont Eq m1 m2) with (m1 ?= m2)%positive.
  destruct (Z.compare_spec e1 e2), (Pos.compare_spec m1 m2);
    intros; try discriminate; lia.
Qed.

Lemma SFsub_one_nonpos y :
  valid_binary y = true →
  SFleb (Prim2SF 1) y = true →
  SFleb (SF64sub (Prim2SF 1) y) (S754_zero false) = true.
Proof.
  change (Prim2SF 1) with (S754_finite false 4503599627370496 (-52)).
  intros Hv Hle.
  destruct y as [sy|[]| |[] my ey]; try discriminate Hle; try reflexivity.
  apply SFleb_finite_pos in Hle.
  unfold SF64sub, SFsub.
  rewrite (Z.min_l (-52) ey) by lia.
  set (d := (Z.pos 4503599627370496 - Z.pos (fst (shl_align my ey (-52))))%Z).
  assert (Hd : (d <= 0)%Z).
  { subst d. unfold shl_align.
    destruct (Z.eq_dec ey (-52)%Z) as [->|Hne].
    - rewrite Z.sub_diag. cbn [fst]. lia.
    - pose proof (valid_finite_normal _ _ _ Hv ltac:(lia)) as Hn.
      change (2 ^ 52)%Z with 4503599627370496%Z in Hn.
      destruct (-52 - ey)%Z as [|p|p] eqn:E; try lia. cbn [fst].
      pose proof (iter_xO_ge my p). lia. }
  cbn [cond_Zopp].
  change (fst (shl_align 4503599627370496 (-52) (-52))) with 4503599627370496%positive.
  fold d. destruct d as [|p|p]; [reflexivity | lia |].
  apply has_sign_neg_le_zero. cbn [binary_normalize]. apply binary_round_sign.
Qed.

Lemma float_one_sub_nonpos x : le 1 x → le (1 - x) 0.
Proof.
  unfold le. rewrite !leb_spec, sub_spec. intros H.
  apply SFsub_one_nonpos; [apply Prim2SF_valid | exact H].
Qed.

Lemma SFmul_pos_nonpos x y :
  SFltb (S754_zero false) x = true → SFltb x (S754_infinity false) = true →
  SFleb y (S754_zero false) = true →
  SFleb (SF64mul x y) (S754_zero false) = true.
Proof.
  intros H0 Hi Hy.
  destruct x as [sx|[]| |[] mx ex]; try discriminate H0; try discriminate Hi.
  destruct y as [[]|[]| |[] my ey]; try discriminate Hy; try reflexivity.
  apply has_sign_neg_le_zero. unfold SF64mul, SFmul.
  change (xorb false true) with true. by apply binary_round_aux_sign.
Qed.

Lemma float_mul_pos_nonpos lr r :
  lt 0 lr → lt lr infinity → le r 0 → le (lr * r) 0.
Proof.
  unfold lt, le. rewrite !ltb_spec, !leb_spec, mul_spec. apply SFmul_pos_nonpos.
Qed.

(** *** Rounding does not lose a value to zero above the subnormal range *)

Lemma Zdigits2_pos_iff m : (0 <= m)%Z → (0 < Zdigits2 m)%Z ↔ (0 < m)%Z.
Proof. destruct m; cbn; lia. Qed.

Lemma shr_1_digits mrs :
  (0 <= shr_m mrs)%Z →
  Zdigits2 (shr_m (shr_1 mrs)) = Z.max 0 (Zdigits2 (shr_m mrs) - 1).
Proof.
  destruct mrs as [[|[p|p|]|p] r s]; cbn; intros H; try lia.
Qed.

Lemma iter_pos_shr_1_digits p mrs :
  (0 <= shr_m mrs)%Z →
  Zdigits2 (shr_m (SpecFloat.iter_pos shr_1 p mrs)) =
    Z.max 0 (Zdigits2 (shr_m mrs) - Z.pos p).
Proof.
  revert mrs. induction p as [p IH|p IH|]; intros mrs H; cbn [SpecFloat.iter_pos].
  - rewrite IH, IH, shr_1_digits by auto using iter_pos_shr_1_nonneg, shr_1_nonneg. lia.
  - rewrite IH, IH by auto using iter_pos_shr_1_nonneg. lia.
  - by apply shr_1_digits.
Qed.

Lemma shr_fexp_pos m e l :
  (0 < m)%Z → (SpecFloat.emin prec emax <= e)%Z →
  (0 < shr_m (shr_fexp prec emax m e l).1)%Z ∧
  (SpecFloat.emin prec emax <= (shr_fexp prec emax m e l).2)%Z.
Proof.
  intros Hm He. unfold shr_fexp, shr.
  assert (H0 : shr_m (shr_record_of_loc m l) = m) by (by destruct l as [|[]]).
  pose proof (proj2 (Zdigits2_pos_iff m ltac:(lia)) Hm) as Hd.
  destruct (fexp prec emax (Zdigits2 m + e) - e)%Z as [|p|p] eqn:En; cbn [fst snd];
    rewrite ?H0; try (split; lia).
  split; [|lia].
  apply Zdigits2_pos_iff; [apply iter_pos_shr_1_nonneg; lia|].
  rewrite iter_pos_shr_1_digits, H0 by lia.
  unfold fexp in En. change prec with 53%Z in *. lia.
Qed.

Lemma round_nearest_even_pos m l : (0 < m)%Z → (0 < round_nearest_even m l)%Z.
Proof. intros H. destruct l as [|[]]; cbn; try destruct (Z.even m); lia. Qed.

Lemma binary_round_aux_neg mx ex lx :
  (0 < mx)%Z → (SpecFloat.emin prec emax <= ex)%Z →
  SFltb (binary_round_aux prec emax true mx ex lx) (S754_zero false) = true.
Proof.
  intros Hm He. unfold binary_round_aux.
  destruct (shr_fexp_pos mx ex lx Hm He) as [H1 He1].
  destruct (shr_fexp prec emax mx ex lx) as [mrs' e']. cbn [fst snd] in H1, He1.
  destruct (shr_fexp_pos _ e' loc_Exact
    (round_nearest_even_pos _ (loc_of_shr_record mrs') H1) He1) as [H2 _].
  destruct (shr_fexp prec emax (round_nearest_even (shr_m mrs') (loc_of_shr_record mrs')) e' loc_Exact)
    as [mrs'' e'']. cbn [fst] in H2.
  destruct (shr_m mrs'') as [|m|m]; [lia| |lia].
  by destruct (e'' <=? emax - prec)%Z.
Qed.

Lemma binary_round_neg mx ex :
  (SpecFloat.emin prec emax <= ex)%Z →
  SFltb (binary_round prec emax true mx ex) (S754_zero false) = true.
Proof.
  intros He. unfold binary_round.
  destruct (shl_align mx ex (fexp prec emax (Z.pos (digits2_pos mx) + ex))) as [mz ez] eqn:Es.
  apply binary_round_aux_neg; [lia|].
  unfold shl_align in Es.
  destruct (fexp prec emax (Z.pos (digits2_pos mx) + ex) - ex)%Z eqn:En;
    injection Es as <- <-; try done.
  unfold fexp. lia.
Qed.

Lemma iter_xO_gt m d : (Z.pos m < Z.pos (Pos.iter xO m d))%Z.
Proof.
  induction d as [|d IH] using Pos.peano_ind; [cbn; lia|].
  rewrite Pos.iter_succ. lia.
Qed.

Lemma SFltb_finite_pos m1 e1 m2 e2 :
  SFltb (S754_finite false m1 e1) (S754_finite false m2 e2) = true →
  (e1 < e2 ∨ (e1 = e2 ∧ Z.pos m1 < Z.pos m2))%Z.
Proof.
  unfold SFltb, SFcompare.
  change (PosDef.Pos.compare_cont Eq m1 m2) with (m1 ?= m2)%positive.
  destruct (Z.compare_spec e1 e2), (Pos.compare_spec m1 m2);
    intros; try discriminate; lia.
Qed.

Lemma SFsub_one_neg y :
  valid_binary y = true →
  SFltb (Prim2SF 1) y = true →
  SFltb (SF64sub (Prim2SF 1) y) (S754_zero false) = true.
Proof.
  change (Prim2SF 1) with (S754_finite false 4503599627370496 (-52)).
  intros Hv Hlt.
  destruct y as [sy|[]| |[] my ey]; try discriminate Hlt; try reflexivity.
  apply SFltb_finite_pos in Hlt.
  unfold SF64sub, SFsub.
  rewrite (Z.min_l (-52) ey) by lia.
  set (d := (Z.pos 4503599627370496 - Z.pos (fst (shl_align my ey (-52))))%Z).
  assert (Hd : (d < 0)%Z).
  { subst d. unfold shl_align.
    destruct (Z.eq_dec ey (-52)%Z) as [->|Hne].
    - rewrite Z.sub_diag. cbn [fst]. lia.
    - pose proof (valid_finite_normal _ _ _ Hv ltac:(lia)) as Hn.
      change (2 ^ 52)%Z with 4503599627370496%Z in Hn.
      destruct (-52 - ey)%Z as [|p|p] eqn:E; try lia. cbn [fst].
      pose proof (iter_xO_gt my p). lia. }
  cbn [cond_Zopp].
  change (fst (shl_align 4503599627370496 (-52) (-52))) with 4503599627370496%positive.
  fold d. destruct d as [|p|p]; [lia | lia |].
  cbn [binary_normalize]. by apply binary_round_neg.
Qed.

(** Past the planned total the multiplier is below zero, not zero. *)
Lemma float_one_sub_neg x : lt 1 x → lt (1 - x) 0.
Proof.
  unfold lt. rewrite !ltb_spec, sub_spec. intros H.
  apply SFsub_one_neg; [apply Prim2SF_valid | exact H].
Qed.

Lemma SFmul_pos_neg x y :
  SFltb (S754_zero false) x = true → SFltb x (S754_infinity false) = true →
  SFltb y (S754_zero false) = true →
  has_sign true (SF64mul x y).
Proof.
  intros H0 Hi Hy.
  destruct x as [sx|[]| |[] mx ex]; try discriminate H0; try discriminate Hi.
  destruct y as [[]|[]| |[] my ey]; try discriminate Hy; try reflexivity.
  unfold SF64mul, SFmul. change (xorb false true) with true.
  by apply binary_round_aux_sign.
Qed.

(** The product of a positive finite rate and a negative multiplier is
    negative, or the negative zero when it underflows. *)
Lemma float_mul_pos_neg lr r :
  lt 0 lr → lt lr infinity → lt r 0 → lt (lr * r) 0 ∨ (lr * r)%float = neg_zero.
Proof.
  unfold lt. rewrite !ltb_spec. intros H0 Hi Hr.
  pose proof (SFmul_pos_neg _ _ H0 Hi Hr) as Hs. rewrite <-mul_spec in Hs.
  destruct (Prim2SF (lr * r)) as [[]|[]| |[] m e] eqn:E; try done.
  - right. apply Prim2SF_inj. by rewrite E.
  - by left.
  - by left.
Qed.
End float_order.
(** ** The warmup schedule *)

Section warmup.
Import PyFloat.
Open Scope float_scope.

Lemma warmup_linear_ramp x w : lt x w → warmup_linear x w = x / w.
Proof. unfold warmup_linear, lt. by intros ->. Qed.

Lemma warmup_linear_tail x w : ¬ lt x w → warmup_linear x w = 1 - x.
Proof. unfold warmup_linear, lt. by destruct (x <? w). Qed.

(** C5.  For a progress ratio [x >= 0] and a warmup fraction [w > 0] the
    multiplier is [x / w] when [x < w] and [1 - x] when [w <= x] (at
    [x = w] and beyond), and one of the two cases applies: the tail is
    [1 - x], not rescaled by [1 - w]. *)
Theorem warmup_linear_cases (x w : float) :
  le 0 x → lt 0 w →
  (lt x w → warmup_linear x w = x / w) ∧
  (le w x → warmup_linear x w = 1 - x) ∧
  (lt x w ∨ le w x).
Proof.
  intros Hx Hw. split_and!.
  - apply warmup_linear_ramp.
  - intros Hle. by apply warmup_linear_tail, float_le_not_lt.
  - destruct (x <? w) eqn:E; [by left | right].
    apply float_not_lt_le.
    + by eapply float_le_not_nan_r.
    + by eapply float_lt_not_nan_r.
    + unfold lt. congruence.
Qed.

(** The ramp at [x = 0.001], [w = 0.002]. *)
Lemma warmup_linear_cases_witness :
  le 0 0.001 ∧ lt 0 0.002 ∧
  (lt 0.001 0.002 → warmup_linear 0.001 0.002 = 0.001 / 0.002) ∧
  (le 0.002 0.001 → warmup_linear 0.001 0.002 = 1 - 0.001) ∧
  (lt 0.001 0.002 ∨ le 0.002 0.001).
Proof.
  split; [reflexivity|]. split; [reflexivity|].
  apply (warmup_linear_cases 0.001 0.002); reflexivity.
Defined.

(** The tail is not [(1 - x) / (1 - w)]. *)
Example warmup_linear_tail_not_normalised :
  warmup_linear 0.5 0.25 = 0.5 ∧ ((1 - 0.5) / (1 - 0.25) =? 0.5) = false.
Proof. split; reflexivity. Qed.

(** C10.  For a progress ratio [x >= 1] and a warmup fraction [w < 1],
    [warmup_linear] returns [1 - x], which is zero or negative and is
    below zero as soon as [x > 1].  The rate installed by the training
    loop is the product of [learning_rate] and that value, with nothing
    between the two: for a positive finite [learning_rate] it is zero or
    negative, and for [x > 1] it is below zero, or the negative zero when
    the product underflows. *)
Theorem warmup_linear_past_total (x w : float) :
  le 1 x → lt w 1 →
  warmup_linear x w = 1 - x ∧ le (1 - x) 0 ∧
  (lt 1 x → lt (1 - x) 0) ∧
  ∀ learning_rate,
    lr_this_step learning_rate x w = learning_rate * (1 - x) ∧
    (lt 0 learning_rate → lt learning_rate infinity →
       le (lr_this_step learning_rate x w) 0 ∧
       (lt 1 x →
          lt (lr_this_step learning_rate x w) 0 ∨
          lr_this_step learning_rate x w = neg_zero)).
Proof.
  intros Hx Hw.
  assert (Htail : warmup_linear x w = 1 - x).
  { apply warmup_linear_tail, float_le_not_lt.
    eapply float_le_trans; [by apply float_lt_le | done]. }
  assert (Hneg : le (1 - x) 0) by by apply float_one_sub_nonpos.
  split_and!; try done.
  - apply float_one_sub_neg.
  - intros lr. unfold lr_this_step. rewrite Htail. split; [done|].
    intros H0 Hfin. split; [by apply float_mul_pos_nonpos|].
    intros Hx1. by apply float_mul_pos_neg, float_one_sub_neg.
Qed.

(** One and a half times the planned steps, [w = 0.1], and the rate
    [5e-5] there. *)
Lemma warmup_linear_past_total_witness :
  le 1 1.5 ∧ lt 0.1 1 ∧
  lr_this_step 5e-5 1.5 0.1 = -2.5e-5 ∧
  warmup_linear 1.5 0.1 = 1 - 1.5 ∧ le (1 - 1.5) 0 ∧
  (lt 1 1.5 → lt (1 - 1.5) 0) ∧
  ∀ learning_rate,
    lr_this_step learning_rate 1.5 0.1 = learning_rate * (1 - 1.5) ∧
    (lt 0 learning_rate → lt learning_rate infinity →
       le (lr_this_step learning_rate 1.5 0.1) 0 ∧
       (lt 1 1.5 →
          lt (lr_this_step learning_rate 1.5 0.1) 0 ∨
          lr_this_step learning_rate 1.5 0.1 = neg_zero)).
Proof.
  split; [reflexivity|]. split; [reflexivity|]. split; [reflexivity|].
  apply (warmup_linear_past_total 1.5 0.1); reflexivity.
Defined.
End warmup.
(** ** The perturbation engine *)

Section fgm_facts.
Context {tensor : Type} `{!TorchTensor tensor}.
Implicit Types (ps : list (string * Param tensor)) (bk : gmap string tensor).
Implicit Types (p : Param tensor) (self : FGM tensor).

Lemma bind_Ok {A B} (r : result A) (k : A → result B) b :
  r ≫= k = Ok b ↔ ∃ a, r = Ok a ∧ k a = Ok b.
Proof.
  destruct r as [a|e]; cbn; split.
  - eauto.
  - by intros (a'&[= <-]&?).
  - done.
  - by intros (?&?&?).
Qed.

Lemma targeted_set_data emb_name name t p :
  targeted emb_name name (set_data t p) = targeted emb_name name p.
Proof. done. Qed.

Lemma set_data_data p : set_data (data p) p = p.
Proof. by destruct p. Qed.

Lemma set_data_set_data t t' p : set_data t (set_data t' p) = set_data t p.
Proof. done. Qed.

Lemma attack_param_Ok epsilon emb_name bk name p p' bk' :
  attack_param epsilon emb_name bk name p = Ok (p', bk') →
  attacked epsilon emb_name (name, p) (name, p') ∧
  bk' = if targeted emb_name name p then <[name := data p]> bk else bk.
Proof.
  unfold attack_param, attacked. cbn [fst snd].
  destruct (targeted emb_name name p); [|by intros [= <- <-]].
  destruct (grad p) as [g|]; [|done].
  destruct (usable_norm (torch_norm g)) eqn:E; intros [= <- <-];
    (split; [split; [done|exists g; by rewrite E]|done]).
Qed.

Lemma attack_loop_Ok epsilon emb_name ps bk ps' bk' :
  attack_loop epsilon emb_name ps bk = Ok (ps', bk') →
  Forall2 (attacked epsilon emb_name) ps ps'.
Proof.
  revert bk ps' bk'. induction ps as [|[name p] ps IH]; intros bk ps' bk'; cbn.
  - by intros [= <- <-].
  - intros ([p1 bk1]&H1&H2)%bind_Ok. cbn in H2.
    apply bind_Ok in H2 as ([ps2 bk2]&H2&[= <- <-]).
    apply attack_param_Ok in H1 as [H1 _]. constructor; eauto.
Qed.

(** The backup after [attack]: the snapshot of the last targeted parameter
    of that name, or the entry the backup already had. *)
Lemma attack_loop_backup epsilon emb_name ps bk ps' bk' name :
  attack_loop epsilon emb_name ps bk = Ok (ps', bk') →
  bk' !! name =
    match last (filter (λ np, np.1 = name ∧ targeted emb_name np.1 np.2) ps) with
    | Some np => Some (data np.2)
    | None => bk !! name
    end.
Proof.
  revert bk ps' bk'. induction ps as [|[name0 p] ps IH]; intros bk ps' bk'; cbn [attack_loop].
  - by intros [= <- <-].
  - intros ([p1 bk1]&H1&H2)%bind_Ok. cbn in H2.
    apply bind_Ok in H2 as ([ps2 bk2]&H2&[= <- <-]).
    apply attack_param_Ok in H1 as [_ ->].
    rewrite (IH _ _ _ H2). rewrite filter_cons. cbn [fst snd].
    case_decide as Hd.
    + destruct Hd as [-> Ht%Is_true_true]. rewrite Ht.
      rewrite last_cons. destruct (last _); [done|]. cbn.
      by rewrite lookup_insert_eq.
    + destruct (last _); [done|].
      destruct (targeted emb_name name0 p) eqn:Ht; [|done].
      rewrite lookup_insert_ne; [done|]. intros Heq. apply Hd.
      split; [done | by apply Is_true_true].
Qed.

Lemma attack_loop_total epsilon emb_name ps bk :
  (∀ name p, (name, p) ∈ ps → targeted emb_name name p → is_Some (grad p)) →
  ∃ ps' bk', attack_loop epsilon emb_name ps bk = Ok (ps', bk').
Proof.
  revert bk. induction ps as [|[name p] ps IH]; intros bk Hg; cbn [attack_loop].
  - eauto.
  - assert (∃ p1 bk1, attack_param epsilon emb_name bk name p = Ok (p1, bk1))
      as (p1&bk1&->).
    { unfold attack_param. destruct (targeted emb_name name p) eqn:Ht; [|eauto].
      destruct (Hg name p) as [g ->]; [left | by rewrite Ht |].
      destruct (usable_norm _); eauto. }
    cbn. destruct (IH bk1) as (ps'&bk'&->).
    { intros n q Hin. apply Hg. by right. }
    cbn. eauto.
Qed.

Lemma restore_loop_Ok emb_name bk ps ps' :
  restore_loop emb_name bk ps = Ok ps' → Forall2 (restored emb_name bk) ps ps'.
Proof.
  revert ps'. induction ps as [|[name p] ps IH]; intros ps'; cbn [restore_loop].
  - by intros [= <-].
  - intros (p1&H1&H2)%bind_Ok. apply bind_Ok in H2 as (ps2&H2&[= <-]).
    constructor; [|by apply IH]. split; [done|]. cbn [fst snd].
    unfold restore_param in H1. destruct (targeted emb_name name p).
    + destruct (bk !! name) as [t|]; [|done]. injection H1 as <-. eauto.
    + by injection H1 as <-.
Qed.

Lemma restore_loop_total emb_name bk ps :
  (∀ name p, (name, p) ∈ ps → targeted emb_name name p → is_Some (bk !! name)) →
  ∃ ps', restore_loop emb_name bk ps = Ok ps'.
Proof.
  induction ps as [|[name p] ps IH]; intros Hb; cbn [restore_loop].
  - eauto.
  - assert (∃ p1, restore_param emb_name bk name p = Ok p1) as [p1 ->].
    { unfold restore_param. destruct (targeted emb_name name p) eqn:Ht; [|eauto].
      destruct (Hb name p) as [t ->]; [left | by rewrite Ht | eauto]. }
    cbn. destruct IH as [ps' ->]; [|cbn; eauto].
    intros n q Hin. apply Hb. by right.
Qed.

Lemma attacked_targeted epsilon emb_name np np' :
  attacked epsilon emb_name np np' →
  targeted emb_name np'.1 np'.2 = targeted emb_name np.1 np.2.
Proof.
  intros [-> H]. destruct (targeted emb_name np.1 np.2) eqn:Ht.
  - destruct H as (g&_&->). by destruct (usable_norm _).
  - by rewrite H.
Qed.

(** Every targeted parameter has a snapshot once [attack] has returned,
    whatever its gradient norm was. *)
Lemma attack_loop_snapshots epsilon emb_name ps bk ps' bk' name p' :
  attack_loop epsilon emb_name ps bk = Ok (ps', bk') →
  (name, p') ∈ ps' → targeted emb_name name p' → is_Some (bk' !! name).
Proof.
  intros Hloop Hin Ht. rewrite (attack_loop_backup _ _ _ _ _ _ name Hloop).
  apply attack_loop_Ok in Hloop.
  apply list_elem_of_lookup in Hin as [i Hi].
  destruct (Forall2_lookup_r _ _ _ _ _ Hloop Hi) as ([n p]&Hp&Hatt).
  pose proof (attacked_targeted _ _ _ _ Hatt) as Heq. destruct Hatt as [Hn _].
  cbn in Hn, Heq. subst n.
  assert (Hf : (name, p) ∈ filter (λ np : string * Param tensor,
             np.1 = name ∧ targeted emb_name np.1 np.2) ps).
  { apply list_elem_of_filter. split; [|by eapply list_elem_of_lookup_2].
    cbn. split; [done|]. by rewrite <- Heq. }
  destruct (last _) as [np|] eqn:El; [done|].
  apply last_None in El. rewrite El in Hf. by apply elem_of_nil in Hf.
Qed.

Lemma filter_absent_name emb_name ps name :
  name ∉ ps.*1 →
  filter (λ np : string * Param tensor,
    np.1 = name ∧ targeted emb_name np.1 np.2) ps = [].
Proof.
  induction ps as [|[n q] ps IH]; [done|]. cbn [fmap list_fmap fst].
  intros [Hne Hn]%not_elem_of_cons. rewrite filter_cons. cbn [fst snd].
  rewrite decide_False; [by apply IH|]. by intros [-> _].
Qed.

Lemma filter_unique_name emb_name ps name p :
  NoDup ps.*1 → (name, p) ∈ ps → targeted emb_name name p →
  filter (λ np : string * Param tensor,
    np.1 = name ∧ targeted emb_name np.1 np.2) ps = [(name, p)].
Proof.
  intros Hnd Hin Ht. induction ps as [|[n q] ps IH]; [by apply elem_of_nil in Hin|].
  cbn in Hnd. apply NoDup_cons in Hnd as [Hn Hnd].
  rewrite filter_cons. cbn [fst snd].
  apply elem_of_cons in Hin as [[= <- <-]|Hin].
  - rewrite decide_True by done. f_equal. by apply filter_absent_name.
  - rewrite decide_False; [by apply IH|].
    intros [-> _]. apply Hn. apply list_elem_of_fmap. by exists (name, p).
Qed.

Lemma Forall2_round_trip {A B} (R : A → B → Prop) (S : B → A → Prop)
    (l : list A) (l' : list B) (l'' : list A) :
  Forall2 R l l' → Forall2 S l' l'' →
  (∀ a b c, a ∈ l → R a b → S b c → c = a) → l'' = l.
Proof.
  intros HR. revert l''. induction HR as [|a b l l' Hab HR IH]; intros l'' HS Heq.
  - by inversion HS.
  - inversion HS as [|? c ? l2 Hbc HS']; subst. f_equal.
    + eapply Heq; [left|done..].
    + apply IH; [done|]. intros a' b' c' Hin. apply Heq. by right.
Qed.

(** [attack] then [restore] is the identity on the parameters as soon as
    every targeted parameter has a gradient and names are not repeated. *)
Lemma attack_restore_id epsilon emb_name self :
  NoDup (named_parameters self).*1 →
  (∀ name p, (name, p) ∈ named_parameters self →
     targeted emb_name name p → is_Some (grad p)) →
  ∃ self' self'',
    attack epsilon emb_name self = Ok self' ∧
    restore emb_name self' = Ok self'' ∧
    named_parameters self'' = named_parameters self ∧
    backup self'' = ∅.
Proof.
  intros Hnd Hg. destruct self as [ps bk]. cbn in Hnd, Hg.
  destruct (attack_loop_total epsilon emb_name ps bk Hg) as (ps'&bk'&Hatt).
  destruct (restore_loop_total emb_name bk' ps') as [ps'' Hres].
  { intros name p'. by eapply attack_loop_snapshots. }
  exists {| named_parameters := ps'; backup := bk' |},
    {| named_parameters := ps''; backup := ∅ |}.
  unfold attack, restore. cbn [named_parameters backup].
  rewrite Hatt. cbn. rewrite Hres. cbn. split_and!; try done.
  eapply Forall2_round_trip;
    [by eapply attack_loop_Ok | by eapply restore_loop_Ok |].
  intros [n p] [n' p'] [n'' p''] Hin Hatt1 Hres1.
  pose proof (attacked_targeted _ _ _ _ Hatt1) as Ht.
  destruct Hatt1 as [Hn1 Hp1], Hres1 as [Hn2 Hp2]. cbn [fst snd] in *.
  subst n' n''. f_equal. rewrite Ht in Hp2.
  destruct (targeted emb_name n p) eqn:Htg; [|congruence].
  destruct Hp2 as (t&Hbk&->).
  rewrite (attack_loop_backup _ _ _ _ _ _ n Hatt) in Hbk.
  rewrite (filter_unique_name emb_name ps n p) in Hbk; [|done..|by rewrite Htg].
  cbn in Hbk. injection Hbk as <-.
  destruct Hp1 as (g&_&->). destruct (usable_norm _); [|apply set_data_data].
  rewrite set_data_set_data. apply set_data_data.
Qed.

(** C2.  When every targeted parameter has a gradient whose norm is
    neither zero nor NaN, [attack] returns, the [restore] that follows
    returns, every targeted parameter has its value of before the attack
    (all parameters are as before), and the backup is empty.
    [named_parameters()] never yields a name twice. *)
Theorem attack_restore_round_trip epsilon emb_name self :
  NoDup (named_parameters self).*1 →
  (∀ name p, (name, p) ∈ named_parameters self → targeted emb_name name p →
     ∃ g, grad p = Some g ∧
       (torch_norm g =? 0)%float = false ∧ is_nan (torch_norm g) = false) →
  ∃ self' self'',
    attack epsilon emb_name self = Ok self' ∧
    restore emb_name self' = Ok self'' ∧
    (∀ i name p, named_parameters self !! i = Some (name, p) →
       targeted emb_name name p →
       ∃ p'', named_parameters self'' !! i = Some (name, p'') ∧ data p'' = data p) ∧
    named_parameters self'' = named_parameters self ∧
    backup self'' = ∅.
Proof.
  intros Hnd Hg.
  destruct (attack_restore_id epsilon emb_name self Hnd) as (self'&self''&Ha&Hr&Hps&Hbk).
  { intros name p Hin Ht. destruct (Hg name p Hin Ht) as (g&->&_). eauto. }
  exists self', self''. split_and!; try done.
  intros i name p Hi _. exists p. by rewrite Hps.
Qed.

(** C9.  Once [attack] has returned, every targeted parameter has a
    snapshot in the backup, whatever the norm of its gradient, so the
    [restore] that follows with the same filter returns: its assertion
    cannot fail. *)
Theorem restore_after_attack_never_asserts epsilon emb_name self self' :
  attack epsilon emb_name self = Ok self' →
  (∀ name p, (name, p) ∈ named_parameters self' → targeted emb_name name p →
     is_Some (backup self' !! name)) ∧
  ∃ self'', restore emb_name self' = Ok self''.
Proof.
  destruct self as [ps bk]. unfold attack. cbn [named_parameters backup].
  intros ([ps' bk']&Hloop&[= <-])%bind_Ok. cbn [named_parameters backup].
  assert (Hsnap : ∀ name p, (name, p) ∈ ps' → targeted emb_name name p →
            is_Some (bk' !! name)).
  { intros name p. by eapply attack_loop_snapshots. }
  split; [done|].
  destruct (restore_loop_total emb_name bk' ps' Hsnap) as [ps'' Hres].
  unfold restore. cbn [named_parameters backup]. rewrite Hres. cbn. eauto.
Qed.

(** C1, amended.  A targeted parameter whose gradient norm is zero or NaN
    keeps its value through [attack], and the backup does hold an entry
    for its name afterwards: the snapshot is taken before the norm is
    looked at. *)
Theorem attack_skip_keeps_value_and_snapshots epsilon emb_name self self' i name p g :
  named_parameters self !! i = Some (name, p) →
  targeted emb_name name p →
  grad p = Some g →
  (torch_norm g =? 0)%float = true ∨ is_nan (torch_norm g) = true →
  attack epsilon emb_name self = Ok self' →
  named_parameters self' !! i = Some (name, p) ∧
  is_Some (backup self' !! name).
Proof.
  intros Hi Ht Hg Hnorm. destruct self as [ps bk]. unfold attack.
  cbn [named_parameters backup] in *.
  intros ([ps' bk']&Hloop&[= <-])%bind_Ok. cbn [named_parameters backup].
  pose proof (attack_loop_Ok _ _ _ _ _ _ Hloop) as HF.
  destruct (Forall2_lookup_l _ _ _ _ _ HF Hi) as ([n p']&Hi'&[Hn Hp]).
  cbn [fst snd] in Hn, Hp. subst n.
  assert (p' = p) as ->.
  { apply Is_true_true in Ht. rewrite Ht in Hp. destruct Hp as (g'&Hg'&->).
    rewrite Hg in Hg'. injection Hg' as <-.
    unfold usable_norm. by destruct Hnorm as [-> | ->]; rewrite ?andb_false_r. }
  split; [done|].
  eapply attack_loop_snapshots; [done| |done].
  by eapply list_elem_of_lookup_2.
Qed.
End fgm_facts.

(** C1 as stated fails: a targeted parameter with a zero gradient keeps
    its value but is in the backup after [attack]. *)
Lemma attack_skip_counterexample :
  let self := FGM_init [(word_embeddings, frozen_grad_param)] in
  targeted emb_name_default word_embeddings frozen_grad_param = true ∧
  (torch_norm [0.0; 0.0]%float =? 0)%float = true ∧
  ∃ self', attack epsilon_default emb_name_default self = Ok self' ∧
    named_parameters self' = [(word_embeddings, frozen_grad_param)] ∧
    backup self' !! word_embeddings = Some [1.0; 2.0]%float ∧
    backup self' !! word_embeddings ≠ None.
Proof.
  cbv zeta. split; [reflexivity|]. split; [reflexivity|].
  eexists. split; [reflexivity|]. split; [reflexivity|].
  split; [vm_compute; reflexivity | vm_compute; discriminate].
Qed.

(** Two parameters, one targeted with gradient norm [5]. *)
Lemma attack_restore_round_trip_witness :
  ∃ self' self'',
    attack epsilon_default emb_name_default two_params = Ok self' ∧
    restore emb_name_default self' = Ok self'' ∧
    (∀ i name p, named_parameters two_params !! i = Some (name, p) →
       targeted emb_name_default name p →
       ∃ p'', named_parameters self'' !! i = Some (name, p'') ∧ data p'' = data p) ∧
    named_parameters self'' = named_parameters two_params ∧
    backup self'' = ∅.
Proof.
  apply (attack_restore_round_trip epsilon_default emb_name_default two_params).
  - apply (bool_decide_unpack _). vm_compute. exact I.
  - intros name p Hin Ht.
    apply elem_of_cons in Hin as [Heq | Hin].
    + injection Heq as -> ->. exists [3.0; 4.0]%float.
      split; [reflexivity | split; reflexivity].
    + apply list_elem_of_singleton in Hin. injection Hin as -> ->.
      vm_compute in Ht. destruct Ht.
Defined.

(** A targeted parameter with a zero gradient. *)
Lemma restore_after_attack_never_asserts_witness :
  attack epsilon_default emb_name_default
    (FGM_init [(word_embeddings, frozen_grad_param)]) = Ok frozen_after_attack ∧
  (∀ name p, (name, p) ∈ named_parameters frozen_after_attack →
     targeted emb_name_default name p →
     is_Some (backup frozen_after_attack !! name)) ∧
  ∃ self'', restore emb_name_default frozen_after_attack = Ok self''.
Proof.
  split; [reflexivity|].
  apply (restore_after_attack_never_asserts epsilon_default emb_name_default
           (FGM_init [(word_embeddings, frozen_grad_param)])).
  reflexivity.
Defined.

(** The same parameter: unchanged, and snapshotted. *)
Lemma attack_skip_keeps_value_and_snapshots_witness :
  named_parameters frozen_after_attack !! 0 = Some (word_embeddings, frozen_grad_param) ∧
  is_Some (backup frozen_after_attack !! word_embeddings).
Proof.
  apply (attack_skip_keeps_value_and_snapshots epsilon_default emb_name_default
           (FGM_init [(word_embeddings, frozen_grad_param)]) frozen_after_attack
           0 word_embeddings frozen_grad_param [0.0; 0.0]%float).
  - reflexivity.
  - vm_compute. exact I.
  - reflexivity.
  - left. reflexivity.
  - reflexivity.
Defined.

(** ** Python's stable sort *)

Lemma before_split {A} (x y : A) (l : list A) :
  before x y l ↔ ∃ l1 l2 l3, l = l1 ++ x :: l2 ++ y :: l3.
Proof.
  induction l as [|z l IH]; cbn.
  - split; [done|]. intros (l1&l2&l3&Heq). by destruct l1.
  - rewrite IH. split.
    + intros [[Hz Hy]|(l1&l2&l3&Hl)].
      * apply list_elem_of_split in Hy as (l2&l3&Hl). exists [], l2, l3.
        cbn. by rewrite Hz, Hl.
      * exists (z :: l1), l2, l3. cbn. by rewrite Hl.
    + intros (l1&l2&l3&Heq). destruct l1 as [|z' l1]; cbn in Heq.
      * injection Heq as Hz Hl. left. split; [done|]. rewrite Hl.
        apply elem_of_app. right. left.
      * injection Heq as Hz Hl. right. by exists l1, l2, l3.
Qed.

Lemma before_elem_of_r {A} (x y : A) (l : list A) : before x y l → y ∈ l.
Proof.
  induction l as [|z l IH]; cbn; [done|]. intros [[_ Hy]|H]; set_solver.
Qed.

Section sorted_facts.
Context {A : Type} (key_lt : A → A → bool).
Implicit Types (x y : A) (l : list A).

Lemma insert_rev_Permutation x l : insert_rev key_lt x l ≡ₚ x :: l.
Proof.
  induction l as [|y l IH]; cbn; [done|].
  destruct (key_lt x y); [|done]. rewrite IH. apply Permutation_swap.
Qed.

Lemma sorted_rev_Permutation l : sorted_rev key_lt l ≡ₚ l.
Proof.
  induction l as [|x l IH]; cbn; [done|].
  fold (sorted_rev key_lt l). by rewrite insert_rev_Permutation, IH.
Qed.

Lemma sorted_rev_length l : length (sorted_rev key_lt l) = length l.
Proof. by rewrite sorted_rev_Permutation. Qed.

(** Stability: inserting keeps the order of the elements already there,
    and the new element stays in front of every one it is not smaller than. *)
Lemma before_insert_rev a x y l :
  before x y l → before x y (insert_rev key_lt a l).
Proof.
  induction l as [|z l IH]; cbn; [done|].
  intros H. destruct (key_lt a z); cbn; [|by right].
  destruct H as [[-> Hy]|H]; [left|right; by apply IH].
  split; [done|]. rewrite insert_rev_Permutation. by right.
Qed.

Lemma insert_rev_before x y l :
  y ∈ l → key_lt x y = false → before x y (insert_rev key_lt x l).
Proof.
  induction l as [|z l IH]; cbn; [by intros ?%elem_of_nil|].
  intros Hy Hxy. destruct (key_lt x z) eqn:Hxz; cbn; [|by left].
  right. apply IH; [|done]. apply elem_of_cons in Hy as [->|Hy]; [congruence|done].
Qed.

Lemma sorted_rev_stable x y l :
  before x y l → key_lt x y = false → before x y (sorted_rev key_lt l).
Proof.
  induction l as [|z l IH]; cbn; [done|]. fold (sorted_rev key_lt l).
  intros [[-> Hy]|H] Hxy.
  - apply insert_rev_before; [|done]. by rewrite sorted_rev_Permutation.
  - by apply before_insert_rev, IH.
Qed.

(** The leftmost greatest element comes first. *)
Lemma sorted_rev_head l1 x l2 :
  Forall (λ z, key_lt z x = true) l1 →
  Forall (λ z, key_lt x z = false) l2 →
  ∃ t, sorted_rev key_lt (l1 ++ x :: l2) = x :: t.
Proof.
  intros H1 H2. induction H1 as [|z l1 Hz H1 IH]; cbn.
  - fold (sorted_rev key_lt l2).
    destruct (sorted_rev key_lt l2) as [|y t] eqn:E; cbn; [eauto|].
    assert (Hy : y ∈ l2) by (rewrite <- (sorted_rev_Permutation l2), E; left).
    rewrite Forall_forall in H2. rewrite (H2 y Hy). eauto.
  - fold (sorted_rev key_lt (l1 ++ x :: l2)). destruct IH as [t ->]. cbn.
    rewrite Hz. eauto.
Qed.

(** The result is in descending order as soon as [<] behaves as a strict
    weak order on the keys that occur. *)
Section descending.
Context (ok : A → Prop).
Context (Hasym : ∀ a b, ok a → ok b → key_lt a b = true → key_lt b a = false).
Context (Htrans : ∀ a b c, ok a → ok b → ok c →
  key_lt a b = false → key_lt b c = false → key_lt a c = false).

Lemma insert_rev_descending x l :
  ok x → Forall ok l →
  StronglySorted (λ a b, key_lt a b = false) l →
  StronglySorted (λ a b, key_lt a b = false) (insert_rev key_lt x l).
Proof using Hasym Htrans.
  intros Hx Hl Hs. induction Hs as [|y l Hs IH Hy]; cbn.
  - repeat constructor.
  - apply Forall_cons in Hl as [Hoky Hl].
    destruct (key_lt x y) eqn:Hxy.
    + constructor; [by apply IH|].
      rewrite insert_rev_Permutation. constructor; [by apply Hasym|done].
    + constructor; [by constructor|]. constructor; [done|].
      rewrite Forall_forall in Hy, Hl |- *. intros z Hz.
      eapply (Htrans x y z); eauto.
Qed.

Lemma sorted_rev_descending l :
  Forall ok l → StronglySorted (λ a b, key_lt a b = false) (sorted_rev key_lt l).
Proof using Hasym Htrans.
  induction 1 as [|x l Hx Hl IH]; cbn; [constructor|].
  fold (sorted_rev key_lt l). apply insert_rev_descending; [done| |done].
  by rewrite sorted_rev_Permutation.
Qed.
End descending.

End sorted_facts.

(** ** The confidence ranker *)

Section ranker_facts.
Implicit Types (id2conf : list (Z * float)) (label2id : gmap Z (list (nat * float))).
Implicit Types (pool : list ref) (ids : list nat).

(** *** The first loop: grouping by predicted label *)

Lemma dict_set_fresh i c (d : list (nat * float)) :
  Forall (λ kv, kv.1 < i) d → dict_set i c d = d ++ [(i, c)].
Proof.
  induction 1 as [|[j c'] d Hj _ IH]; cbn; [done|]. cbn in Hj.
  rewrite decide_False by lia. by rewrite IH.
Qed.

Lemma candidates_lookup i id2conf lab j c :
  (j, c) ∈ candidates i id2conf lab ↔
  i ≤ j ∧ id2conf !! (j - i) = Some (lab, c).
Proof.
  revert i. induction id2conf as [|[lb c0] rest IH]; intros i; cbn.
  - split; [by intros ?%elem_of_nil | by intros [_ ?]].
  - destruct (decide (j = i)) as [->|Hne].
    + rewrite Nat.sub_diag. cbn. case_decide as Hd; subst.
      * rewrite elem_of_cons, IH. split.
        -- intros [[= <-]|[? _]]; [done|lia].
        -- intros [_ [= <-]]. by left.
      * rewrite IH. split; [lia|]. intros [_ [= <- <-]]. done.
    + assert (Hlk : ((lb, c0) :: rest) !! (j - i) = rest !! (j - S i) ∨ j < i).
      { destruct (decide (j < i)); [by right|left].
        replace (j - i) with (S (j - S i)) by lia. done. }
      case_decide as Hd; subst.
      * rewrite elem_of_cons, IH. split.
        -- intros [[= ? ?]|[? Hr]]; [lia|]. split; [lia|].
           destruct Hlk as [->|?]; [done|lia].
        -- intros [? Hr]. right. split; [lia|].
           destruct Hlk as [<-|?]; [done|lia].
      * rewrite IH. split.
        -- intros [? Hr]. split; [lia|]. destruct Hlk as [->|?]; [done|lia].
        -- intros [? Hr]. split; [lia|]. destruct Hlk as [<-|?]; [done|lia].
Qed.

Lemma candidates_bound i id2conf lab :
  Forall (λ kv, i ≤ kv.1 < i + length id2conf) (candidates i id2conf lab).
Proof.
  apply Forall_forall. intros [j c] [Hle Hlk]%candidates_lookup.
  apply lookup_lt_Some in Hlk. cbn. lia.
Qed.

Lemma candidates_NoDup i id2conf lab : NoDup (candidates i id2conf lab).*1.
Proof.
  revert i. induction id2conf as [|[lb c0] rest IH]; intros i; cbn; [constructor|].
  case_decide; [|apply IH]. cbn. constructor; [|apply IH].
  intros ([j c]&Heq&Hin)%list_elem_of_fmap. cbn in Heq. subst j.
  apply candidates_lookup in Hin. lia.
Qed.

Lemma group_loop_lookup i id2conf label2id lab :
  (∀ lb d, label2id !! lb = Some d → Forall (λ kv, kv.1 < i) d) →
  group_loop i id2conf label2id !! lab =
    match label2id !! lab, candidates i id2conf lab with
    | Some d, cs => Some (d ++ cs)
    | None, [] => None
    | None, cs => Some cs
    end.
Proof.
  revert i label2id. induction id2conf as [|[lb c0] rest IH]; intros i m Hm; cbn.
  - destruct (m !! lab); by rewrite ?app_nil_r.
  - rewrite IH; clear IH.
    + unfold group_step. cbn [fst snd]. case_decide as Hd.
      * subst lb. rewrite lookup_insert_eq.
        destruct (m !! lab) as [d|] eqn:E; cbn.
        -- rewrite (dict_set_fresh _ _ _ (Hm _ _ E)). by rewrite <- app_assoc.
        -- done.
      * by rewrite lookup_insert_ne.
    + intros lb' d. unfold group_step. cbn [fst snd].
      destruct (decide (lb = lb')) as [->|Hne].
      * rewrite lookup_insert_eq. intros [= <-].
        assert (Hd : Forall (λ kv : nat * float, kv.1 < i) (default [] (m !! lb'))).
        { destruct (m !! lb') as [d|] eqn:E; cbn; [by eapply Hm|constructor]. }
        rewrite (dict_set_fresh _ _ _ Hd). apply Forall_app. split.
        -- eapply Forall_impl; [exact Hd|]. cbn. lia.
        -- repeat constructor.
      * rewrite lookup_insert_ne by done. intros E.
        eapply Forall_impl; [by eapply Hm|]. cbn. lia.
Qed.

Lemma group_loop_spec id2conf lab :
  group_loop 0 id2conf ∅ !! lab =
    match candidates 0 id2conf lab with
    | [] => None
    | cs => Some cs
    end.
Proof.
  rewrite group_loop_lookup; [by rewrite lookup_empty|].
  intros lb d. by rewrite lookup_empty.
Qed.

(** *** The indices selected for one class and for all classes *)

Lemma slice_to_take {A} (l : list A) k : ∃ n, slice_to l k = take n l.
Proof. unfold slice_to. destruct (k <? 0)%Z; eauto. Qed.

Lemma slice_to_nonneg {A} (l : list A) k :
  (0 ≤ k)%Z → slice_to l k = take (Z.to_nat k) l.
Proof. unfold slice_to. intros Hk. by rewrite (proj2 (Z.ltb_ge k 0) Hk). Qed.

Lemma selected_sorted id2conf num_k i :
  ∃ n, selected id2conf num_k i =
    take n (sorted_rev conf_lt (candidates 0 id2conf (Z.of_nat i))).*1.
Proof.
  unfold selected.
  destruct (slice_to_take (sorted_rev conf_lt (candidates 0 id2conf (Z.of_nat i))) num_k)
    as [n ->].
  exists n. by rewrite fmap_take.
Qed.

Lemma elem_of_selected id2conf num_k i j :
  j ∈ selected id2conf num_k i →
  ∃ c, id2conf !! j = Some (Z.of_nat i, c).
Proof.
  destruct (selected_sorted id2conf num_k i) as [n ->].
  intros Hj%subseteq_take.
  apply list_elem_of_fmap in Hj as ([j' c]&->&Hin). cbn.
  rewrite sorted_rev_Permutation in Hin.
  apply candidates_lookup in Hin as [_ Hlk]. rewrite Nat.sub_0_r in Hlk. eauto.
Qed.

Lemma selected_NoDup id2conf num_k i : NoDup (selected id2conf num_k i).
Proof.
  destruct (selected_sorted id2conf num_k i) as [n ->].
  eapply sublist_NoDup; [|apply sublist_take].
  rewrite sorted_rev_Permutation. apply candidates_NoDup.
Qed.

Lemma selected_length id2conf num_k i :
  (0 ≤ num_k)%Z →
  length (selected id2conf num_k i) =
    Z.to_nat num_k `min` length (candidates 0 id2conf (Z.of_nat i)).
Proof.
  intros Hk. unfold selected.
  by rewrite slice_to_nonneg, length_fmap, length_take, sorted_rev_length.
Qed.

Lemma selected_no_candidates id2conf num_k i :
  candidates 0 id2conf (Z.of_nat i) = [] → selected id2conf num_k i = [].
Proof.
  intros E. unfold selected. rewrite E. cbn.
  destruct (slice_to_take (@nil (nat * float)) num_k) as [n ->]. by rewrite take_nil.
Qed.

Lemma promoted_S id2conf num_k n :
  promoted id2conf num_k (S n) =
    promoted id2conf num_k n ++ selected id2conf num_k n.
Proof.
  unfold promoted. rewrite seq_S, bind_app. cbn. by rewrite app_nil_r.
Qed.

Lemma elem_of_promoted id2conf num_k n j :
  j ∈ promoted id2conf num_k n ↔ ∃ i, i < n ∧ j ∈ selected id2conf num_k i.
Proof.
  unfold promoted. rewrite list_elem_of_bind. split.
  - intros (i&Hj&Hi%elem_of_seq). exists i. split; [lia|done].
  - intros (i&Hi&Hj). exists i. split; [done|]. apply elem_of_seq. lia.
Qed.

Lemma promoted_bound id2conf num_k n :
  Forall (λ j, j < length id2conf) (promoted id2conf num_k n).
Proof.
  apply Forall_forall. intros j (i&_&Hj)%elem_of_promoted.
  apply elem_of_selected in Hj as [c Hlk]. by eapply lookup_lt_Some.
Qed.

Lemma promoted_NoDup id2conf num_k n : NoDup (promoted id2conf num_k n).
Proof.
  induction n as [|n IH]; [constructor|].
  rewrite promoted_S. apply NoDup_app. split_and!; [done| |apply selected_NoDup].
  intros j (i&Hi&Hj)%elem_of_promoted Hn.
  apply elem_of_selected in Hj as [c Hlk], Hn as [c' Hlk'].
  rewrite Hlk in Hlk'. injection Hlk' as Heq _. lia.
Qed.

Lemma promoted_length id2conf num_k n :
  (0 ≤ num_k)%Z →
  length (promoted id2conf num_k n) ≤ Z.to_nat num_k * n.
Proof.
  intros Hk. induction n as [|n IH]; [cbn; lia|].
  rewrite promoted_S, length_app, selected_length by done. lia.
Qed.

(** *** The second loop: promotion *)

Lemma foldM_app {S A} (body : S → A → result S) s (l1 l2 : list A) :
  foldM body s (l1 ++ l2) = foldM body s l1 ≫= λ s', foldM body s' l2.
Proof.
  revert s. induction l1 as [|a l1 IH]; intros s; cbn; [done|].
  destruct (body s a) as [s'|e]; cbn; [apply IH|done].
Qed.

Lemma gather_app pool ids ids' :
  gather pool (ids ++ ids') = gather pool ids ++ gather pool ids'.
Proof. apply omap_app. Qed.

Lemma gather_length pool ids :
  Forall (λ j, j < length pool) ids → length (gather pool ids) = length ids.
Proof.
  induction 1 as [|j ids Hj _ IH]; cbn; [done|].
  destruct (lookup_lt_is_Some_2 pool j Hj) as [ex ->]. cbn.
  fold (gather pool ids). by rewrite IH.
Qed.

Lemma elem_of_gather pool ids ex :
  ex ∈ gather pool ids ↔ ∃ j, j ∈ ids ∧ pool !! j = Some ex.
Proof. unfold gather. by rewrite list_elem_of_omap. Qed.

Lemma relabel_app pool h i js js' :
  relabel pool h i (js ++ js') = relabel pool (relabel pool h i js) i js'.
Proof. unfold relabel. by rewrite gather_app, foldl_app. Qed.

Lemma foldM_promote pool i st (xs : list (nat * float)) :
  Forall (λ kv, kv.1 < length pool) xs →
  foldM (promote pool i) st xs =
    Ok {| id2train := id2train st ++ xs.*1;
          ud_train_examples := ud_train_examples st ++ gather pool xs.*1;
          rank_world :=
            {| heap := relabel pool (heap (rank_world st)) i xs.*1;
               stdout := stdout (rank_world st) |} |}.
Proof.
  intros Hxs. revert st. induction Hxs as [|[j c] xs Hj _ IH]; intros st.
  - cbn. rewrite !app_nil_r. by destruct st as [? ? []].
  - cbn in Hj. destruct (lookup_lt_is_Some_2 pool j Hj) as [ex Hex].
    assert (Hstep : promote pool i st (j, c) =
      Ok {| id2train := id2train st ++ [j];
            ud_train_examples := ud_train_examples st ++ [ex];
            rank_world :=
              {| heap := alter (set_label_id (Z.of_nat i)) ex (heap (rank_world st));
                 stdout := stdout (rank_world st) |} |}).
    { unfold promote. cbn [fst]. by rewrite Hex. }
    change (foldM (promote pool i) st ((j, c) :: xs)) with
      (promote pool i st (j, c) ≫= λ s', foldM (promote pool i) s' xs).
    rewrite Hstep. cbn [mbind result_bind]. rewrite IH.
    cbn [id2train ud_train_examples rank_world heap stdout].
    unfold relabel, gather. cbn [fmap list_fmap fst omap list_omap].
    rewrite Hex. cbn [foldl]. by rewrite <- !app_assoc.
Qed.

(** [promote] raises exactly when an index is outside the pool. *)
Lemma foldM_promote_inv pool i st st' (xs : list (nat * float)) :
  foldM (promote pool i) st xs = Ok st' →
  Forall (λ kv, kv.1 < length pool) xs.
Proof.
  revert st. induction xs as [|[j c] xs IH]; intros st; [constructor|].
  cbn [foldM]. intros (st1&Hstep&Hrest)%bind_Ok.
  constructor; [|by eapply IH].
  unfold promote in Hstep. cbn [fst snd] in *.
  destruct (pool !! j) as [ex|] eqn:E; [|done]. by eapply lookup_lt_Some.
Qed.

Lemma selected_in_range id2conf pool num_k i :
  Forall (λ j, j < length pool) (selected id2conf num_k i) ↔
  Forall (λ kv : nat * float, kv.1 < length pool)
    (slice_to (sorted_rev conf_lt (candidates 0 id2conf (Z.of_nat i))) num_k).
Proof. unfold selected. by rewrite Forall_fmap. Qed.

Lemma class_step_spec id2conf pool num_k st i :
  Forall (λ j, j < length pool) (selected id2conf num_k i) →
  class_step (group_loop 0 id2conf ∅) pool num_k st i =
    Ok {| id2train := id2train st ++ selected id2conf num_k i;
          ud_train_examples :=
            ud_train_examples st ++ gather pool (selected id2conf num_k i);
          rank_world :=
            {| heap := relabel pool (heap (rank_world st)) i (selected id2conf num_k i);
               stdout := stdout (rank_world st) ++
                 match candidates 0 id2conf (Z.of_nat i) with
                 | [] => ["no class " +:+ pretty i]
                 | _ => []
                 end |} |}.
Proof.
  intros Hin%selected_in_range. unfold class_step. rewrite group_loop_spec.
  destruct (candidates 0 id2conf (Z.of_nat i)) as [|kv cs] eqn:E.
  - rewrite (selected_no_candidates _ _ _ E). cbn. by rewrite !app_nil_r.
  - rewrite foldM_promote by done. unfold selected. rewrite E. by rewrite app_nil_r.
Qed.

Lemma class_step_inv id2conf pool num_k st st' i :
  class_step (group_loop 0 id2conf ∅) pool num_k st i = Ok st' →
  Forall (λ j, j < length pool) (selected id2conf num_k i).
Proof.
  unfold class_step. rewrite group_loop_spec.
  destruct (candidates 0 id2conf (Z.of_nat i)) as [|kv cs] eqn:E.
  - intros _. rewrite (selected_no_candidates _ _ _ E). constructor.
  - intros H%foldM_promote_inv. apply selected_in_range. by rewrite E.
Qed.

Lemma class_loop_spec id2conf pool num_k st n :
  Forall (λ j, j < length pool) (promoted id2conf num_k n) →
  foldM (class_step (group_loop 0 id2conf ∅) pool num_k) st (seq 0 n) =
    Ok {| id2train := id2train st ++ promoted id2conf num_k n;
          ud_train_examples :=
            ud_train_examples st ++ gather pool (promoted id2conf num_k n);
          rank_world :=
            {| heap := relabel_all pool id2conf num_k (heap (rank_world st)) n;
               stdout := stdout (rank_world st) ++ diagnostics id2conf n |} |}.
Proof.
  induction n as [|n IH].
  - intros _. cbn. rewrite !app_nil_r. by destruct st as [? ? []].
  - rewrite promoted_S. intros [Hn Hs]%Forall_app.
    rewrite gather_app, !app_assoc.
    assert (Hh : ∀ h, relabel_all pool id2conf num_k h (S n) =
      relabel pool (relabel_all pool id2conf num_k h n) n (selected id2conf num_k n)).
    { intros h. unfold relabel_all. by rewrite seq_S, foldl_app. }
    assert (Hd : diagnostics id2conf (S n) = diagnostics id2conf n ++
      match candidates 0 id2conf (Z.of_nat n) with
      | [] => ["no class " +:+ pretty n]
      | _ => []
      end).
    { unfold diagnostics. rewrite seq_S, bind_app. cbn. by rewrite app_nil_r. }
    rewrite Hh, Hd, app_assoc.
    rewrite seq_S, foldM_app, IH by done. cbn [mbind result_bind foldM plus].
    by rewrite class_step_spec.
Qed.

Lemma class_loop_inv id2conf pool num_k st st' n :
  foldM (class_step (group_loop 0 id2conf ∅) pool num_k) st (seq 0 n) = Ok st' →
  Forall (λ j, j < length pool) (promoted id2conf num_k n).
Proof.
  revert st'. induction n as [|n IH]; intros st'; [constructor|].
  rewrite seq_S, foldM_app. intros (st1&H1&H2)%bind_Ok.
  rewrite promoted_S. apply Forall_app. split; [by eapply IH|].
  cbn [foldM plus] in H2. apply bind_Ok in H2 as (st2&H2&_).
  by eapply class_step_inv.
Qed.

(** *** The third loop: deletion in descending index order *)

Lemma remaining_from_none i ids pool :
  (∀ j, i ≤ j → j ∉ ids) → remaining_from i ids pool = pool.
Proof.
  revert i. induction pool as [|x pool IH]; intros i Hi; cbn; [done|].
  rewrite decide_False by (apply Hi; lia). f_equal. apply IH. intros j Hj. apply Hi. lia.
Qed.

Lemma remaining_from_ext i ids ids' pool :
  (∀ j, j ∈ ids ↔ j ∈ ids') →
  remaining_from i ids pool = remaining_from i ids' pool.
Proof.
  intros Heq. revert i. induction pool as [|x pool IH]; intros i; cbn; [done|].
  rewrite IH. destruct (decide (i ∈ ids)) as [Hi|Hi].
  - by rewrite decide_True by by apply Heq.
  - by rewrite decide_False by by rewrite <- Heq.
Qed.

Lemma elem_of_remaining_from i ids pool x :
  x ∈ remaining_from i ids pool ↔ ∃ k, pool !! k = Some x ∧ i + k ∉ ids.
Proof.
  revert i. induction pool as [|y pool IH]; intros i; cbn.
  - split; [by intros ?%elem_of_nil | by intros (k&?&_)].
  - assert (Hshift : (∃ k, pool !! k = Some x ∧ S i + k ∉ ids) ↔
      ∃ k, (y :: pool) !! S k = Some x ∧ i + S k ∉ ids).
    { split; intros (k&Hk&Hn); exists k; (split; [done|]);
        by replace (i + S k) with (S i + k) in * by lia. }
    case_decide as Hd.
    + rewrite IH, Hshift. split.
      * intros (k&?&?). eauto.
      * intros ([|k]&Hk&Hn); [|eauto]. by rewrite Nat.add_0_r in Hn.
    + rewrite elem_of_cons, IH, Hshift. split.
      * intros [->|(k&?&?)]; [|eauto]. exists 0. by rewrite Nat.add_0_r.
      * intros ([|k]&Hk&Hn); [left; by injection Hk|right; eauto].
Qed.

Lemma remaining_from_delete pool i d ids :
  (∀ d', d' ∈ ids → d' < d) → i ≤ d →
  remaining_from i (d :: ids) pool = remaining_from i ids (delete (d - i) pool).
Proof.
  intros Hlt. revert i. induction pool as [|x pool IH]; intros i Hi; [done|].
  destruct (decide (i = d)) as [->|Hne].
  - rewrite Nat.sub_diag. cbn. rewrite decide_True by left.
    rewrite !remaining_from_none; [done| |].
    + intros j Hj Hin%Hlt. lia.
    + intros j Hj [->|Hin%Hlt]%elem_of_cons; lia.
  - replace (d - i) with (S (d - S i)) by lia. cbn.
    rewrite IH by lia.
    destruct (decide (i ∈ ids)) as [Hin|Hin].
    + by rewrite decide_True by by right.
    + rewrite decide_False; [done|]. by intros [?|?]%elem_of_cons.
Qed.

Lemma del_loop_spec (ds : list nat) pool :
  StronglySorted (λ a b, (a <? b) = false) ds → NoDup ds →
  Forall (λ d, d < length pool) ds →
  foldM del_step pool ds = Ok (remaining_from 0 ds pool) ∧
  length (remaining_from 0 ds pool) + length ds = length pool.
Proof.
  intros Hs. revert pool. induction Hs as [|d ds Hs IH Hd]; intros pool Hnd Hb.
  - cbn. by rewrite remaining_from_none, Nat.add_0_r by (intros; apply not_elem_of_nil).
  - apply NoDup_cons in Hnd as [Hd' Hnd]. apply Forall_cons in Hb as [Hdb Hb].
    assert (Hlt : ∀ d', d' ∈ ds → d' < d).
    { intros d' Hin. rewrite Forall_forall in Hd. specialize (Hd d' Hin).
      apply Nat.ltb_ge in Hd. assert (d' ≠ d) by (by intros ->). lia. }
    assert (Hlen : length (delete d pool) = length pool - 1).
    { apply length_delete. by apply lookup_lt_is_Some_2. }
    destruct (IH (delete d pool) Hnd) as [Hfold Hl].
    { apply Forall_forall. intros d' Hin. specialize (Hlt d' Hin). lia. }
    rewrite (remaining_from_delete pool 0 d ds Hlt) by lia. rewrite Nat.sub_0_r.
    split.
    + assert (Hstep : del_step pool d = Ok (delete d pool)).
      { unfold del_step. by rewrite decide_True. }
      cbn [foldM]. rewrite Hstep. exact Hfold.
    + cbn [length]. lia.
Qed.

Lemma sorted_rev_ltb_descending (ids : list nat) :
  StronglySorted (λ a b, (a <? b) = false) (sorted_rev Nat.ltb ids).
Proof.
  apply (sorted_rev_descending Nat.ltb (λ _, True)).
  - intros a b _ _ H%Nat.ltb_lt. apply Nat.ltb_ge. lia.
  - intros a b c _ _ _ H1%Nat.ltb_ge H2%Nat.ltb_ge. apply Nat.ltb_ge. lia.
  - by apply Forall_true.
Qed.

(** *** The whole call *)

Lemma sort_Ok w train pool (label_list : list string) id2conf num_k :
  let ids := promoted id2conf num_k (length label_list) in
  Forall (λ j, j < length pool) ids →
  sort w train pool label_list id2conf num_k =
    Ok ({| heap := relabel_all pool id2conf num_k (heap w) (length label_list);
           stdout := stdout w ++ diagnostics id2conf (length label_list) |},
        (train ++ gather pool ids, remaining_from 0 ids pool)) ∧
  length (remaining_from 0 ids pool) + length ids = length pool.
Proof.
  intros ids Hin. unfold sort. rewrite class_loop_spec by done.
  cbn [mbind result_bind id2train ud_train_examples rank_world heap stdout app].
  fold ids.
  destruct (del_loop_spec (sorted_rev Nat.ltb ids) pool) as [Hfold Hl].
  - apply sorted_rev_ltb_descending.
  - rewrite sorted_rev_Permutation. apply promoted_NoDup.
  - by rewrite sorted_rev_Permutation.
  - rewrite sorted_rev_length in Hl.
    rewrite (remaining_from_ext 0 _ ids) in Hfold, Hl
      by (intros j; by rewrite sorted_rev_Permutation).
    rewrite Hfold. done.
Qed.

(** [sort] returns exactly when every promoted index is inside the pool. *)
Lemma sort_Ok_inv w train pool (label_list : list string) id2conf num_k r :
  sort w train pool label_list id2conf num_k = Ok r →
  Forall (λ j, j < length pool) (promoted id2conf num_k (length label_list)).
Proof.
  unfold sort. intros (st&Hloop&_)%bind_Ok. by eapply class_loop_inv.
Qed.

(** One record per example of the pool, or fewer, is enough. *)
Lemma promoted_in_range id2conf pool num_k n :
  length id2conf ≤ length pool →
  Forall (λ j, j < length pool) (promoted id2conf num_k n).
Proof.
  intros Hlen. eapply Forall_impl; [apply promoted_bound|]. cbn. lia.
Qed.

End ranker_facts.

Section ranker_claims.
Implicit Types (id2conf : list (Z * float)) (pool train : list ref) (w : world).
Implicit Types (label_list : list string).

Lemma candidates_length i id2conf lab :
  length (candidates i id2conf lab) =
    length (filter (λ item : Z * float, item.1 = lab) id2conf).
Proof.
  revert i. induction id2conf as [|item rest IH]; intros i; [done|].
  cbn [candidates]. rewrite filter_cons. case_decide; cbn [length]; by rewrite IH.
Qed.

Lemma candidates_nil i id2conf lab :
  candidates i id2conf lab = [] ↔ ∀ item, item ∈ id2conf → item.1 ≠ lab.
Proof.
  revert i. induction id2conf as [|item rest IH]; intros i; cbn.
  - split; [|done]. by intros _ ? ?%elem_of_nil.
  - case_decide as Hd.
    + split; [done|]. intros H. destruct (H item); [left|done].
    + rewrite IH. split.
      * intros H it [->|Hin]%elem_of_cons; auto.
      * intros H it Hin. apply H. by right.
Qed.

Lemma elem_of_diagnostics id2conf n i :
  ("no class " +:+ pretty i) ∈ diagnostics id2conf n ↔
  i < n ∧ ∀ item, item ∈ id2conf → item.1 ≠ Z.of_nat i.
Proof.
  unfold diagnostics. rewrite list_elem_of_bind. split.
  - intros (i'&Hin&Hi'%elem_of_seq).
    destruct (candidates 0 id2conf (Z.of_nat i')) eqn:E; [|by apply elem_of_nil in Hin].
    apply list_elem_of_singleton in Hin.
    apply (inj (String.app "no class ")) in Hin. apply (inj pretty) in Hin. subst i'.
    split; [lia|]. by apply (candidates_nil 0).
  - intros [Hi Hnone]. exists i. split; [|apply elem_of_seq; lia].
    apply (candidates_nil 0) in Hnone. rewrite Hnone. by left.
Qed.

(** The two size facts, on the result that [sort_Ok] gives. *)
Lemma sort_sizes train pool label_list id2conf num_k :
  length id2conf = length pool →
  (0 ≤ num_k)%Z →
  let ids := promoted id2conf num_k (length label_list) in
  length (train ++ gather pool ids) + length (remaining_from 0 ids pool)
    = length train + length pool ∧
  (Z.of_nat (length (train ++ gather pool ids)) - Z.of_nat (length train)
     ≤ num_k * Z.of_nat (length label_list))%Z.
Proof.
  intros Hlen Hk ids.
  destruct (sort_Ok (Build_world ∅ []) train pool label_list id2conf num_k)
    as [_ Hl]; [apply promoted_in_range; lia|].
  fold ids in Hl.
  pose proof (promoted_bound id2conf num_k (length label_list)) as Hb.
  pose proof (promoted_length id2conf num_k (length label_list) Hk) as Hp.
  fold ids in Hb, Hp.
  rewrite length_app, gather_length
    by (eapply Forall_impl; [exact Hb|]; cbn; lia).
  split; [lia|]. nia.
Qed.

(** C3.  With one confidence record per unlabeled example and [K >= 0],
    [sort] returns, the two pools together are as large as before, and the
    labeled pool grows by at most [K] times the size of the label
    vocabulary. *)
Theorem sort_pool_sizes w train pool label_list id2conf num_k :
  length id2conf = length pool →
  (0 ≤ num_k)%Z →
  ∃ w' train' pool',
    sort w train pool label_list id2conf num_k = Ok (w', (train', pool')) ∧
    length train' + length pool' = length train + length pool ∧
    (Z.of_nat (length train') - Z.of_nat (length train)
       ≤ num_k * Z.of_nat (length label_list))%Z.
Proof.
  intros Hlen Hk.
  destruct (sort_Ok w train pool label_list id2conf num_k) as [Hs _];
    [apply promoted_in_range; lia|].
  eexists _, _, _. split; [exact Hs|].
  by apply sort_sizes.
Qed.

(** *** Ties *)

Lemma candidates_increasing i id2conf lab :
  StronglySorted (λ kv kv' : nat * float, kv.1 < kv'.1) (candidates i id2conf lab).
Proof.
  revert i. induction id2conf as [|item rest IH]; intros i; cbn; [constructor|].
  case_decide; [|apply IH]. constructor; [apply IH|].
  eapply Forall_impl; [apply candidates_bound|]. cbn. lia.
Qed.

Lemma candidates_before i id2conf lab a b (s s' : float) :
  a < b →
  (a, s) ∈ candidates i id2conf lab → (b, s') ∈ candidates i id2conf lab →
  before (a, s) (b, s') (candidates i id2conf lab).
Proof.
  intros Hab Ha Hb. pose proof (candidates_increasing i id2conf lab) as Hs.
  apply list_elem_of_split in Hb as (l1&l2&Heq). rewrite Heq in Ha, Hs |- *.
  apply StronglySorted_app in Hs as (Hcross&_&Hs2).
  apply StronglySorted_cons in Hs2 as [Hs2 _].
  apply elem_of_app in Ha as [Ha|[Ha|Ha]%elem_of_cons].
  - apply list_elem_of_split in Ha as (l1a&l1b&->).
    apply before_split. exists l1a, l1b, l2. by rewrite <- app_assoc.
  - injection Ha as -> _. lia.
  - rewrite Forall_forall in Hs2. specialize (Hs2 _ Ha). cbn in Hs2. lia.
Qed.

Lemma before_take {A} (x y : A) l n :
  NoDup l → before x y l → y ∈ take n l → x ∈ take n l.
Proof.
  revert n. induction l as [|z l IH]; intros n Hnd; cbn; [done|].
  apply NoDup_cons in Hnd as [Hz Hnd].
  destruct n as [|n]; cbn; [by intros _ ?%elem_of_nil|].
  intros [[-> _]|Hb] Hy; [left|]. right.
  apply elem_of_cons in Hy as [->|Hy]; [|by eapply IH].
  by apply before_elem_of_r in Hb.
Qed.

Lemma StronglySorted_impl_on {A} (ok : A → Prop) (R R' : A → A → Prop) l :
  (∀ a b, ok a → ok b → R a b → R' a b) →
  Forall ok l → StronglySorted R l → StronglySorted R' l.
Proof.
  intros HR Hok Hs. induction Hs as [|x l Hs IH Hx]; [constructor|].
  apply Forall_cons in Hok as [Hokx Hok]. constructor; [by apply IH|].
  rewrite Forall_forall in Hx, Hok |- *. intros y Hy. apply HR; auto.
Qed.

Lemma conf_lt_false_le (kv kv' : nat * float) :
  ¬ PyFloat.nan kv.2 → ¬ PyFloat.nan kv'.2 →
  conf_lt kv kv' = false → PyFloat.le kv'.2 kv.2.
Proof.
  intros H1 H2 Hlt. apply float_not_lt_le; [done..|].
  unfold PyFloat.lt. unfold conf_lt in Hlt. congruence.
Qed.

(** The sorted candidates of a class whose scores are numbers are in
    descending order of score. *)
Lemma sorted_candidates_descending id2conf lab :
  (∀ k conf, id2conf !! k = Some (lab, conf) → ¬ PyFloat.nan conf) →
  StronglySorted (λ kv kv' : nat * float, PyFloat.le kv'.2 kv.2)
    (sorted_rev conf_lt (candidates 0 id2conf lab)).
Proof.
  intros Hnum.
  assert (Hok : Forall (λ kv : nat * float, ¬ PyFloat.nan kv.2)
                  (candidates 0 id2conf lab)).
  { apply Forall_forall. intros [k conf] [_ Hk]%candidates_lookup.
    rewrite Nat.sub_0_r in Hk. cbn. eauto. }
  eapply (StronglySorted_impl_on (λ kv : nat * float, ¬ PyFloat.nan kv.2)).
  - intros a b Ha Hb. by apply conf_lt_false_le.
  - by rewrite sorted_rev_Permutation.
  - apply (sorted_rev_descending conf_lt (λ kv : nat * float, ¬ PyFloat.nan kv.2));
      [| |done].
    + intros a b Ha Hb Hab. unfold conf_lt in *.
      destruct (b.2 <? a.2)%float eqn:E; [|done].
      exfalso. eapply float_le_not_lt; [apply float_lt_le; exact E|exact Hab].
    + intros a b c' Ha Hb Hc Hab Hbc. unfold conf_lt in *.
      destruct (a.2 <? c'.2)%float eqn:E; [|done]. exfalso.
      eapply (float_le_not_lt c'.2 a.2); [|exact E].
      apply (float_le_trans _ b.2); [by apply (conf_lt_false_le b c')|by apply (conf_lt_false_le a b)].
Qed.

Lemma elem_of_sorted_candidates id2conf lab k conf :
  (k, conf) ∈ sorted_rev conf_lt (candidates 0 id2conf lab) ↔
  id2conf !! k = Some (lab, conf).
Proof.
  rewrite sorted_rev_Permutation, candidates_lookup, Nat.sub_0_r.
  split; [by intros [_ ?]|]. split; [lia|done].
Qed.

Lemma sorted_candidates_NoDup id2conf lab :
  NoDup (sorted_rev conf_lt (candidates 0 id2conf lab)).
Proof.
  rewrite sorted_rev_Permutation. eapply NoDup_fmap_1, candidates_NoDup.
Qed.

(** What [K = 1] does with two tied records, inside [selected]. *)
Lemma selected_tie id2conf c i j s :
  (∀ k conf, id2conf !! k = Some (Z.of_nat c, conf) → ¬ PyFloat.nan conf) →
  i < j →
  id2conf !! i = Some (Z.of_nat c, s) →
  id2conf !! j = Some (Z.of_nat c, s) →
  let sorted_i2cs := sorted_rev conf_lt (candidates 0 id2conf (Z.of_nat c)) in
  (∀ a b sa sb, a < b → (a, sa) ∈ sorted_i2cs → (b, sb) ∈ sorted_i2cs →
     ¬ PyFloat.lt sa sb → before (a, sa) (b, sb) sorted_i2cs) ∧
  before (i, s) (j, s) sorted_i2cs ∧
  (∀ num_k, j ∈ selected id2conf num_k c → i ∈ selected id2conf num_k c) ∧
  (j ∉ selected id2conf 1 c) ∧
  ((∀ k conf, id2conf !! k = Some (Z.of_nat c, conf) →
      PyFloat.le conf s ∧ (k < i → PyFloat.lt conf s)) →
   selected id2conf 1 c = [i]).
Proof.
  intros Hnum Hij Hi Hj sorted_i2cs.
  assert (Hstable : ∀ a b sa sb, a < b →
    (a, sa) ∈ sorted_i2cs → (b, sb) ∈ sorted_i2cs →
    ¬ PyFloat.lt sa sb → before (a, sa) (b, sb) sorted_i2cs).
  { intros a b sa sb Hab Ha Hb Hlt. apply sorted_rev_stable.
    - apply candidates_before; [done|by rewrite <- sorted_rev_Permutation..].
    - unfold conf_lt. cbn. unfold PyFloat.lt in Hlt. by destruct (sa <? sb)%float. }
  assert (Hbefore : before (i, s) (j, s) sorted_i2cs).
  { apply Hstable; [done|by apply elem_of_sorted_candidates..|].
    apply float_le_not_lt, float_le_refl. eauto. }
  assert (Hsel : ∀ num_k, j ∈ selected id2conf num_k c → i ∈ selected id2conf num_k c).
  { intros num_k. destruct (selected_sorted id2conf num_k c) as [n ->].
    fold sorted_i2cs. rewrite <- !fmap_take.
    intros ([j' sj]&Heq&Hin)%list_elem_of_fmap. cbn in Heq. subst j'.
    assert (sj = s) as ->.
    { apply subseteq_take, elem_of_sorted_candidates in Hin. congruence. }
    apply list_elem_of_fmap. exists (i, s). split; [done|].
    eapply before_take; [apply sorted_candidates_NoDup|done..]. }
  split_and!; try done.
  - intros Hjs. pose proof (Hsel 1%Z Hjs) as His.
    pose proof (selected_length id2conf 1 c ltac:(lia)) as Hlen.
    destruct (selected id2conf 1 c) as [|x [|y l]]; cbn in Hlen; [| |lia].
    + by apply elem_of_nil in Hjs.
    + apply list_elem_of_singleton in Hjs, His. lia.
  - intros Htop.
    assert (Hin : (i, s) ∈ candidates 0 id2conf (Z.of_nat c)).
    { apply candidates_lookup. split; [lia|by rewrite Nat.sub_0_r]. }
    pose proof (candidates_increasing 0 id2conf (Z.of_nat c)) as Hinc.
    pose proof (λ k conf, proj1 (candidates_lookup 0 id2conf (Z.of_nat c) k conf)) as Hlk.
    apply list_elem_of_split in Hin as (l1&l2&Heq). rewrite Heq in Hinc, Hlk.
    apply StronglySorted_app in Hinc as (Hcross&_&_).
    destruct (sorted_rev_head conf_lt l1 (i, s) l2) as [t Ht].
    + apply Forall_forall. intros [k conf] Hk. unfold conf_lt. cbn.
      destruct (Hlk k conf) as [_ Hk'].
      { apply elem_of_app. by left. }
      rewrite Nat.sub_0_r in Hk'. apply (Htop k conf Hk').
      apply (Hcross (k, conf) (i, s)); [done|left].
    + apply Forall_forall. intros [k conf] Hk. unfold conf_lt. cbn.
      destruct (Hlk k conf) as [_ Hk'].
      { apply elem_of_app. right. by right. }
      rewrite Nat.sub_0_r in Hk'.
      destruct (s <? conf)%float eqn:E; [|done].
      exfalso. eapply float_le_not_lt; [apply (Htop k conf Hk')|exact E].
    + unfold selected. rewrite Heq, Ht. done.
Qed.

(** C4, amended.  Let records [i < j] predict the same class [c] with the same
    score, the scores of that class being numbers.  The sorted candidates
    of [c] are in descending order of score, and a candidate stays in
    front of every later candidate whose score is not greater: so [i]
    comes before [j], and [j] is never selected without [i].  With
    [K = 1], [j] is not selected, and [i] is when it is the first record
    of the class with the highest score; a call of [sort] with [K = 1]
    then leaves the example at [j] in the unlabeled pool and appends the
    example at [i] to the labeled pool. *)
Theorem sort_tie_break id2conf c i j s :
  (∀ k conf, id2conf !! k = Some (Z.of_nat c, conf) → ¬ PyFloat.nan conf) →
  i < j →
  id2conf !! i = Some (Z.of_nat c, s) →
  id2conf !! j = Some (Z.of_nat c, s) →
  let sorted_i2cs := sorted_rev conf_lt (candidates 0 id2conf (Z.of_nat c)) in
  let highest_first :=
    ∀ k conf, id2conf !! k = Some (Z.of_nat c, conf) →
      PyFloat.le conf s ∧ (k < i → PyFloat.lt conf s) in
  StronglySorted (λ kv kv' : nat * float, PyFloat.le kv'.2 kv.2) sorted_i2cs ∧
  (∀ a b sa sb, a < b → (a, sa) ∈ sorted_i2cs → (b, sb) ∈ sorted_i2cs →
     ¬ PyFloat.lt sa sb → before (a, sa) (b, sb) sorted_i2cs) ∧
  before (i, s) (j, s) sorted_i2cs ∧
  (∀ num_k, j ∈ selected id2conf num_k c → i ∈ selected id2conf num_k c) ∧
  (j ∉ selected id2conf 1 c) ∧
  (highest_first → selected id2conf 1 c = [i]) ∧
  ∀ w train pool label_list w' train' pool',
    sort w train pool label_list id2conf 1 = Ok (w', (train', pool')) →
    (∀ ex, pool !! j = Some ex → ex ∈ pool') ∧
    (highest_first → c < length label_list →
     ∀ ex, pool !! i = Some ex → ex ∈ train').
Proof.
  intros Hnum Hij Hi Hj sorted_i2cs highest_first.
  destruct (selected_tie id2conf c i j s Hnum Hij Hi Hj)
    as (Hstable&Hbefore&Hsel&Hnot&Htop).
  split_and!; try done.
  - by apply sorted_candidates_descending.
  - intros w train pool label_list w' train' pool' Hret.
    destruct (sort_Ok w train pool label_list id2conf 1) as [Hs _];
      [by eapply sort_Ok_inv|].
    rewrite Hs in Hret. injection Hret as <- <- <-. split.
    + intros ex Hex. apply elem_of_remaining_from. exists j. split; [done|].
      cbn. intros (c'&_&Hc')%elem_of_promoted.
      pose proof Hc' as [conf Hlk]%elem_of_selected.
      rewrite Hj in Hlk. injection Hlk as Hcc _.
      apply Nat2Z.inj in Hcc. subst c'. by apply Hnot.
    + intros Hhigh Hc ex Hex. apply elem_of_app. right.
      apply elem_of_gather. exists i. split; [|done].
      apply elem_of_promoted. exists c. split; [done|].
      rewrite (Htop Hhigh). left.
Qed.
End ranker_claims.

(** *** Runs of [sort] *)

(** Five unlabeled examples, four classes, [K = 1]. *)
Lemma sort_pool_sizes_witness :
  ∃ w' train' pool',
    sort scenario_world scenario_train scenario_pool scenario_labels
      scenario_records 1 = Ok (w', (train', pool')) ∧
    length train' + length pool' = length scenario_train + length scenario_pool ∧
    (Z.of_nat (length train') - Z.of_nat (length scenario_train)
       ≤ 1 * Z.of_nat (length scenario_labels))%Z.
Proof.
  apply (sort_pool_sizes scenario_world scenario_train scenario_pool
           scenario_labels scenario_records 1); [reflexivity | lia].
Defined.

(** The same call, evaluated. *)
Example sort_scenario :
  ∃ w', sort scenario_world scenario_train scenario_pool scenario_labels
          scenario_records 1 = Ok (w', ([100; 101; 10; 14; 13], [11; 12])) ∧
        stdout w' = ["no class 2"] ∧
        label_id <$> heap w' !! 10 = Some 0%Z ∧
        label_id <$> heap w' !! 14 = Some 1%Z ∧
        label_id <$> heap w' !! 13 = Some 3%Z.
Proof. eexists. split; [vm_compute; reflexivity|]. vm_compute. done. Qed.

(** C7 as stated fails: the pools [[]] and [[10; 10]] share nothing, and
    object [10] is in both pools that [sort] returns. *)
Lemma sort_disjoint_counterexample :
  (∀ ex, ex ∈ @nil ref → ex ∉ twice_pool) ∧
  ∃ w', sort scenario_world [] twice_pool scenario_labels twice_records 1
          = Ok (w', ([10], [10])) ∧
        10 ∈ [10] ∧ ¬ (10 ∉ [10]).
Proof.
  split; [by intros ex ?%elem_of_nil|].
  eexists. split; [vm_compute; reflexivity|].
  split; [left|]. intros H. apply H. left.
Qed.

(** Records [0] and [1] tie at [0.91] for class [0]. *)
Lemma sort_tie_break_witness :
  let sorted_i2cs := sorted_rev conf_lt (candidates 0 scenario_records 0%Z) in
  let highest_first :=
    ∀ k conf, scenario_records !! k = Some (0%Z, conf) →
      PyFloat.le conf 0.91 ∧ (k < 0 → PyFloat.lt conf 0.91) in
  StronglySorted (λ kv kv' : nat * float, PyFloat.le kv'.2 kv.2) sorted_i2cs ∧
  (∀ a b sa sb, a < b → (a, sa) ∈ sorted_i2cs → (b, sb) ∈ sorted_i2cs →
     ¬ PyFloat.lt sa sb → before (a, sa) (b, sb) sorted_i2cs) ∧
  before (0, 0.91%float) (1, 0.91%float) sorted_i2cs ∧
  (∀ num_k, 1 ∈ selected scenario_records num_k 0 →
            0 ∈ selected scenario_records num_k 0) ∧
  (1 ∉ selected scenario_records 1 0) ∧
  (highest_first → selected scenario_records 1 0 = [0]) ∧
  ∀ w train pool label_list w' train' pool',
    sort w train pool label_list scenario_records 1 = Ok (w', (train', pool')) →
    (∀ ex, pool !! 1 = Some ex → ex ∈ pool') ∧
    (highest_first → 0 < length label_list →
     ∀ ex, pool !! 0 = Some ex → ex ∈ train').
Proof.
  apply (sort_tie_break scenario_records 0 0 1 0.91%float).
  - intros k conf Hk. unfold scenario_records in Hk.
    do 5 (destruct k as [|k]; [cbn in Hk; first [discriminate Hk|
      injection Hk as <-; unfold PyFloat.nan; vm_compute; discriminate]|]).
    discriminate Hk.
  - lia.
  - reflexivity.
  - reflexivity.
Defined.

(** C4 as stated fails: the records [0] and [1] are tied for class [0],
    and with [K = 1] the example that [sort] moves is the one at index
    [2], whose score is higher; the example at the lower tied index
    stays in the unlabeled pool. *)
Lemma sort_tie_break_counterexample :
  tie_below_top !! 0 = Some (0%Z, 0.91%float) ∧
  tie_below_top !! 1 = Some (0%Z, 0.91%float) ∧
  ∃ w', sort scenario_world [] [10; 11; 12] scenario_labels tie_below_top 1
          = Ok (w', ([12], [10; 11])) ∧
        10 ∈ [10; 11] ∧ ¬ (10 ∈ [12]).
Proof.
  split; [reflexivity|]. split; [reflexivity|].
  eexists. split; [vm_compute; reflexivity|].
  split; [left|]. intros [= ]%list_elem_of_singleton.
Qed.
(** ** The best-accuracy watermark *)

Section watermark_facts.
Context {state_dict : Type}.
Implicit Types (st : train_state state_dict) (ep : epoch_result state_dict).
Implicit Types (epochs : list (epoch_result state_dict)).
Implicit Types (rounds : list (list (epoch_result state_dict))).

Lemma epoch_end_cases st ep :
  (PyFloat.lt (best_acc st) (eval_accuracy ep) ∧
   epoch_end st ep =
     {| best_acc := eval_accuracy ep; output_model_file := Some (model_state ep) |}) ∨
  (¬ PyFloat.lt (best_acc st) (eval_accuracy ep) ∧ epoch_end st ep = st).
Proof.
  unfold epoch_end, PyFloat.lt.
  destruct (best_acc st <? eval_accuracy ep)%float; [by left|right].
  split; [congruence|done].
Qed.

Lemma epoch_end_le st ep :
  ¬ PyFloat.nan (best_acc st) →
  PyFloat.le (best_acc st) (best_acc (epoch_end st ep)) ∧
  ¬ PyFloat.nan (best_acc (epoch_end st ep)).
Proof.
  intros Hn. destruct (epoch_end_cases st ep) as [[Hlt ->]|[_ ->]]; cbn.
  - split; [by apply float_lt_le|by eapply float_lt_not_nan_r].
  - split; [by apply float_le_refl|done].
Qed.

Lemma train_le st epochs :
  ¬ PyFloat.nan (best_acc st) →
  PyFloat.le (best_acc st) (best_acc (train st epochs)) ∧
  ¬ PyFloat.nan (best_acc (train st epochs)).
Proof.
  revert st. induction epochs as [|ep epochs IH]; intros st Hn; cbn.
  - split; [by apply float_le_refl|done].
  - destruct (epoch_end_le st ep Hn) as [Hle Hn'].
    destruct (IH _ Hn') as [Hle' Hn'']. split; [|done].
    by eapply float_le_trans.
Qed.

Lemma watermarks_sorted st epochs :
  ¬ PyFloat.nan (best_acc st) →
  Sorted PyFloat.le (best_acc st :: watermarks st epochs).
Proof.
  revert st. induction epochs as [|ep epochs IH]; intros st Hn; cbn.
  - repeat constructor.
  - destruct (epoch_end_le st ep Hn) as [Hle Hn'].
    constructor; [by apply IH|]. by constructor.
Qed.

Lemma train_app st epochs epochs' :
  train st (epochs ++ epochs') = train (train st epochs) epochs'.
Proof. apply fold_left_app. Qed.

(** Round after round: the state a call of [train] is given is the one
    the previous call left. *)
Lemma run_rounds_threaded st rounds k a b c d :
  run_rounds st rounds !! k = Some (a, b) →
  run_rounds st rounds !! S k = Some (c, d) → c = b.
Proof.
  revert st k. induction rounds as [|epochs rounds IH]; intros st k; [done|].
  destruct k as [|k]; cbn.
  - intros [= <- <-]. destruct rounds; cbn; [done|]. by intros [= <- _].
  - apply IH.
Qed.

Lemma run_rounds_spec st rounds k a b :
  run_rounds st rounds !! k = Some (a, b) →
  ∃ epochs, rounds !! k = Some epochs ∧
    a = train st (concat (take k rounds)) ∧ b = train a epochs.
Proof.
  revert st k. induction rounds as [|epochs rounds IH]; intros st k; [done|].
  destruct k as [|k]; cbn.
  - intros [= <- <-]. eauto.
  - intros H. destruct (IH _ _ H) as (eps&?&->&->). exists eps.
    split_and!; [done| |done]. symmetry. apply (train_app st epochs).
Qed.

Lemma run_rounds_le st rounds :
  ¬ PyFloat.nan (best_acc st) →
  Forall (λ call, PyFloat.le (best_acc call.1) (best_acc call.2))
    (run_rounds st rounds).
Proof.
  revert st. induction rounds as [|epochs rounds IH]; intros st Hn; cbn; [constructor|].
  destruct (train_le st epochs Hn) as [Hle Hn']. constructor; [done|by apply IH].
Qed.

Lemma zero_not_nan : ¬ PyFloat.nan 0.
Proof. unfold PyFloat.nan. vm_compute. discriminate. Qed.

(** C6.  At the end of an epoch the watermark is raised and the
    checkpoint written exactly when the accuracy exceeds the watermark,
    and nothing changes otherwise.  In a run of [main], every call of
    [train] leaves a watermark that is at least the one it was given, the
    first call is given [0], each later call is given the state the
    previous call left, the watermarks after the epochs of the whole run
    are in non-decreasing order, and the state after round [k] is the
    one reached by the epochs of the rounds [0 .. k] from the initial
    state. *)
Theorem watermark_monotone (file : option state_dict) rounds :
  let calls := main_rounds file rounds in
  (∀ st ep,
     (PyFloat.lt (best_acc st) (eval_accuracy ep) ∧
      epoch_end st ep =
        {| best_acc := eval_accuracy ep;
           output_model_file := Some (model_state ep) |}) ∨
     (¬ PyFloat.lt (best_acc st) (eval_accuracy ep) ∧ epoch_end st ep = st)) ∧
  Forall (λ call, PyFloat.le (best_acc call.1) (best_acc call.2)) calls ∧
  (∀ a b, calls !! 0 = Some (a, b) → best_acc a = 0%float) ∧
  (∀ k a b c d, calls !! k = Some (a, b) → calls !! S k = Some (c, d) → c = b) ∧
  Sorted PyFloat.le
    (0%float :: watermarks {| best_acc := 0; output_model_file := file |}
                  (concat rounds)) ∧
  (∀ k a b, calls !! k = Some (a, b) →
     b = train {| best_acc := 0; output_model_file := file |}
           (concat (take (S k) rounds))).
Proof.
  intros calls. split_and!.
  - apply epoch_end_cases.
  - apply run_rounds_le, zero_not_nan.
  - unfold calls, main_rounds. destruct rounds; [done|]. cbn. by intros a b [= <- _].
  - apply run_rounds_threaded.
  - apply (watermarks_sorted {| best_acc := 0; output_model_file := file |}), zero_not_nan.
  - intros k a b Hk. destruct (run_rounds_spec _ _ _ _ _ Hk) as (eps&Hr&->&->).
    rewrite <- train_app. f_equal.
    rewrite (take_S_r _ _ _ Hr), concat_app. cbn. by rewrite app_nil_r.
Qed.
End watermark_facts.

(** Three rounds. *)
Example watermark_run :
  let ep acc := {| eval_accuracy := acc; model_state := acc |} in
  main_rounds None [[ep 0.5; ep 0.4]; [ep 0.45; ep 0.6]; [ep 0.6]]%float
  = [({| best_acc := 0; output_model_file := None |},
      {| best_acc := 0.5; output_model_file := Some 0.5 |});
     ({| best_acc := 0.5; output_model_file := Some 0.5 |},
      {| best_acc := 0.6; output_model_file := Some 0.6 |});
     ({| best_acc := 0.6; output_model_file := Some 0.6 |},
      {| best_acc := 0.6; output_model_file := Some 0.6 |})]%float.
Proof. reflexivity. Qed.

(** ** The definitions on concrete inputs *)

Example is_substring_runs :
  is_substring emb_name_default word_embeddings = true ∧
  is_substring emb_name_default classifier_bias = false ∧
  is_substring "" "" = true ∧
  is_substring "ab" "cabd" = true ∧
  is_substring "abc" "ab" = false.
Proof. repeat split. Qed.

Example usable_norm_runs :
  usable_norm 0 = false ∧ usable_norm (-0.0) = false ∧
  usable_norm nan = false ∧ usable_norm 5 = true.
Proof. repeat split. Qed.

(** [attack] displaces [[1; 2]] by [[3; 4] / 5] and keeps a copy; a
    parameter outside the filter is not looked at, even without gradient. *)
Example attack_runs :
  attack epsilon_default emb_name_default two_params =
    Ok {| named_parameters :=
            [(word_embeddings,
              set_data [1.6000000000000001; 2.7999999999999998]%float live_grad_param);
             (classifier_bias, head_param)];
          backup := {[ word_embeddings := [1.0; 2.0]%float ]} |}.
Proof. reflexivity. Qed.

(** A targeted parameter without gradient, and [restore] without [attack]. *)
Example attack_without_grad :
  attack epsilon_default emb_name_default
    (FGM_init [(word_embeddings, head_param)]) = Raise AttributeError.
Proof. reflexivity. Qed.

Example restore_without_attack :
  restore emb_name_default (FGM_init [(word_embeddings, live_grad_param)])
  = Raise AssertionError.
Proof. reflexivity. Qed.

Example slice_to_runs :
  slice_to [1; 2; 3] 2 = [1; 2] ∧ slice_to [1; 2; 3] 5 = [1; 2; 3] ∧
  slice_to [1; 2; 3] 0 = [] ∧ slice_to [1; 2; 3] (-1) = [1; 2] ∧
  slice_to [1; 2; 3] (-5) = [].
Proof. repeat split. Qed.

Example sorted_rev_runs :
  sorted_rev conf_lt
    [(0, 0.5%float); (1, 0.7%float); (2, 0.5%float); (3, 0.9%float); (4, 0.7%float)]
  = [(3, 0.9%float); (1, 0.7%float); (4, 0.7%float); (0, 0.5%float); (2, 0.5%float)] ∧
  sorted_rev Nat.ltb [3; 0; 4; 1] = [4; 3; 1; 0].
Proof. split; reflexivity. Qed.

Example group_loop_runs :
  group_loop 0 scenario_records ∅ !! 1%Z = Some [(2, 0.5%float); (4, 0.6%float)] ∧
  group_loop 0 scenario_records ∅ !! 2%Z = None.
Proof. split; reflexivity. Qed.

(** More records than examples: the lookup in the pool raises. *)
Example sort_index_error :
  sort scenario_world [] [10] scenario_labels twice_records 5 = Raise IndexError.
Proof. reflexivity. Qed.

(** ** Cutting a pair of token lists *)

Section truncate_facts.
Implicit Types (a b : list string) (m : Z).

(** One round of the loop, as the equations of the definition. *)
Lemma truncate_fits a b m :
  (Z.of_nat (length a + length b) ≤ m)%Z → _truncate_seq_pair a b m = Ok (a, b).
Proof.
  intros Hle. rewrite _truncate_seq_pair_equation_1.
  by destruct (decide _).
Qed.

Lemma truncate_pop_a a b m :
  ¬ (Z.of_nat (length a + length b) ≤ m)%Z → length b < length a →
  _truncate_seq_pair a b m = _truncate_seq_pair (take (length a - 1) a) b m.
Proof.
  intros Hn Hlt. rewrite _truncate_seq_pair_equation_1.
  destruct (decide _) as [|?]; [done|]. cbn.
  destruct (decide _) as [?|]; [|done]. cbn.
  destruct a as [|t a]; [cbn in Hlt; lia|]. cbn [length].
  by replace (S (length a) - 1) with (length a) by lia.
Qed.

Lemma truncate_pop_b a b m :
  ¬ (Z.of_nat (length a + length b) ≤ m)%Z → ¬ length b < length a → b ≠ [] →
  _truncate_seq_pair a b m = _truncate_seq_pair a (take (length b - 1) b) m.
Proof.
  intros Hn Hlt Hb. rewrite _truncate_seq_pair_equation_1.
  destruct (decide _) as [|?]; [done|]. cbn.
  destruct (decide _) as [|?]; [done|]. cbn.
  destruct b as [|t b]; [done|]. cbn [length].
  by replace (S (length b) - 1) with (length b) by lia.
Qed.

Lemma truncate_pop_empty m :
  (m < 0)%Z → _truncate_seq_pair [] [] m = Raise IndexError.
Proof.
  intros Hn. rewrite _truncate_seq_pair_equation_1.
  destruct (decide _) as [Hle|?]; [cbn in Hle; lia|]. cbn.
  by destruct (decide _) as [Hlt|?]; [cbn in Hlt; lia|].
Qed.

(** The loop on its measure: what it returns when [max_length] is not
    negative. *)
Lemma truncate_spec n a b m :
  length a + length b = n → (0 ≤ m)%Z →
  ∃ a' b', _truncate_seq_pair a b m = Ok (a', b') ∧
    a' `prefix_of` a ∧ b' `prefix_of` b ∧
    Z.of_nat (length a' + length b') = Z.min (Z.of_nat (length a + length b)) m ∧
    (length a' = length a ∨ length b' ≤ length a') ∧
    (length b' = length b ∨ length a' ≤ length b' + 1).
Proof.
  revert a b. induction (lt_wf n) as [n _ IH]. intros a b Hn Hm.
  destruct (decide (Z.of_nat (length a + length b) ≤ m)%Z) as [Hfit|Hfit].
  { exists a, b. rewrite truncate_fits by done. split_and!; try done; [lia|by left..]. }
  destruct (decide (length b < length a)) as [Hlt|Hlt].
  - rewrite truncate_pop_a by done.
    destruct (IH (length (take (length a - 1) a) + length b)) with
      (a := take (length a - 1) a) (b := b) as (a'&b'&Heq&Ha&Hb&Hlen&Hba&Hbb);
      [rewrite length_take; lia|done|done|].
    rewrite length_take in Hlen, Hba.
    exists a', b'. split_and!; try done.
    + etrans; [done|]. apply prefix_take.
    + lia.
    + apply prefix_length in Hb. destruct Hba as [Hba|Hba]; [right; lia|by right].
  - assert (b ≠ []) by (intros ->; cbn in *; lia).
    assert (0 < length b) by (destruct b; [done|cbn; lia]).
    rewrite truncate_pop_b by done.
    destruct (IH (length a + length (take (length b - 1) b))) with
      (a := a) (b := take (length b - 1) b) as (a'&b'&Heq&Ha&Hb&Hlen&Hba&Hbb);
      [rewrite length_take; lia|done|done|].
    rewrite length_take in Hlen, Hbb.
    exists a', b'. split_and!; try done.
    + etrans; [done|]. apply prefix_take.
    + lia.
    + apply prefix_length in Ha. destruct Hbb as [Hbb|Hbb]; [right; lia|by right].
Qed.

Lemma truncate_negative n a b m :
  length a + length b = n → (m < 0)%Z →
  _truncate_seq_pair a b m = Raise IndexError.
Proof.
  revert a b. induction (lt_wf n) as [n _ IH]. intros a b Hn Hm.
  assert (Hfit : ¬ (Z.of_nat (length a + length b) ≤ m)%Z) by lia.
  destruct (decide (length b < length a)) as [Hlt|Hlt].
  - rewrite truncate_pop_a by done.
    apply (IH (length (take (length a - 1) a) + length b));
      [rewrite length_take; lia|done|done].
  - destruct b as [|t b].
    + destruct a; [by apply truncate_pop_empty|cbn in Hlt; lia].
    + rewrite truncate_pop_b by done.
      apply (IH (length a + length (take (length (t :: b) - 1) (t :: b))));
        [rewrite length_take; cbn [length] in *; lia|done|done].
Qed.
End truncate_facts.

Section truncate_claims.
Implicit Types (a b : list string) (m : Z).

Lemma prefix_of_take {A} (l1 l2 : list A) : l1 `prefix_of` l2 → l1 = take (length l1) l2.
Proof. intros [k ->]. by rewrite take_app_length. Qed.

(** X1. For a [max_length] that is not negative [_truncate_seq_pair]
    leaves the first [ka] tokens of [tokens_a] and the first [kb] tokens of
    [tokens_b], where [ka] is the length of [tokens_a] capped at the larger
    of half of [max_length] rounded up and what [tokens_b] leaves of
    [max_length], and [kb] is the length of [tokens_b] capped at the larger
    of half of [max_length] rounded down and what [tokens_a] leaves. *)
Theorem truncate_closed_form a b m :
  (0 ≤ m)%Z →
  let M := Z.to_nat m in
  _truncate_seq_pair a b m =
    Ok (take (length a `min` (((M + 1) / 2) `max` (M - length b))) a,
        take (length b `min` ((M / 2) `max` (M - length a))) b).
Proof.
  intros Hm M.
  destruct (truncate_spec _ a b m eq_refl Hm) as (a'&b'&->&Ha&Hb&Hlen&Hba&Hab).
  pose proof (prefix_length _ _ Ha) as Hla. pose proof (prefix_length _ _ Hb) as Hlb.
  rewrite (prefix_of_take _ _ Ha) at 1. rewrite (prefix_of_take _ _ Hb) at 1.
  pose proof (Nat.div_mod_eq M 2) as Hd. pose proof (Nat.mod_upper_bound M 2 ltac:(lia)) as Hr.
  pose proof (Nat.div_mod_eq (M + 1) 2) as Hd'.
  pose proof (Nat.mod_upper_bound (M + 1) 2 ltac:(lia)) as Hr'.
  assert (HM : Z.of_nat M = m) by lia.
  do 2 f_equal; f_equal; lia.
Qed.

Lemma truncate_closed_form_witness :
  (0 ≤ 2)%Z ∧ _truncate_seq_pair ["a"; "b"; "c"] ["x"] 2 = Ok (["a"], ["x"]).
Proof. split; [lia|]. apply (truncate_closed_form ["a"; "b"; "c"] ["x"] 2). lia. Defined.

(** X2. [_truncate_seq_pair] raises [IndexError] exactly when
    [max_length] is negative, whatever the two lists are: it pops until
    both are empty and then pops once more. *)
Theorem truncate_raises_iff_negative a b m :
  _truncate_seq_pair a b m = Raise IndexError ↔ (m < 0)%Z.
Proof.
  split; [|apply (truncate_negative _ a b m eq_refl)].
  intros Hr. destruct (decide (m < 0)%Z) as [|Hm]; [done|].
  destruct (truncate_spec _ a b m eq_refl ltac:(lia)) as (a'&b'&Heq&_). congruence.
Qed.
End truncate_claims.
(** * Facts about the encoding of examples *)

Section label_map_facts.
Implicit Types (label_map : gmap string nat) (label_list : list string).

Lemma label_map_from_absent i label_list label_map lab :
  lab ∉ label_list → label_map_from i label_list label_map !! lab = label_map !! lab.
Proof.
  revert i label_map. induction label_list as [|x rest IH]; intros i m Hn; [done|].
  apply not_elem_of_cons in Hn as [Hne Hn]. cbn. rewrite IH by done.
  by rewrite lookup_insert_ne.
Qed.

Lemma label_map_from_last i label_list label_map lab k :
  label_list !! k = Some lab → (∀ j, k < j → label_list !! j ≠ Some lab) →
  label_map_from i label_list label_map !! lab = Some (i + k).
Proof.
  revert i label_map k. induction label_list as [|x rest IH]; intros i m k Hk Hlast; [done|].
  destruct k as [|k]; cbn in Hk |- *.
  - injection Hk as ->. rewrite label_map_from_absent.
    + by rewrite lookup_insert_eq, Nat.add_0_r.
    + intros (j&Hj)%list_elem_of_lookup_1. by apply (Hlast (S j)); [lia|].
  - rewrite (IH (S i) _ k Hk); [f_equal; lia|].
    intros j Hj. apply (Hlast (S j)). lia.
Qed.

Lemma last_index_exists label_list lab :
  lab ∈ label_list →
  ∃ k, label_list !! k = Some lab ∧ ∀ j, k < j → label_list !! j ≠ Some lab.
Proof.
  induction label_list as [|x rest IH]; [by intros ?%elem_of_nil|]. intros Hin.
  destruct (decide (lab ∈ rest)) as [Hr|Hnin].
  - destruct (IH Hr) as (k&Hk&Hlast). exists (S k). split; [done|].
    intros [|j'] Hlt; [lia|]. cbn. apply Hlast. lia.
  - apply elem_of_cons in Hin as [->|?]; [|done]. exists 0. split; [done|].
    intros [|j'] Hlt Hlk; [lia|]. cbn in Hlk.
    apply Hnin. by eapply list_elem_of_lookup_2.
Qed.

(** [label_map[lab]] is the last index of [lab] in [label_list]. *)
Lemma label_map_Some label_list lab i :
  label_map_from 0 label_list ∅ !! lab = Some i ↔
  label_list !! i = Some lab ∧ ∀ j, i < j → label_list !! j ≠ Some lab.
Proof.
  split.
  - intros Hi. destruct (decide (lab ∈ label_list)) as [Hin|Hnin].
    + destruct (last_index_exists _ _ Hin) as (k&Hk&Hlast).
      rewrite (label_map_from_last 0 _ _ _ k Hk Hlast) in Hi. by injection Hi as <-.
    + by rewrite label_map_from_absent, lookup_empty in Hi.
  - intros [Hi Hlast]. by rewrite (label_map_from_last 0 _ _ _ i Hi Hlast).
Qed.

Lemma label_map_None label_list lab :
  label_map_from 0 label_list ∅ !! lab = None ↔ lab ∉ label_list.
Proof.
  split.
  - intros Hn Hin. destruct (last_index_exists _ _ Hin) as (k&Hk&Hlast).
    by rewrite (label_map_from_last 0 _ _ _ k Hk Hlast) in Hn.
  - intros Hn. by rewrite label_map_from_absent, lookup_empty.
Qed.
End label_map_facts.

Section convert_facts.
Context `{Tokenizer}.
Implicit Types (label_map : gmap string nat) (label_list : list string).
Implicit Types (example : InputExample) (max_seq_length : Z).

Lemma outcome_bind_Return {A B} (r : outcome A) (k : A → outcome B) b :
  r ≫= k = Return b ↔ ∃ a, r = Return a ∧ k a = Return b.
Proof.
  destruct r as [a|e]; cbn; split; [eauto|by intros (a'&[= <-]&?)|done|by intros (?&?&?)].
Qed.

(** The tokens of an example fit with their markers as soon as
    [max_seq_length] leaves room for the markers. *)
Lemma example_tokens_fit max_seq_length example :
  (3 ≤ max_seq_length)%Z →
  ∃ a b, example_tokens max_seq_length example = Return (a, b) ∧
    a `prefix_of` tokenize (text_a example) ∧
    match b with
    | Some b =>
        has_text_b example ∧
        (∀ s, text_b example = Some s → b `prefix_of` tokenize s) ∧
        (Z.of_nat (length a + length b) ≤ max_seq_length - 3)%Z
    | None => ¬ has_text_b example ∧ (Z.of_nat (length a) ≤ max_seq_length - 2)%Z
    end.
Proof.
  intros Hmax. unfold example_tokens.
  destruct (text_b example) as [[|c s]|] eqn:Etb.
  - destruct (Z.ltb_spec (max_seq_length - 2) (Z.of_nat (length (tokenize (text_a example))))).
    + eexists _, None. split; [done|]. rewrite slice_to_nonneg by lia.
      split; [apply prefix_take|]. split; [intros (?&?&?); congruence|]. rewrite length_take. lia.
    + eexists _, None. split; [done|]. split; [done|]. split; [intros (?&?&?); congruence|lia].
  - destruct (truncate_spec _ (tokenize (text_a example)) (tokenize (String c s))
      (max_seq_length - 3) eq_refl ltac:(lia)) as (a&b&->&Ha&Hb&Hlen&_).
    exists a, (Some b). split; [done|]. split; [done|]. split; [by exists c, s|].
    split; [by intros ? [= <-]|lia].
  - destruct (Z.ltb_spec (max_seq_length - 2) (Z.of_nat (length (tokenize (text_a example))))).
    + eexists _, None. split; [done|]. rewrite slice_to_nonneg by lia.
      split; [apply prefix_take|]. split; [intros (?&?&?); congruence|]. rewrite length_take. lia.
    + eexists _, None. split; [done|]. split; [done|]. split; [intros (?&?&?); congruence|lia].
Qed.

Lemma assert_len_Return {A} (l : list A) max_seq_length :
  assert_len l max_seq_length = Return () ↔ Z.of_nat (length l) = max_seq_length.
Proof.
  unfold assert_len. destruct (Z.eqb_spec (Z.of_nat (length l)) max_seq_length); naive_solver.
Qed.

Lemma assert_len_cases {A} (l : list A) max_seq_length :
  assert_len l max_seq_length = Return () ∨
  assert_len l max_seq_length = Throw (Builtin AssertionError).
Proof. unfold assert_len. destruct (_ =? _)%Z; auto. Qed.

Lemma encode_tokens_inv label_map max_seq_length a b lab f :
  encode_tokens label_map max_seq_length a b lab = Return f →
  let n := length a + 2 + second_segment b in
  ∃ l i,
    lab = Some l ∧ label_map !! l = Some i ∧ label_id f = Z.of_nat i ∧
    (Z.of_nat n ≤ max_seq_length)%Z ∧
    input_mask f = replicate n 1%Z ++ replicate (Z.to_nat max_seq_length - n) 0%Z ∧
    segment_ids f =
      replicate (length a + 2) 0%Z ++ replicate (second_segment b) 1%Z ++
      replicate (Z.to_nat max_seq_length - n) 0%Z ∧
    length (input_ids f) = Z.to_nat max_seq_length.
Proof.
  unfold encode_tokens.
  set (tokens := ["[CLS]"] ++ a ++ ["[SEP]"]).
  assert (Htok : length tokens = length a + 2) by (unfold tokens; cbn; rewrite length_app; cbn; lia).
  set (p := match b with Some (t :: b') => _ | _ => _ end).
  assert (Hp : length p.2 = length a + 2 + second_segment b ∧
    p.2 = replicate (length a + 2) 0%Z ++ replicate (second_segment b) 1%Z).
  { unfold p. destruct b as [[|t b']|]; cbn [snd second_segment];
      rewrite ?length_app, ?length_replicate, Htok, ?app_nil_r; split; try done; lia. }
  destruct p as [tokens' segs]. cbn [snd] in Hp. destruct Hp as [Hlen ->].
  intros Hret.
  apply outcome_bind_Return in Hret as ([]&H1%assert_len_Return&Hret).
  apply outcome_bind_Return in Hret as ([]&H2%assert_len_Return&Hret).
  apply outcome_bind_Return in Hret as ([]&H3%assert_len_Return&Hret).
  destruct lab as [l|]; [|done]. cbn in Hret.
  destruct (label_map !! l) as [i|] eqn:Hi; [|done]. injection Hret as <-. cbn.
  rewrite !length_app, !length_replicate in *.
  set (ids := convert_tokens_to_ids tokens') in *.
  assert (length ids = length a + 2 + second_segment b) as Hids by lia.
  exists l, i. repeat split; try done; try lia.
  - rewrite Hids. do 2 f_equal. lia.
  - rewrite <-app_assoc. do 3 f_equal. lia.
Qed.

Lemma encode_tokens_fit label_map max_seq_length a b lab :
  ids_per_token →
  (Z.of_nat (length a + 2 + second_segment b) ≤ max_seq_length)%Z →
  encode_tokens label_map max_seq_length a b lab =
    match lab ≫= (label_map !!.) with
    | None => Throw KeyError
    | Some i =>
        Return {|
          input_ids :=
            convert_tokens_to_ids
              (["[CLS]"] ++ a ++ ["[SEP]"] ++
               match b with Some (t :: b') => (t :: b') ++ ["[SEP]"] | _ => [] end) ++
            replicate (Z.to_nat max_seq_length - (length a + 2 + second_segment b)) 0%Z;
          input_mask :=
            replicate (length a + 2 + second_segment b) 1%Z ++
            replicate (Z.to_nat max_seq_length - (length a + 2 + second_segment b)) 0%Z;
          segment_ids :=
            (replicate (length a + 2) 0%Z ++ replicate (second_segment b) 1%Z) ++
            replicate (Z.to_nat max_seq_length - (length a + 2 + second_segment b)) 0%Z;
          label_id := Z.of_nat i |}
    end.
Proof.
  intros Hids Hfit. unfold encode_tokens.
  set (tokens := ["[CLS]"] ++ a ++ ["[SEP]"]).
  assert (Htok : length tokens = length a + 2) by (unfold tokens; cbn; rewrite length_app; cbn; lia).
  set (p := match b with Some (t :: b') => _ | _ => _ end).
  assert (Hp : length p.1 = length a + 2 + second_segment b ∧
    p.1 = ["[CLS]"] ++ a ++ ["[SEP]"] ++
          match b with Some (t :: b') => (t :: b') ++ ["[SEP]"] | _ => [] end ∧
    p.2 = replicate (length a + 2) 0%Z ++ replicate (second_segment b) 1%Z).
  { unfold p. destruct b as [[|t b']|]; cbn [fst snd second_segment];
      rewrite ?length_app, ?Htok, ?app_nil_r; cbn [length]; unfold tokens;
      rewrite <-?app_assoc; repeat split; try done; lia. }
  destruct p as [tokens' segs]. cbn [fst snd] in Hp. destruct Hp as (Hlen&Ht&->).
  rewrite <-Ht. clear Ht.
  assert (Hl : length (convert_tokens_to_ids tokens') = length a + 2 + second_segment b)
    by (by rewrite Hids).
  rewrite !Hl.
  replace (Z.to_nat (max_seq_length - Z.of_nat (length a + 2 + second_segment b)))
    with (Z.to_nat max_seq_length - (length a + 2 + second_segment b)) by lia.
  do 3 (rewrite (proj2 (assert_len_Return _ _))
    by (rewrite ?length_app, ?length_replicate, ?Hl; lia); cbn [mbind outcome_bind]).
  done.
Qed.

Lemma encode_tokens_long label_map max_seq_length a b lab :
  ids_per_token →
  (max_seq_length < Z.of_nat (length a + 2 + second_segment b))%Z →
  encode_tokens label_map max_seq_length a b lab = Throw (Builtin AssertionError).
Proof.
  intros Hids Hlong.
  destruct (encode_tokens label_map max_seq_length a b lab) as [f|e] eqn:E.
  { apply encode_tokens_inv in E as (?&?&?&?&?&?&?). cbn in *. lia. }
  revert E. unfold encode_tokens.
  set (tokens := ["[CLS]"] ++ a ++ ["[SEP]"]).
  assert (Htok : length tokens = length a + 2) by (unfold tokens; cbn; rewrite length_app; cbn; lia).
  set (p := match b with Some (t :: b') => _ | _ => _ end).
  assert (Hp : length p.1 = length a + 2 + second_segment b).
  { unfold p. destruct b as [[|t b']|]; cbn [fst second_segment];
      rewrite ?length_app, ?Htok; cbn [length]; rewrite ?length_app; cbn; lia. }
  destruct p as [tokens' segs]. cbn [fst] in Hp.
  match goal with |- assert_len ?l _ ≫= _ = _ → _ =>
    destruct (assert_len_cases l max_seq_length) as [Ha|Ha]; [|rewrite Ha] end.
  - apply assert_len_Return in Ha.
    rewrite length_app, length_replicate, Hids, Hp in Ha. lia.
  - by intros [= <-].
Qed.

Lemma known_label_lookup label_list example :
  known_label label_list example ↔
  is_Some (label example ≫= (label_map_from 0 label_list ∅ !!.)).
Proof.
  unfold known_label. destruct (label example) as [l|]; cbn.
  - split.
    + intros (?&[= <-]&Hin). apply not_eq_None_Some. by rewrite label_map_None; intros ?.
    + intros Hs. exists l. split; [done|].
      destruct (decide (l ∈ label_list)) as [|Hn]; [done|].
      apply label_map_None in Hn. rewrite Hn in Hs. by destruct Hs.
  - split; [by intros (?&?&?)|by intros []].
Qed.

Lemma convert_example_cases label_list max_seq_length example :
  ids_per_token → (3 ≤ max_seq_length)%Z →
  if decide (known_label label_list example)
  then ∃ f, convert_example (label_map_from 0 label_list ∅) max_seq_length example = Return f
  else convert_example (label_map_from 0 label_list ∅) max_seq_length example = Throw KeyError.
Proof.
  intros Hids Hmax. unfold convert_example.
  destruct (example_tokens_fit max_seq_length example Hmax) as (a&b&->&_&Hb).
  cbn [mbind outcome_bind].
  rewrite encode_tokens_fit; [|done|].
  2:{ destruct b as [[|t b]|]; cbn [second_segment length] in *; lia. }
  destruct (decide _) as [Hk|Hk]; rewrite known_label_lookup in Hk.
  - destruct Hk as [i ->]. eauto.
  - destruct (_ ≫= _) as [i|]; [|done]. destruct Hk. eauto.
Qed.
End convert_facts.


Section convert_claims.
Context `{Tokenizer}.
Implicit Types (label_map : gmap string nat) (label_list : list string).
Implicit Types (example : InputExample) (examples : list InputExample).
Implicit Types (max_seq_length : Z) (features : list InputFeatures).

Lemma convert_loop_Return label_map max_seq_length examples features :
  convert_loop label_map max_seq_length examples = Return features ↔
  Forall2 (λ example f, convert_example label_map max_seq_length example = Return f)
    examples features.
Proof.
  revert features. induction examples as [|e rest IH]; intros fs; cbn [convert_loop].
  - split; [by intros [= <-]; constructor|by intros ->%Forall2_nil_inv_l].
  - rewrite outcome_bind_Return. split.
    + intros (f&Hf&(fs'&Hfs&[= <-])%outcome_bind_Return). constructor; [done|by apply IH].
    + intros (f&fs'&Hf&Hfs&->)%Forall2_cons_inv_l. exists f. split; [done|].
      apply outcome_bind_Return. exists fs'. split; [by apply IH|done].
Qed.

Lemma example_tokens_pair max_seq_length example a b :
  example_tokens max_seq_length example = Return (a, Some b) → has_text_b example.
Proof.
  unfold example_tokens, has_text_b.
  destruct (text_b example) as [[|c s]|]; [by destruct (_ <? _)%Z|eauto|by destruct (_ <? _)%Z].
Qed.

Lemma convert_example_inv label_map max_seq_length example f :
  convert_example label_map max_seq_length example = Return f →
  ∃ a b, example_tokens max_seq_length example = Return (a, b) ∧
    encode_tokens label_map max_seq_length a b (label example) = Return f.
Proof.
  unfold convert_example. intros ([a b]&?&?)%outcome_bind_Return. eauto.
Qed.

Lemma convert_loop_cases label_list max_seq_length examples :
  ids_per_token → (3 ≤ max_seq_length)%Z →
  if decide (Forall (known_label label_list) examples)
  then ∃ features,
    convert_loop (label_map_from 0 label_list ∅) max_seq_length examples = Return features
  else convert_loop (label_map_from 0 label_list ∅) max_seq_length examples = Throw KeyError.
Proof.
  intros Hids Hmax. induction examples as [|e rest IH]; cbn [convert_loop].
  { rewrite decide_True by constructor. by exists []. }
  pose proof (convert_example_cases label_list max_seq_length e Hids Hmax) as He.
  destruct (decide (known_label label_list e)) as [Hk|Hk].
  - destruct He as [f ->]. cbn [mbind outcome_bind].
    destruct (decide (Forall (known_label label_list) rest)) as [Hrest|Hrest].
    + rewrite decide_True by (by constructor). destruct IH as [fs ->]. by exists (f :: fs).
    + rewrite decide_False by (by intros (_&?)%Forall_cons). by rewrite IH.
  - rewrite He. by rewrite decide_False by (by intros (?&_)%Forall_cons).
Qed.

(** X3. With a tokenizer that gives one id for each token and room for
    the three markers, [convert_examples_to_features] returns, one
    feature for each example, when every example carries a label of
    [label_list]; otherwise it raises [KeyError]. *)
Theorem convert_returns_iff_labels_known examples label_list max_seq_length :
  ids_per_token → (3 ≤ max_seq_length)%Z →
  (Forall (known_label label_list) examples →
     ∃ features,
       convert_examples_to_features examples label_list max_seq_length = Return features ∧
       length features = length examples) ∧
  (¬ Forall (known_label label_list) examples →
     convert_examples_to_features examples label_list max_seq_length = Throw KeyError).
Proof.
  intros Hids Hmax. unfold convert_examples_to_features.
  pose proof (convert_loop_cases label_list max_seq_length examples Hids Hmax) as Hcases.
  destruct (decide (Forall (known_label label_list) examples)) as [Hall|Hsome].
  - split; [|done]. intros _. destruct Hcases as [features Hret].
    exists features. split; [done|].
    apply convert_loop_Return, Forall2_length in Hret. by symmetry.
  - split; [done|]. by intros _.
Qed.

Lemma truncate_Ok_lengths (a b a' b' : list string) (m : Z) :
  _truncate_seq_pair a b m = Ok (a', b') →
  let M := Z.to_nat m in
  (0 ≤ m)%Z ∧
  length a' = length a `min` (((M + 1) / 2) `max` (M - length b)) ∧
  length b' = length b `min` ((M / 2) `max` (M - length a)).
Proof.
  intros Hret M. destruct (decide (m < 0)%Z) as [Hneg|Hm].
  { by rewrite (truncate_negative _ a b m eq_refl Hneg) in Hret. }
  split; [lia|].
  destruct (truncate_spec _ a b m eq_refl ltac:(lia)) as (a0&b0&Heq&Ha&Hb&Hlen&Hba&Hab).
  rewrite Heq in Hret. injection Hret as -> ->.
  pose proof (prefix_length _ _ Ha) as Hla. pose proof (prefix_length _ _ Hb) as Hlb.
  pose proof (Nat.div_mod_eq M 2) as Hd. pose proof (Nat.mod_upper_bound M 2 ltac:(lia)) as Hr.
  pose proof (Nat.div_mod_eq (M + 1) 2) as Hd'.
  pose proof (Nat.mod_upper_bound (M + 1) 2 ltac:(lia)) as Hr'.
  assert (HM : Z.of_nat M = m) by lia.
  split; lia.
Qed.

Lemma example_tokens_sizes max_seq_length example a b :
  example_tokens max_seq_length example = Return (a, b) →
  (Z.of_nat (length a + 2) ≤ max_seq_length)%Z →
  segment_sizes max_seq_length example = (length a + 2, second_segment b).
Proof.
  unfold example_tokens, segment_sizes, kept_tokens. intros Htok Hfit.
  assert (Hsingle :
    (if (max_seq_length - 2 <? Z.of_nat (length (tokenize (text_a example))))%Z
     then Return (slice_to (tokenize (text_a example)) (max_seq_length - 2), None)
     else Return (tokenize (text_a example), @None (list string))) = Return (a, b) →
    (length (tokenize (text_a example)) `min` Z.to_nat (max_seq_length - 2) + 2, 0) =
      (length a + 2, second_segment b)).
  { destruct (Z.ltb_spec (max_seq_length - 2)
      (Z.of_nat (length (tokenize (text_a example))))); intros [= <- <-]; cbn [second_segment].
    - rewrite slice_to_nonneg, length_take by lia. f_equal. lia.
    - f_equal. lia. }
  destruct (text_b example) as [[|c s]|]; [by apply Hsingle| |by apply Hsingle].
  destruct (_truncate_seq_pair (tokenize (text_a example)) (tokenize (String c s))
    (max_seq_length - 3)) as [[a' b']|e] eqn:Htr; [|done].
  cbn in Htok. injection Htok as <- <-.
  apply truncate_Ok_lengths in Htr as (_&Ha&Hb). rewrite <-Ha, <-Hb.
  f_equal. by destruct b' as [|t b'].
Qed.

(** X4. Whenever [convert_examples_to_features] returns, every feature
    has the three sequences of length [max_seq_length], and they are laid
    out after the tokens kept of the example's texts: the mask is ones
    over [[CLS]], the kept tokens of [text_a], [[SEP]] and, when some
    tokens of [text_b] are kept, those and their [[SEP]], and zeros
    after; the segment ids are zeros over the first of these groups, ones
    over the second and zeros over the padding.  Of a single text the
    first [max_seq_length - 2] tokens are kept, of a pair what
    [_truncate_seq_pair] leaves for [max_seq_length - 3]. *)
Theorem convert_features_layout examples label_list max_seq_length features :
  convert_examples_to_features examples label_list max_seq_length = Return features →
  Forall2 (λ example f,
      let '(na, nb) := segment_sizes max_seq_length example in
      (Z.of_nat (na + nb) ≤ max_seq_length)%Z ∧ laid_out max_seq_length na nb f)
    examples features.
Proof.
  intros Hret%convert_loop_Return. eapply Forall2_impl; [done|].
  intros e f (a&b&Htok&Henc)%convert_example_inv. cbn beta.
  apply encode_tokens_inv in Henc as (l&i&_&_&_&Hfit&Hmask&Hseg&Hlen).
  rewrite (example_tokens_sizes _ _ _ _ Htok) by lia. done.
Qed.
(** X5. The [label_id] of a returned feature is the position of the
    example's label in [label_list], the last one when the label occurs
    there more than once. *)
Theorem convert_label_id_last_index examples label_list max_seq_length features :
  convert_examples_to_features examples label_list max_seq_length = Return features →
  Forall2 (λ example f, ∃ l i,
      label example = Some l ∧ label_id f = Z.of_nat i ∧
      label_list !! i = Some l ∧ ∀ j, i < j → label_list !! j ≠ Some l)
    examples features.
Proof.
  intros Hret%convert_loop_Return. eapply Forall2_impl; [done|].
  intros e f (a&b&Htok&Henc)%convert_example_inv. cbn beta.
  apply encode_tokens_inv in Henc as (l&i&Hl&Hi%label_map_Some&Hid&_).
  exists l, i. by destruct Hi.
Qed.

(** X6. With a tokenizer that gives one id for each token, a
    [max_seq_length] without room for the markers makes
    [convert_examples_to_features] fail on the first example, before its
    label is looked up: with [IndexError] from [_truncate_seq_pair] for a
    pair and [max_seq_length < 3], with [AssertionError] for a single text
    and [max_seq_length < 2]. *)
Theorem convert_without_room_for_markers example examples label_list max_seq_length :
  ids_per_token →
  (has_text_b example → (max_seq_length < 3)%Z →
     convert_examples_to_features (example :: examples) label_list max_seq_length
       = Throw (Builtin IndexError)) ∧
  (¬ has_text_b example → (max_seq_length < 2)%Z →
     convert_examples_to_features (example :: examples) label_list max_seq_length
       = Throw (Builtin AssertionError)).
Proof.
  intros Hids. unfold convert_examples_to_features. cbn [convert_loop].
  unfold convert_example, example_tokens. split.
  - intros (c&s&->) Hmax.
    by rewrite (truncate_negative _ _ _ (max_seq_length - 3) eq_refl) by lia.
  - intros Hn Hmax.
    set (r := if (_ <? _)%Z then _ else _).
    assert (Hr : ∃ a, r = Return (a, None)) by (unfold r; destruct (_ <? _)%Z; eauto).
    destruct Hr as [a Hr].
    replace (match text_b example with Some (String c s) => _ | _ => r end) with r.
    2:{ destruct (text_b example) as [[|c s]|] eqn:E; try done. destruct Hn. by exists c, s. }
    rewrite Hr. cbn [mbind outcome_bind].
    rewrite encode_tokens_long; [done..|]. cbn. lia.
Qed.

(** X7. With a tokenizer that gives one id for each token, the ids of a
    returned feature of an example without [text_b] are those of
    ["[CLS]"], the first [max_seq_length - 2] tokens of [text_a] and
    ["[SEP]"], followed by zeros up to [max_seq_length]. *)
Theorem convert_single_text_ids examples label_list max_seq_length features k example f :
  ids_per_token →
  convert_examples_to_features examples label_list max_seq_length = Return features →
  examples !! k = Some example → features !! k = Some f →
  ¬ has_text_b example →
  let tokens_a := take (Z.to_nat (max_seq_length - 2)) (tokenize (text_a example)) in
  input_ids f =
    convert_tokens_to_ids (["[CLS]"] ++ tokens_a ++ ["[SEP]"]) ++
    replicate (Z.to_nat max_seq_length - (length tokens_a + 2)) 0%Z.
Proof.
  intros Hids Hret%convert_loop_Return Hk Hf Hn tokens_a.
  pose proof (Forall2_lookup_lr _ _ _ _ _ _ Hret Hk Hf) as Hconv.
  apply convert_example_inv in Hconv as (a&b&Htok&Henc).
  assert (b = None) as ->.
  { destruct b as [b|]; [|done]. destruct Hn. by eapply example_tokens_pair. }
  pose proof Henc as Hinv. apply encode_tokens_inv in Hinv as (_&_&_&_&_&Hfit&_).
  cbn [second_segment] in Hfit.
  rewrite encode_tokens_fit in Henc by (done || cbn [second_segment]; lia).
  destruct (_ ≫= _) as [i|]; [|done]. injection Henc as <-. cbn [input_ids second_segment].
  assert (a = tokens_a) as ->; [|by rewrite Nat.add_0_r].
  revert Htok. unfold example_tokens, tokens_a.
  assert (Hcut : ∀ a', (if (max_seq_length - 2 <? Z.of_nat (length (tokenize (text_a example))))%Z
      then Return (slice_to (tokenize (text_a example)) (max_seq_length - 2), None)
      else Return (tokenize (text_a example), @None (list string))) = Return (a', None) →
      a' = take (Z.to_nat (max_seq_length - 2)) (tokenize (text_a example))).
  { intros a'. destruct (Z.ltb_spec (max_seq_length - 2)
      (Z.of_nat (length (tokenize (text_a example))))); intros [= <-].
    - apply slice_to_nonneg.
      destruct (decide (0 ≤ max_seq_length - 2)%Z) as [|Hneg]; [done|].
      lia.
    - by rewrite take_ge by lia. }
  destruct (text_b example) as [[|c s]|] eqn:E; [apply Hcut| |apply Hcut].
  destruct Hn. by exists c, s.
Qed.
End convert_claims.

Lemma word_tokenizer_ids_per_token : @ids_per_token word_tokenizer.
Proof. intros tokens. apply length_map. Qed.

Lemma convert_returns_iff_labels_known_witness :
  (3 ≤ 10)%Z ∧
  (∃ features,
     convert_examples_to_features [hairy_dog; jacksonville] MLDProcessor.get_labels 10
       = Return features ∧ length features = 2) ∧
  convert_examples_to_features [hairy_dog; jacksonville] CLYProcessor.get_labels 10
    = Throw KeyError.
Proof.
  split; [lia|]. split.
  - apply (convert_returns_iff_labels_known [hairy_dog; jacksonville]
      MLDProcessor.get_labels 10 word_tokenizer_ids_per_token); [lia|].
    apply (bool_decide_eq_true_1 (Forall (known_label MLDProcessor.get_labels)
      [hairy_dog; jacksonville])). vm_compute. reflexivity.
  - apply (convert_returns_iff_labels_known [hairy_dog; jacksonville]
      CLYProcessor.get_labels 10 word_tokenizer_ids_per_token); [lia|].
    intros (Hk&_)%Forall_cons. destruct Hk as (l&[= <-]&Hin).
    revert Hin. apply (bool_decide_eq_false_1 (_ ∈ _)). vm_compute. reflexivity.
Defined.

(** The two examples, encoded with room for ten entries. *)
Lemma convert_run :
  convert_examples_to_features [hairy_dog; jacksonville] MLDProcessor.get_labels 10 =
    Return encoded_examples.
Proof. vm_compute. reflexivity. Qed.

Lemma convert_features_layout_witness :
  convert_examples_to_features [hairy_dog; jacksonville] MLDProcessor.get_labels 10 =
    Return encoded_examples ∧
  segment_sizes 10 hairy_dog = (7, 0) ∧ segment_sizes 10 jacksonville = (6, 4) ∧
  Forall2 (λ example f,
      let '(na, nb) := segment_sizes 10 example in
      (Z.of_nat (na + nb) ≤ 10)%Z ∧ laid_out 10 na nb f)
    [hairy_dog; jacksonville] encoded_examples.
Proof.
  split; [exact convert_run|]. split; [reflexivity|]. split; [reflexivity|].
  apply (convert_features_layout [hairy_dog; jacksonville] MLDProcessor.get_labels 10).
  exact convert_run.
Defined.

Lemma convert_label_id_last_index_witness :
  convert_examples_to_features [hairy_dog; jacksonville] MLDProcessor.get_labels 10 =
    Return encoded_examples ∧
  Forall2 (λ example f, ∃ l i,
      label example = Some l ∧ label_id f = Z.of_nat i ∧
      MLDProcessor.get_labels !! i = Some l ∧
      ∀ j, i < j → MLDProcessor.get_labels !! j ≠ Some l)
    [hairy_dog; jacksonville] encoded_examples.
Proof.
  split; [exact convert_run|].
  apply (convert_label_id_last_index [hairy_dog; jacksonville] MLDProcessor.get_labels 10).
  exact convert_run.
Defined.

Lemma convert_without_room_for_markers_witness :
  convert_examples_to_features [jacksonville; hairy_dog] MLDProcessor.get_labels 2
    = Throw (Builtin IndexError) ∧
  convert_examples_to_features [hairy_dog; jacksonville] MLDProcessor.get_labels 1
    = Throw (Builtin AssertionError).
Proof.
  split.
  - apply (convert_without_room_for_markers jacksonville [hairy_dog]
      MLDProcessor.get_labels 2 word_tokenizer_ids_per_token); [|lia].
    eexists _, _. reflexivity.
  - apply (convert_without_room_for_markers hairy_dog [jacksonville]
      MLDProcessor.get_labels 1 word_tokenizer_ids_per_token); [|lia].
    intros (c&s&Heq). discriminate Heq.
Defined.

Lemma convert_single_text_ids_witness :
  ∃ f, convert_examples_to_features [hairy_dog] MLDProcessor.get_labels 5 = Return [f] ∧
    input_ids f = convert_tokens_to_ids ["[CLS]"; "the"; "dog"; "is"; "[SEP]"].
Proof.
  eexists. split; [vm_compute; reflexivity|].
  apply (convert_single_text_ids [hairy_dog] MLDProcessor.get_labels 5
    [ {| input_ids := [5; 3; 3; 2; 5]; input_mask := [1; 1; 1; 1; 1];
         segment_ids := [0; 0; 0; 0; 0]; label_id := 1 |} ]%Z 0 hairy_dog _
    word_tokenizer_ids_per_token); [vm_compute; reflexivity|reflexivity..|].
  intros (c&s&Heq). discriminate Heq.
Defined.
(** * Facts about the processors *)


Section processor_facts.
Implicit Types (lines : list (list string)) (line : list string).
Implicit Types (examples : list InputExample) (set_type : string).

Lemma py_index_Ok {A} (l : list A) i x : py_index l i = Ok x ↔ l !! i = Some x.
Proof. unfold py_index. destruct (l !! i); naive_solver. Qed.

Lemma py_index_Raise {A} (l : list A) i e :
  py_index l i = Raise e ↔ length l ≤ i ∧ e = IndexError.
Proof.
  unfold py_index. destruct (l !! i) eqn:E.
  - apply lookup_lt_Some in E. split; [done|lia].
  - apply lookup_ge_None in E. split; [by intros [= <-]|by intros [_ ->]].
Qed.

Lemma read_examples_rows set_type i lines :
  Forall (λ line, 2 ≤ length line) lines →
  read_examples set_type i lines =
    Ok (imap (λ k line, row_example set_type (i + k) line) lines).
Proof.
  intros Hrows. revert i. induction Hrows as [|line rest Hline _ IH]; intros i; [done|].
  cbn [read_examples imap]. unfold py_index, row_example at 1.
  destruct line as [|lab [|text line]]; [cbn in Hline; lia..|]. cbn.
  rewrite IH. cbn. rewrite Nat.add_0_r. do 2 f_equal.
  apply imap_ext. intros k l _. cbn. do 2 f_equal. lia.
Qed.

Lemma read_examples_short_row set_type i lines :
  ¬ Forall (λ line, 2 ≤ length line) lines →
  read_examples set_type i lines = Raise IndexError.
Proof.
  revert i. induction lines as [|line rest IH]; intros i Hn; [by destruct Hn|].
  cbn [read_examples].
  destruct (decide (2 ≤ length line)) as [Hline|Hline].
  - unfold py_index. destruct line as [|lab [|text line]]; [cbn in Hline; lia..|]. cbn.
    rewrite IH; [done|]. intros Hrest. apply Hn. by constructor.
  - unfold py_index. by destruct line as [|lab [|text line]]; [..|cbn in Hline; lia].
Qed.

Lemma read_examples_inv set_type i lines examples :
  read_examples set_type i lines = Ok examples →
  Forall (λ line, 2 ≤ length line) lines ∧
  examples = imap (λ k line, row_example set_type (i + k) line) lines.
Proof.
  intros Hok. destruct (decide (Forall (λ line, 2 ≤ length line) lines)) as [Hrows|Hn].
  - split; [done|]. rewrite read_examples_rows in Hok by done. by injection Hok.
  - by rewrite read_examples_short_row in Hok.
Qed.

Lemma guid_inj set_type i j line line' :
  guid (row_example set_type i line) = guid (row_example set_type j line') → i = j.
Proof.
  cbn. intros Heq%String.app_inj%String.app_inj. by apply (inj pretty).
Qed.

Lemma read_examples_guids set_type i lines examples :
  read_examples set_type i lines = Ok examples →
  guid <$> examples = (λ k, set_type +:+ "-" +:+ pretty k) <$> seq i (length lines).
Proof.
  intros (_&->)%read_examples_inv. revert i.
  induction lines as [|line rest IH]; intros i; [done|]. cbn.
  rewrite Nat.add_0_r. f_equal. rewrite <-IH. f_equal.
  apply imap_ext. intros k l _. cbn. do 2 f_equal. lia.
Qed.

(** X8. [MLDProcessor.get_train_examples] returns exactly when every row
    of the file has at least two fields, and raises [IndexError]
    otherwise.  It returns one example for each row, in the order of the
    file: the label is the first field, the text the second, further
    fields are dropped, there is no second text, and the guid is
    ["train-"] followed by the number of the row. *)
Theorem train_examples_follow_rows lines :
  (Forall (λ line, 2 ≤ length line) lines →
     MLDProcessor.get_train_examples lines =
       Ok (imap (λ i line,
         {| guid := "train-" +:+ pretty i; text_a := default "" (line !! 1);
            text_b := None; label := line !! 0 |}) lines)) ∧
  (¬ Forall (λ line, 2 ≤ length line) lines →
     MLDProcessor.get_train_examples lines = Raise IndexError).
Proof.
  split.
  - intros Hrows. unfold MLDProcessor.get_train_examples.
    by rewrite read_examples_rows.
  - apply read_examples_short_row.
Qed.

(** X9. The guids of the examples that [get_train_examples] and
    [get_unlabel_examples] return are pairwise different, within each
    list and between the two. *)
Theorem train_and_unlabel_guids_differ lines lines' examples src_examples trg_examples :
  CLYProcessor.get_train_examples lines = Ok examples →
  CLYProcessor.get_unlabel_examples lines' = Ok (src_examples, trg_examples) →
  NoDup (guid <$> examples ++ src_examples) ∧ NoDup (guid <$> examples ++ trg_examples).
Proof.
  unfold CLYProcessor.get_train_examples, CLYProcessor.get_unlabel_examples.
  intros Htrain Huns. apply bind_Ok in Huns as (uns&Huns&[= <- <-]).
  apply read_examples_guids in Htrain, Huns.
  enough (NoDup (guid <$> examples ++ uns)) by done.
  rewrite fmap_app, Htrain, Huns. apply NoDup_app. split_and!.
  - apply NoDup_fmap_2; [|apply NoDup_seq].
    intros i j Heq%String.app_inj%String.app_inj. by apply (inj pretty).
  - intros g (i&->&_)%list_elem_of_fmap (j&Heq&_)%list_elem_of_fmap.
    cbn in Heq. discriminate Heq.
  - apply NoDup_fmap_2; [|apply NoDup_seq].
    intros i j Heq%String.app_inj%String.app_inj. by apply (inj pretty).
Qed.

(** X10. [get_dev_examples] builds the examples of both files before it
    returns those of one: [MLDProcessor] returns the examples of the
    first file and [CLYProcessor] those of the second, and each raises
    [IndexError] when a row of either file has fewer than two fields. *)
Theorem dev_examples_read_both_files src_lines trg_lines :
  let rows_ok := Forall (λ line : list string, 2 ≤ length line) in
  (rows_ok src_lines ∧ rows_ok trg_lines →
     MLDProcessor.get_dev_examples src_lines trg_lines = read_examples "dev" 0 src_lines ∧
     CLYProcessor.get_dev_examples src_lines trg_lines = read_examples "dev" 0 trg_lines) ∧
  (¬ (rows_ok src_lines ∧ rows_ok trg_lines) →
     MLDProcessor.get_dev_examples src_lines trg_lines = Raise IndexError ∧
     CLYProcessor.get_dev_examples src_lines trg_lines = Raise IndexError).
Proof.
  intros rows_ok. unfold MLDProcessor.get_dev_examples, CLYProcessor.get_dev_examples. split.
  - intros [Hsrc Htrg]. by rewrite !read_examples_rows.
  - intros Hn. destruct (decide (rows_ok src_lines)) as [Hsrc|Hsrc].
    + destruct (decide (rows_ok trg_lines)) as [Htrg|Htrg]; [by destruct Hn|].
      rewrite (read_examples_rows _ _ src_lines) by done.
      by rewrite read_examples_short_row.
    + by rewrite (read_examples_short_row _ _ src_lines).
Qed.
End processor_facts.

Lemma train_examples_follow_rows_witness :
  MLDProcessor.get_train_examples [["CCAT"; "hello world"]; ["ECAT"; "x"; "extra"]] =
    Ok [ {| guid := "train-0"; text_a := "hello world"; text_b := None;
            label := Some "CCAT" |};
         {| guid := "train-1"; text_a := "x"; text_b := None; label := Some "ECAT" |} ] ∧
  MLDProcessor.get_train_examples [["CCAT"; "hello world"]; ["ECAT"]] = Raise IndexError.
Proof.
  split.
  - apply (train_examples_follow_rows [["CCAT"; "hello world"]; ["ECAT"; "x"; "extra"]]).
    repeat constructor.
  - apply (train_examples_follow_rows [["CCAT"; "hello world"]; ["ECAT"]]).
    intros (_&(Hrow&_)%Forall_cons)%Forall_cons. cbn in Hrow. lia.
Defined.

Lemma train_and_unlabel_guids_differ_witness :
  CLYProcessor.get_train_examples [["1"; "good"]; ["5"; "great"]] =
    Ok [row_example "train" 0 ["1"; "good"]; row_example "train" 1 ["5"; "great"]] ∧
  CLYProcessor.get_unlabel_examples [["3"; "so so"]] =
    Ok ([row_example "uns" 0 ["3"; "so so"]], [row_example "uns" 0 ["3"; "so so"]]) ∧
  NoDup ["train-0"; "train-1"; "uns-0"] ∧ NoDup ["train-0"; "train-1"; "uns-0"].
Proof.
  split; [reflexivity|]. split; [reflexivity|].
  apply (train_and_unlabel_guids_differ [["1"; "good"]; ["5"; "great"]] [["3"; "so so"]]
    [row_example "train" 0 ["1"; "good"]; row_example "train" 1 ["5"; "great"]]
    [row_example "uns" 0 ["3"; "so so"]] [row_example "uns" 0 ["3"; "so so"]]);
    reflexivity.
Defined.

Lemma dev_examples_read_both_files_witness :
  (MLDProcessor.get_dev_examples [["1"; "good"]] [["3"; "so so"]]
     = read_examples "dev" 0 [["1"; "good"]] ∧
   CLYProcessor.get_dev_examples [["1"; "good"]] [["3"; "so so"]]
     = read_examples "dev" 0 [["3"; "so so"]]) ∧
  (MLDProcessor.get_dev_examples [["1"; "good"]] [["3"]] = Raise IndexError ∧
   CLYProcessor.get_dev_examples [["1"]] [["3"; "so so"]] = Raise IndexError).
Proof.
  split; [|split].
  - apply (dev_examples_read_both_files [["1"; "good"]] [["3"; "so so"]]).
    split; repeat constructor.
  - apply (dev_examples_read_both_files [["1"; "good"]] [["3"]]).
    intros (_&(Hrow&_)%Forall_cons). cbn in Hrow. lia.
  - apply (dev_examples_read_both_files [["1"]] [["3"; "so so"]]).
    intros ((Hrow&_)%Forall_cons&_). cbn in Hrow. lia.
Defined.
(** * Further facts about the perturbation engine *)


Section fgm_frame.
Context {tensor : Type} `{!TorchTensor tensor}.
Implicit Types (ps : list (string * Param tensor)) (bk : gmap string tensor).
Implicit Types (p : Param tensor) (self : FGM tensor).

Lemma restore_loop_Raise emb_name bk ps e :
  restore_loop emb_name bk ps = Raise e →
  e = AssertionError ∧
  ∃ name p, (name, p) ∈ ps ∧ targeted emb_name name p ∧ bk !! name = None.
Proof.
  induction ps as [|[name p] ps IH]; [done|]. cbn [restore_loop].
  unfold restore_param at 1. destruct (targeted emb_name name p) eqn:Ht.
  - destruct (bk !! name) as [t|] eqn:Hbk; cbn.
    + destruct (restore_loop emb_name bk ps) as [ps'|e'] eqn:Hloop; [done|].
      cbn. intros [= <-]. destruct (IH eq_refl) as (->&n&q&Hin&Hq&Hn).
      split; [done|]. exists n, q. split; [by right|done].
    + intros [= <-]. split; [done|]. exists name, p. rewrite Ht. split; [by left|done].
  - cbn. destruct (restore_loop emb_name bk ps) as [ps'|e'] eqn:Hloop; [done|].
    cbn. intros [= <-]. destruct (IH eq_refl) as (->&n&q&Hin&Hq&Hn).
    split; [done|]. exists n, q. split; [by right|done].
Qed.

(** X11. [attack] keeps every parameter in its place with its name, its
    [requires_grad] flag and its gradient; a parameter outside the filter
    keeps its value too.  In the backup it never removes an entry, and it
    leaves alone the entry of every name that no targeted parameter
    carries. *)
Theorem attack_frame epsilon emb_name self self' :
  attack epsilon emb_name self = Ok self' →
  Forall2 (λ np np',
      np'.1 = np.1 ∧ requires_grad np'.2 = requires_grad np.2 ∧
      grad np'.2 = grad np.2 ∧
      (targeted emb_name np.1 np.2 = false → np'.2 = np.2))
    (named_parameters self) (named_parameters self') ∧
  (∀ name, is_Some (backup self !! name) → is_Some (backup self' !! name)) ∧
  (∀ name,
     (∀ p, (name, p) ∈ named_parameters self → targeted emb_name name p = false) →
     backup self' !! name = backup self !! name).
Proof.
  destruct self as [ps bk]. unfold attack. cbn [named_parameters backup].
  intros ([ps' bk']&Hloop&[= <-])%bind_Ok. cbn [named_parameters backup].
  split_and!.
  - apply attack_loop_Ok in Hloop. eapply Forall2_impl; [done|].
    intros [n p] [n' p'] [Hn Hatt]. cbn [fst snd] in *. split; [done|].
    destruct (targeted emb_name n p).
    + destruct Hatt as (g&Hg&->). by destruct (usable_norm _).
    + by rewrite Hatt.
  - intros name Hs. rewrite (attack_loop_backup _ _ _ _ _ _ name Hloop).
    by destruct (last _).
  - intros name Hname. rewrite (attack_loop_backup _ _ _ _ _ _ name Hloop).
    destruct (last _) as [[n p]|] eqn:Hlast; [|done].
    apply last_Some_elem_of, list_elem_of_filter in Hlast as [[Hn Ht] Hin].
    cbn [fst snd] in *. subst n. rewrite (Hname p Hin) in Ht. done.
Qed.

(** X12. [attack] returns exactly when every targeted parameter has a
    gradient; the parameters outside the filter need none. *)
Theorem attack_returns_iff_gradients epsilon emb_name self :
  (∃ self', attack epsilon emb_name self = Ok self') ↔
  ∀ name p, (name, p) ∈ named_parameters self → targeted emb_name name p →
    is_Some (grad p).
Proof.
  destruct self as [ps bk]. unfold attack. cbn [named_parameters backup]. split.
  - intros (self'&([ps' bk']&Hloop&_)%bind_Ok) name p Hin Ht.
    apply attack_loop_Ok in Hloop.
    apply list_elem_of_lookup in Hin as [i Hi].
    destruct (Forall2_lookup_l _ _ _ _ _ Hloop Hi) as (np'&_&_&Hatt).
    cbn [fst snd] in Hatt. destruct (targeted emb_name name p); [|done].
    destruct Hatt as (g&->&_). eauto.
  - intros Hg. destruct (attack_loop_total epsilon emb_name ps bk Hg) as (ps'&bk'&->).
    cbn. eauto.
Qed.

(** X13. [restore] fails only through its assertion, and it does so
    exactly when some targeted parameter has no entry in the backup. *)
Theorem restore_asserts_iff_snapshot_missing emb_name self :
  (restore emb_name self = Raise AssertionError ↔
     ∃ name p, (name, p) ∈ named_parameters self ∧ targeted emb_name name p ∧
       backup self !! name = None) ∧
  (∀ e, restore emb_name self = Raise e → e = AssertionError).
Proof.
  destruct self as [ps bk]. unfold restore. cbn [named_parameters backup].
  destruct (restore_loop emb_name bk ps) as [ps'|e] eqn:Hloop; cbn.
  - split; [|done]. split; [done|]. intros (name&p&Hin&Ht&Hn).
    apply restore_loop_Ok in Hloop.
    apply list_elem_of_lookup in Hin as [i Hi].
    destruct (Forall2_lookup_l _ _ _ _ _ Hloop Hi) as (np'&_&_&Hres).
    cbn [fst snd] in Hres. destruct (targeted emb_name name p); [|done].
    destruct Hres as (t&Hbk&_). congruence.
  - apply restore_loop_Raise in Hloop as (->&Hex). split; [done|]. by intros e [= <-].
Qed.

(** X14. On an object whose backup is empty, as [__init__] and [restore]
    leave it, [restore] fails its assertion when some parameter is
    targeted, and otherwise returns the object as it is. *)
Theorem restore_on_empty_backup emb_name self :
  backup self = ∅ →
  restore emb_name self =
    if decide (Exists (λ np, targeted emb_name np.1 np.2) (named_parameters self))
    then Raise AssertionError else Ok self.
Proof.
  destruct self as [ps bk]. cbn [named_parameters backup]. intros ->.
  unfold restore. cbn [named_parameters backup].
  destruct (decide _) as [Hex|Hex].
  - destruct (restore_loop emb_name ∅ ps) as [ps'|e] eqn:Hloop; cbn.
    + apply restore_loop_Ok in Hloop.
      apply Exists_exists in Hex as ([name p]&Hin&Ht). cbn [fst snd] in Ht.
      apply list_elem_of_lookup in Hin as [i Hi].
      destruct (Forall2_lookup_l _ _ _ _ _ Hloop Hi) as (np'&_&_&Hres).
      cbn [fst snd] in Hres. destruct (targeted emb_name name p); [|done].
      by destruct Hres as (t&Hbk&_).
    + by apply restore_loop_Raise in Hloop as (->&_).
  - assert (Hloop : restore_loop emb_name ∅ ps = Ok ps); [|by rewrite Hloop].
    induction ps as [|[name p] ps IH]; [done|]. cbn [restore_loop].
    apply not_Exists_Forall in Hex; [|intros ?; apply _].
    apply Forall_cons in Hex as [Hp Hps]. cbn in Hp.
    unfold restore_param. destruct (targeted emb_name name p); [by destruct Hp|]. cbn.
    rewrite IH; [done|]. by apply Forall_not_Exists.
Qed.
End fgm_frame.

(** Two parameters: the embedding moves, the head (outside the filter,
    without gradient) stays. *)
Lemma attack_frame_witness :
  ∃ self', attack epsilon_default emb_name_default two_params = Ok self' ∧
    Forall2 (λ np np',
        np'.1 = np.1 ∧ requires_grad np'.2 = requires_grad np.2 ∧
        grad np'.2 = grad np.2 ∧
        (targeted emb_name_default np.1 np.2 = false → np'.2 = np.2))
      (named_parameters two_params) (named_parameters self') ∧
    (∀ name, is_Some (backup two_params !! name) → is_Some (backup self' !! name)) ∧
    (∀ name,
       (∀ p, (name, p) ∈ named_parameters two_params →
          targeted emb_name_default name p = false) →
       backup self' !! name = backup two_params !! name).
Proof.
  eexists. split; [vm_compute; reflexivity|].
  apply (attack_frame epsilon_default emb_name_default two_params).
  vm_compute. reflexivity.
Defined.

Lemma restore_on_empty_backup_witness :
  backup two_params = ∅ ∧
  restore emb_name_default two_params = Raise AssertionError ∧
  restore emb_name_default (FGM_init [(classifier_bias, head_param)])
    = Ok (FGM_init [(classifier_bias, head_param)]).
Proof.
  split; [reflexivity|]. split.
  - exact (restore_on_empty_backup emb_name_default two_params eq_refl).
  - exact (restore_on_empty_backup emb_name_default
      (FGM_init [(classifier_bias, head_param)]) eq_refl).
Defined.
(** * Further facts about the confidence ranker *)


Section ranker_extra.
Implicit Types (pool train : list ref) (ids : list nat) (id2conf : list (Z * float)).
Implicit Types (h : gmap ref InputFeatures) (w : world) (label_list : list string).

(** *** Failure *)

Lemma foldM_Raise {S A} (body : S → A → result S) (s : S) (l : list A) e :
  foldM body s l = Raise e → ∃ s' a, a ∈ l ∧ body s' a = Raise e.
Proof.
  revert s. induction l as [|a l IH]; intros s; [done|]. cbn [foldM].
  destruct (body s a) as [s1|e1] eqn:Hb; cbn.
  - intros (s'&a'&Hin&Hr)%IH. exists s', a'. split; [by right|done].
  - intros [= <-]. exists s, a. split; [by left|done].
Qed.

Lemma promote_Raise pool i st i2c e : promote pool i st i2c = Raise e → e = IndexError.
Proof. unfold promote. destruct (pool !! i2c.1); [done|]. by intros [= <-]. Qed.

Lemma class_step_Raise label2id pool num_k st i e :
  class_step label2id pool num_k st i = Raise e → e = IndexError.
Proof.
  unfold class_step. destruct (label2id !! Z.of_nat i); [|done].
  intros (s'&a&_&Hr)%foldM_Raise. by eapply promote_Raise.
Qed.

Lemma del_step_Raise l index e : del_step l index = Raise e → e = IndexError.
Proof. unfold del_step. destruct (decide _); [done|]. by intros [= <-]. Qed.

Lemma sort_Raise w train pool label_list id2conf num_k e :
  sort w train pool label_list id2conf num_k = Raise e → e = IndexError.
Proof.
  unfold sort.
  destruct (foldM (class_step _ _ _) _ _) as [st|e1] eqn:H1; cbn.
  - destruct (foldM del_step _ _) as [p|e2] eqn:H2; cbn; [done|].
    intros [= <-]. apply foldM_Raise in H2 as (s'&a&_&Hr). by eapply del_step_Raise.
  - intros [= <-]. apply foldM_Raise in H1 as (s'&a&_&Hr). by eapply class_step_Raise.
Qed.

(** *** Conservation *)

Lemma remaining_from_ext_from i ids ids' pool :
  (∀ j, i ≤ j → j ∈ ids ↔ j ∈ ids') →
  remaining_from i ids pool = remaining_from i ids' pool.
Proof.
  revert i. induction pool as [|x pool IH]; intros i Heq; cbn; [done|].
  rewrite (IH (S i)) by (intros j Hj; apply Heq; lia).
  destruct (decide (i ∈ ids)) as [Hi|Hi].
  - by rewrite decide_True by (by apply Heq).
  - by rewrite decide_False by (by rewrite <-Heq).
Qed.

Lemma remaining_from_sublist i ids pool : remaining_from i ids pool `sublist_of` pool.
Proof.
  revert i. induction pool as [|x pool IH]; intros i; cbn; [done|].
  destruct (decide _); [by apply sublist_cons|by apply sublist_skip].
Qed.

Lemma remaining_from_pick i j ids pool ex :
  j ∉ ids → i ≤ j → pool !! (j - i) = Some ex →
  remaining_from i ids pool ≡ₚ ex :: remaining_from i (j :: ids) pool.
Proof.
  intros Hj. revert i. induction pool as [|x pool IH]; intros i Hi Hlk; [done|].
  cbn [remaining_from]. destruct (decide (i = j)) as [->|Hne].
  - rewrite Nat.sub_diag in Hlk. injection Hlk as ->.
    rewrite decide_False by done. rewrite decide_True by left.
    rewrite (remaining_from_ext_from (S j) (j :: ids) ids); [done|].
    intros k Hk. rewrite elem_of_cons. split; [intros [->|?]; [lia|done]|by right].
  - replace (j - i) with (S (j - S i)) in Hlk by lia. cbn in Hlk.
    specialize (IH (S i) ltac:(lia) Hlk).
    destruct (decide (i ∈ ids)) as [Hin|Hin].
    + by rewrite decide_True by (by right).
    + rewrite decide_False by (by intros [?|?]%elem_of_cons).
      rewrite IH. apply Permutation_swap.
Qed.

Lemma gather_remaining_Permutation ids pool :
  NoDup ids → Forall (λ j, j < length pool) ids →
  gather pool ids ++ remaining_from 0 ids pool ≡ₚ pool.
Proof.
  induction ids as [|j ids IH]; intros Hnd Hb.
  - cbn. by rewrite remaining_from_none by (intros; apply not_elem_of_nil).
  - apply NoDup_cons in Hnd as [Hj Hnd]. apply Forall_cons in Hb as [Hjb Hb].
    destruct (lookup_lt_is_Some_2 pool j Hjb) as [ex Hex].
    unfold gather. cbn [omap list_omap]. rewrite Hex. fold (gather pool ids).
    cbn [app]. etrans; [|apply (IH Hnd Hb)].
    rewrite (remaining_from_pick 0 j ids pool ex) by (done || lia || by rewrite Nat.sub_0_r).
    apply Permutation_middle.
Qed.

(** *** Labels *)

Lemma lookup_foldl_alter (f : InputFeatures → InputFeatures) h (l : list ref) x :
  (∀ a, f (f a) = f a) →
  foldl (λ h ex, alter f ex h) h l !! x =
    if decide (x ∈ l) then f <$> h !! x else h !! x.
Proof.
  intros Hf. revert h. induction l as [|y l IH]; intros h; cbn [foldl].
  - by rewrite decide_False by apply not_elem_of_nil.
  - rewrite IH. destruct (decide (x = y)) as [->|Hne].
    + rewrite lookup_alter_eq, (decide_True _ _ (list_elem_of_here _ _)).
      destruct (decide _); [|done]. destruct (h !! y); cbn; [by rewrite Hf|done].
    + rewrite lookup_alter_ne by done.
      destruct (decide (x ∈ l)) as [Hin|Hin].
      * by rewrite decide_True by (by right).
      * by rewrite decide_False by (by intros [?|?]%elem_of_cons).
Qed.

Lemma lookup_relabel pool h i js x :
  relabel pool h i js !! x =
    if decide (x ∈ gather pool js) then set_label_id (Z.of_nat i) <$> h !! x else h !! x.
Proof. unfold relabel. by apply lookup_foldl_alter. Qed.

Lemma relabel_all_S pool id2conf num_k h n :
  relabel_all pool id2conf num_k h (S n) =
    relabel pool (relabel_all pool id2conf num_k h n) n (selected id2conf num_k n).
Proof. unfold relabel_all. by rewrite seq_S, foldl_app. Qed.

Lemma lookup_relabel_all_other pool id2conf num_k h n x :
  (∀ i, i < n → x ∉ gather pool (selected id2conf num_k i)) →
  relabel_all pool id2conf num_k h n !! x = h !! x.
Proof.
  induction n as [|n IH]; intros Hx; [done|].
  rewrite relabel_all_S, lookup_relabel, decide_False by (apply Hx; lia).
  apply IH. intros i Hi. apply Hx. lia.
Qed.

Lemma lookup_relabel_all_class pool id2conf num_k h n x i :
  i < n → x ∈ gather pool (selected id2conf num_k i) →
  (∀ i', i' < n → i' ≠ i → x ∉ gather pool (selected id2conf num_k i')) →
  relabel_all pool id2conf num_k h n !! x = set_label_id (Z.of_nat i) <$> h !! x.
Proof.
  induction n as [|n IH]; intros Hi Hx Hother; [lia|].
  rewrite relabel_all_S, lookup_relabel. destruct (decide (i = n)) as [->|Hne].
  - rewrite decide_True by done. rewrite lookup_relabel_all_other; [done|].
    intros i' Hi'. apply Hother; lia.
  - rewrite decide_False by (apply Hother; lia).
    apply IH; [lia|done|]. intros i' Hi' Hne'. apply Hother; [lia|done].
Qed.

Lemma sort_Ok_eq w train pool label_list id2conf num_k w' train' pool' :
  sort w train pool label_list id2conf num_k = Ok (w', (train', pool')) →
  let ids := promoted id2conf num_k (length label_list) in
  Forall (λ j, j < length pool) ids ∧
  w' = {| heap := relabel_all pool id2conf num_k (heap w) (length label_list);
          stdout := stdout w ++ diagnostics id2conf (length label_list) |} ∧
  train' = train ++ gather pool ids ∧ pool' = remaining_from 0 ids pool.
Proof.
  intros Hret ids. pose proof (sort_Ok_inv _ _ _ _ _ _ _ Hret) as Hin.
  destruct (sort_Ok w train pool label_list id2conf num_k Hin) as [Hs _].
  rewrite Hs in Hret. by injection Hret as <- <- <-.
Qed.

Lemma selected_class pool id2conf num_k n ex :
  NoDup pool →
  ex ∈ gather pool (promoted id2conf num_k n) →
  ∃ j i c, pool !! j = Some ex ∧ id2conf !! j = Some (Z.of_nat i, c) ∧ i < n ∧
    j ∈ selected id2conf num_k i ∧
    ∀ i', i' ≠ i → ex ∉ gather pool (selected id2conf num_k i').
Proof.
  intros Hnd (j&(i&Hi&Hj)%elem_of_promoted&Hlk)%elem_of_gather.
  destruct (elem_of_selected _ _ _ _ Hj) as [c Hc].
  exists j, i, c. split_and!; try done.
  intros i' Hne (j'&Hj'&Hlk')%elem_of_gather.
  rewrite (NoDup_lookup _ _ _ _ Hnd Hlk' Hlk) in Hj'.
  destruct (elem_of_selected _ _ _ _ Hj') as [c' Hc']. rewrite Hc in Hc'.
  injection Hc' as Heq _. lia.
Qed.

(** X15. [sort] fails with no other exception than [IndexError], and
    only when a confidence record whose position lies outside the
    unlabeled pool predicts a class of the vocabulary. *)
Theorem sort_fails_only_outside_pool w train pool label_list id2conf num_k e :
  sort w train pool label_list id2conf num_k = Raise e →
  e = IndexError ∧
  ∃ j i c, id2conf !! j = Some (Z.of_nat i, c) ∧ i < length label_list ∧
    length pool ≤ j.
Proof.
  intros Hr. split; [by eapply sort_Raise|].
  destruct (decide (Forall (λ j, j < length pool)
    (promoted id2conf num_k (length label_list)))) as [Hin|Hout].
  { destruct (sort_Ok w train pool label_list id2conf num_k Hin) as [Hs _]. congruence. }
  apply not_Forall_Exists in Hout; [|intros ?; apply _].
  apply Exists_exists in Hout as (j&(i&Hi&Hj)%elem_of_promoted&Hge).
  destruct (elem_of_selected _ _ _ _ Hj) as [c Hc]. exists j, i, c. cbn in Hge.
  split_and!; [done..|lia].
Qed.

(** X16. A call of [sort] that returns only moves examples: the labeled
    pool is the old one with the moved examples appended, the unlabeled
    pool keeps the order it had, and the moved examples together with
    those that stay are the old unlabeled pool, each as often as before. *)
Theorem sort_conserves_examples w train pool label_list id2conf num_k w' train' pool' :
  sort w train pool label_list id2conf num_k = Ok (w', (train', pool')) →
  ∃ moved, train' = train ++ moved ∧ moved ++ pool' ≡ₚ pool ∧ pool' `sublist_of` pool.
Proof.
  intros (Hin&_&->&->)%sort_Ok_eq. eexists. split; [done|]. split.
  - apply gather_remaining_Permutation; [apply promoted_NoDup|done].
  - apply remaining_from_sublist.
Qed.

(** X17. When no example occurs twice in the unlabeled pool, [sort]
    gives every example it moves the class that its confidence record
    predicts, a class of the vocabulary, and changes nothing else of it;
    every other object is as before. *)
Theorem sort_labels_moved_examples w train pool label_list id2conf num_k w' train' pool' :
  sort w train pool label_list id2conf num_k = Ok (w', (train', pool')) →
  NoDup pool →
  (∀ ex, ex ∈ drop (length train) train' →
     ∃ j i c, pool !! j = Some ex ∧ id2conf !! j = Some (Z.of_nat i, c) ∧
       i < length label_list ∧
       heap w' !! ex = set_label_id (Z.of_nat i) <$> heap w !! ex) ∧
  (∀ ex, ex ∉ drop (length train) train' → heap w' !! ex = heap w !! ex).
Proof.
  intros (Hin&->&->&->)%sort_Ok_eq Hnd. rewrite drop_app_length. cbn [heap]. split.
  - intros ex (j&i&c&Hlk&Hc&Hi&Hj&Hother)%selected_class; [|done].
    exists j, i, c. split_and!; try done.
    apply lookup_relabel_all_class; [done| |by intros i' _ Hne; apply Hother].
    apply elem_of_gather. eauto.
  - intros ex Hex. apply lookup_relabel_all_other.
    intros i Hi (j&Hj&Hlk)%elem_of_gather. apply Hex, elem_of_gather.
    exists j. split; [|done]. apply elem_of_promoted. eauto.
Qed.

(** X18. Among the examples predicted to be of one class, those that
    [sort] moves are the most confident: when the scores of the class are
    numbers and no example occurs twice in the unlabeled pool, an example
    that stays has a score that is at most the score of any that moved. *)
Theorem sort_moves_most_confident
    w train pool label_list id2conf num_k w' train' pool' j j' ex ex' lab c c' :
  sort w train pool label_list id2conf num_k = Ok (w', (train', pool')) →
  NoDup pool →
  (∀ k conf, id2conf !! k = Some (lab, conf) → ¬ PyFloat.nan conf) →
  pool !! j = Some ex → id2conf !! j = Some (lab, c) →
  pool !! j' = Some ex' → id2conf !! j' = Some (lab, c') →
  ex ∈ drop (length train) train' → ex' ∈ pool' →
  PyFloat.le c' c.
Proof.
  intros (Hin&_&->&->)%sort_Ok_eq Hnd Hnum Hj Hc Hj' Hc'.
  rewrite drop_app_length.
  intros (j0&i&c0&Hlk0&Hc0&Hi&Hsel&_)%selected_class; [|done].
  rewrite (NoDup_lookup _ _ _ _ Hnd Hlk0 Hj) in Hc0, Hsel. clear j0 Hlk0.
  rewrite Hc in Hc0. injection Hc0 as -> <-.
  intros (k&Hk&Hnot)%elem_of_remaining_from. cbn in Hnot.
  rewrite (NoDup_lookup _ _ _ _ Hnd Hk Hj') in Hnot. clear k Hk.
  assert (Hnsel : j' ∉ selected id2conf num_k i).
  { intros Hs. apply Hnot, elem_of_promoted. eauto. }
  pose proof (sorted_candidates_descending id2conf (Z.of_nat i) Hnum) as Hsorted.
  apply (elem_of_sorted_candidates id2conf) in Hc, Hc'.
  revert Hsel Hnsel. unfold selected.
  destruct (slice_to_take (sorted_rev conf_lt (candidates 0 id2conf (Z.of_nat i))) num_k)
    as [n ->].
  set (l := sorted_rev conf_lt (candidates 0 id2conf (Z.of_nat i))) in *.
  intros ([j0 c0]&Heq&Hsel)%list_elem_of_fmap Hnsel. cbn in Heq. subst j0.
  assert (c0 = c) as ->.
  { apply subseteq_take in Hsel. apply elem_of_sorted_candidates in Hsel, Hc. congruence. }
  rewrite <-(take_drop n l) in Hsorted, Hc'.
  apply elem_of_app in Hc' as [Hc'|Hc'].
  { destruct Hnsel. apply list_elem_of_fmap. by exists (j', c'). }
  apply StronglySorted_app in Hsorted as (Hcross&_&_).
  apply (Hcross (j, c) (j', c') Hsel Hc').
Qed.

Lemma selected_zero id2conf i : selected id2conf 0 i = [].
Proof. unfold selected. by rewrite slice_to_nonneg. Qed.

Lemma promoted_zero id2conf n : promoted id2conf 0 n = [].
Proof.
  apply elem_of_nil_inv. intros j (i&_&Hj)%elem_of_promoted.
  rewrite selected_zero in Hj. by apply elem_of_nil in Hj.
Qed.

(** X19. With [num_k = 0] [sort] returns for every input and moves
    nothing: both pools and all objects are as before; only the lines for
    the classes without candidates are printed. *)
Theorem sort_zero_moves_nothing w train pool label_list id2conf :
  sort w train pool label_list id2conf 0 =
    Ok ({| heap := heap w; stdout := stdout w ++ diagnostics id2conf (length label_list) |},
        (train, pool)).
Proof.
  destruct (sort_Ok w train pool label_list id2conf 0) as [-> _].
  { by rewrite promoted_zero. }
  rewrite promoted_zero. cbn [gather omap list_omap]. rewrite app_nil_r.
  rewrite remaining_from_none by (intros; apply not_elem_of_nil).
  do 3 f_equal. apply map_eq. intros x. apply lookup_relabel_all_other.
  intros i _. rewrite selected_zero. apply not_elem_of_nil.
Qed.
End ranker_extra.

Lemma sort_scenario_run :
  sort scenario_world scenario_train scenario_pool scenario_labels scenario_records 1 =
    Ok (scenario_after, ([100; 101; 10; 14; 13], [11; 12])).
Proof. vm_compute. reflexivity. Qed.

Lemma scenario_pool_NoDup : NoDup scenario_pool.
Proof. apply (bool_decide_unpack _). vm_compute. exact I. Qed.

Lemma sort_fails_only_outside_pool_witness :
  sort scenario_world [] [10] scenario_labels twice_records 2 = Raise IndexError ∧
  ∃ j i c, twice_records !! j = Some (Z.of_nat i, c) ∧ i < length scenario_labels ∧
    length [10] ≤ j.
Proof.
  split; [vm_compute; reflexivity|].
  apply (sort_fails_only_outside_pool scenario_world [] [10] scenario_labels
    twice_records 2 IndexError).
  vm_compute. reflexivity.
Defined.

Lemma sort_conserves_examples_witness :
  sort scenario_world scenario_train scenario_pool scenario_labels scenario_records 1 =
    Ok (scenario_after, ([100; 101; 10; 14; 13], [11; 12])) ∧
  ∃ moved, [100; 101; 10; 14; 13] = scenario_train ++ moved ∧
    moved ++ [11; 12] ≡ₚ scenario_pool ∧ [11; 12] `sublist_of` scenario_pool.
Proof.
  split; [exact sort_scenario_run|].
  apply (sort_conserves_examples scenario_world scenario_train scenario_pool
    scenario_labels scenario_records 1 scenario_after).
  exact sort_scenario_run.
Defined.

Lemma sort_labels_moved_examples_witness :
  sort scenario_world scenario_train scenario_pool scenario_labels scenario_records 1 =
    Ok (scenario_after, ([100; 101; 10; 14; 13], [11; 12])) ∧
  NoDup scenario_pool ∧
  (∀ ex, ex ∈ drop (length scenario_train) [100; 101; 10; 14; 13] →
     ∃ j i c, scenario_pool !! j = Some ex ∧
       scenario_records !! j = Some (Z.of_nat i, c) ∧
       i < length scenario_labels ∧
       heap scenario_after !! ex = set_label_id (Z.of_nat i) <$> heap scenario_world !! ex) ∧
  (∀ ex, ex ∉ drop (length scenario_train) [100; 101; 10; 14; 13] →
     heap scenario_after !! ex = heap scenario_world !! ex).
Proof.
  split; [exact sort_scenario_run|]. split; [exact scenario_pool_NoDup|].
  apply (sort_labels_moved_examples scenario_world scenario_train scenario_pool
    scenario_labels scenario_records 1 scenario_after _ [11; 12]).
  - exact sort_scenario_run.
  - exact scenario_pool_NoDup.
Defined.

(** Class 1 of the scenario: the record at index 4 (score 0.6) moves, the
    record at index 2 (score 0.5) stays. *)
Lemma sort_moves_most_confident_witness :
  sort scenario_world scenario_train scenario_pool scenario_labels scenario_records 1 =
    Ok (scenario_after, ([100; 101; 10; 14; 13], [11; 12])) ∧
  scenario_pool !! 4 = Some 14 ∧ scenario_records !! 4 = Some (1%Z, 0.6%float) ∧
  scenario_pool !! 2 = Some 12 ∧ scenario_records !! 2 = Some (1%Z, 0.5%float) ∧
  PyFloat.le 0.5 0.6.
Proof.
  split; [exact sort_scenario_run|]. do 4 (split; [reflexivity|]).
  apply (sort_moves_most_confident scenario_world scenario_train scenario_pool
    scenario_labels scenario_records 1 scenario_after [100; 101; 10; 14; 13] [11; 12]
    4 2 14 12 1%Z 0.6%float 0.5%float).
  - exact sort_scenario_run.
  - exact scenario_pool_NoDup.
  - intros k conf Hk. unfold scenario_records in Hk.
    do 5 (destruct k as [|k]; [cbn in Hk; first [discriminate Hk|
      injection Hk as <-; unfold PyFloat.nan; vm_compute; discriminate]|]).
    discriminate Hk.
  - reflexivity.
  - reflexivity.
  - reflexivity.
  - reflexivity.
  - cbn. right. left.
  - right. left.
Defined.


Section negative_k.
Implicit Types (pool train : list ref) (id2conf : list (Z * float)).

Lemma selected_length_negative id2conf num_k i :
  (num_k < 0)%Z →
  length (selected id2conf num_k i) =
    Z.to_nat (Z.of_nat (length (filter (λ item : Z * float, item.1 = Z.of_nat i) id2conf))
              + num_k).
Proof.
  intros Hk. unfold selected, slice_to. rewrite (proj2 (Z.ltb_lt num_k 0) Hk).
  rewrite length_fmap, length_take, sorted_rev_length, candidates_length. lia.
Qed.

Lemma sum_list_app_nat (l k : list nat) : sum_list (l ++ k) = sum_list l + sum_list k.
Proof. induction l as [|x l IH]; cbn; [done|]. rewrite IH. lia. Qed.

Lemma promoted_length_sum id2conf num_k n :
  length (promoted id2conf num_k n) =
    sum_list ((λ i, length (selected id2conf num_k i)) <$> seq 0 n).
Proof.
  induction n as [|n IH]; [done|].
  rewrite promoted_S, length_app, IH, seq_S, fmap_app, sum_list_app_nat. cbn. lia.
Qed.

(** X26. A negative [num_k] does not make [sort] fail: the slice
    [sorted_i2cs[:num_k]] then holds all candidates of a class but the
    [-num_k] least confident ones, so the labeled pool grows, class by
    class, by the number of candidates less [-num_k] (by nothing when a
    class has no more than [-num_k] candidates). *)
Theorem sort_negative_num_k w train pool label_list id2conf num_k w' train' pool' :
  sort w train pool label_list id2conf num_k = Ok (w', (train', pool')) →
  (num_k < 0)%Z →
  length train' =
    length train +
    sum_list ((λ i,
      Z.to_nat (Z.of_nat (length (filter (λ item : Z * float, item.1 = Z.of_nat i) id2conf))
                + num_k)) <$> seq 0 (length label_list)).
Proof.
  intros (Hin&_&->&_)%sort_Ok_eq Hk.
  rewrite length_app, gather_length, promoted_length_sum by done. do 2 f_equal.
  apply list_fmap_ext. intros _ i _. by apply selected_length_negative.
Qed.
End negative_k.

(** Class 0 and class 1 of the scenario have two candidates each, class 3
    has one: with [num_k = -1] one example of class 0 and one of class 1
    move. *)
Lemma sort_negative_num_k_witness :
  ∃ w', sort scenario_world scenario_train scenario_pool scenario_labels
          scenario_records (-1) = Ok (w', ([100; 101; 10; 14], [11; 12; 13])) ∧
    length [100; 101; 10; 14] = length scenario_train + 2.
Proof.
  eexists. split; [vm_compute; reflexivity|].
  eapply (sort_negative_num_k scenario_world scenario_train scenario_pool scenario_labels
    scenario_records (-1) _ [100; 101; 10; 14] [11; 12; 13]); [|lia].
  vm_compute. reflexivity.
Defined.
(** * Facts about the checkpoint *)


Section checkpoint_facts.
Context {state_dict : Type}.
Implicit Types (st : train_state state_dict) (ep : epoch_result state_dict).
Implicit Types (epochs : list (epoch_result state_dict)).
Implicit Types (rounds : list (list (epoch_result state_dict))).

Lemma float_not_lt_mono b b' acc :
  PyFloat.le b b' → ¬ PyFloat.lt b acc → ¬ PyFloat.lt b' acc.
Proof.
  intros Hle Hn Hlt. apply (float_le_not_lt acc b'); [|done].
  eapply float_le_trans; [|done].
  apply float_not_lt_le; [by eapply float_le_not_nan_l|by eapply float_lt_not_nan_r|done].
Qed.

Lemma train_cons st ep epochs : train st (ep :: epochs) = train (epoch_end st ep) epochs.
Proof. done. Qed.

Lemma train_no_exceed st epochs :
  Forall (λ ep, ¬ PyFloat.lt (best_acc st) (eval_accuracy ep)) epochs →
  train st epochs = st.
Proof.
  induction 1 as [|ep epochs Hep _ IH]; [done|]. rewrite train_cons.
  destruct (epoch_end_cases st ep) as [[Hlt _]|[_ ->]]; [done|]. exact IH.
Qed.

Lemma train_best_from st epochs :
  best_acc (train st epochs) = best_acc st ∨
  ∃ ep, ep ∈ epochs ∧ best_acc (train st epochs) = eval_accuracy ep.
Proof.
  revert st. induction epochs as [|ep epochs IH]; intros st; [by left|].
  rewrite train_cons. destruct (IH (epoch_end st ep)) as [->|(ep'&Hin&->)].
  - destruct (epoch_end_cases st ep) as [[_ ->]|[_ ->]]; [|by left].
    right. exists ep. split; [left|done].
  - right. exists ep'. split; [by right|done].
Qed.

Lemma train_file_kept st epochs :
  is_Some (output_model_file st) → is_Some (output_model_file (train st epochs)).
Proof.
  revert st. induction epochs as [|ep epochs IH]; intros st Hs; [done|].
  rewrite train_cons. apply IH.
  destruct (epoch_end_cases st ep) as [[_ ->]|[_ ->]]; [by eexists|done].
Qed.

(** X20. The watermark that [train] returns is the largest value met:
    no accuracy of the call exceeds it, and it is the watermark the call
    was given or the accuracy of one of its epochs. *)
Theorem train_returns_maximum st epochs :
  ¬ PyFloat.nan (best_acc st) →
  Forall (λ ep, ¬ PyFloat.lt (best_acc (train st epochs)) (eval_accuracy ep)) epochs ∧
  (best_acc (train st epochs) = best_acc st ∨
   ∃ ep, ep ∈ epochs ∧ best_acc (train st epochs) = eval_accuracy ep).
Proof.
  intros Hn. split; [|apply train_best_from].
  revert st Hn. induction epochs as [|ep epochs IH]; intros st Hn; [constructor|].
  rewrite train_cons. destruct (epoch_end_le st ep Hn) as [Hle Hn'].
  constructor; [|by apply IH].
  destruct (train_le (epoch_end st ep) epochs Hn') as [Hle' _].
  apply (float_not_lt_mono (best_acc (epoch_end st ep))); [done|].
  destruct (epoch_end_cases st ep) as [[Hlt ->]|[Hnlt ->]]; [|done]. cbn.
  apply float_le_not_lt, float_le_refl. by eapply float_lt_not_nan_r.
Qed.

(** X21. After [train] the checkpoint file is the one of the first epoch
    whose accuracy is the highest of the call, provided that accuracy
    exceeds the watermark the call was given; when no epoch exceeds that
    watermark the call changes neither the watermark nor the file. *)
Theorem checkpoint_is_first_best_epoch st epochs :
  ¬ PyFloat.nan (best_acc st) →
  (Forall (λ ep, ¬ PyFloat.lt (best_acc st) (eval_accuracy ep)) epochs →
     train st epochs = st) ∧
  (∀ k ep,
     epochs !! k = Some ep →
     PyFloat.lt (best_acc st) (eval_accuracy ep) →
     (∀ k' ep', k' < k → epochs !! k' = Some ep' →
        PyFloat.lt (eval_accuracy ep') (eval_accuracy ep)) →
     (∀ ep', ep' ∈ epochs → ¬ PyFloat.lt (eval_accuracy ep) (eval_accuracy ep')) →
     train st epochs =
       {| best_acc := eval_accuracy ep; output_model_file := Some (model_state ep) |}).
Proof.
  intros Hn. split; [apply train_no_exceed|].
  intros k ep Hk Hlt Hfirst Hmax.
  rewrite <-(take_drop_middle _ _ _ Hk), train_app, train_cons.
  set (st1 := train st (take k epochs)).
  assert (Hlt1 : PyFloat.lt (best_acc st1) (eval_accuracy ep)).
  { destruct (train_best_from st (take k epochs)) as [Heq|(ep'&Hin&Heq)];
      fold st1 in Heq; rewrite Heq; [done|].
    apply list_elem_of_lookup in Hin as [k' Hk'].
    pose proof (lookup_lt_Some _ _ _ Hk') as Hlen. rewrite length_take in Hlen.
    rewrite lookup_take_lt in Hk' by lia. apply (Hfirst k'); [lia|done]. }
  destruct (epoch_end_cases st1 ep) as [[_ ->]|[Hnlt _]]; [|done].
  apply train_no_exceed. cbn. apply Forall_forall. intros ep' Hin. apply Hmax.
  rewrite <-(take_drop_middle _ _ _ Hk). apply elem_of_app. right. by right.
Qed.

Lemma train_file_None st epochs :
  output_model_file st = None →
  output_model_file (train st epochs) = None ↔
  Forall (λ ep, ¬ PyFloat.lt (best_acc st) (eval_accuracy ep)) epochs.
Proof.
  intros Hfile. split; [|by intros ->%train_no_exceed].
  revert st Hfile. induction epochs as [|ep epochs IH]; intros st Hfile; [constructor|].
  rewrite train_cons. destruct (epoch_end_cases st ep) as [[_ Heq]|[Hnlt Heq]]; rewrite Heq.
  - intros Hnone. destruct (train_file_kept
      {| best_acc := eval_accuracy ep; output_model_file := Some (model_state ep) |}
      epochs) as [? Hs]; [by eexists|]. congruence.
  - intros Hnone. constructor; [done|by apply IH].
Qed.

Lemma run_rounds_last st rounds a b :
  last (run_rounds st rounds) = Some (a, b) → b = train st (concat rounds).
Proof.
  revert st. induction rounds as [|epochs rounds IH]; intros st; [done|].
  cbn [run_rounds concat]. rewrite train_app. destruct rounds as [|epochs' rounds].
  - cbn. by intros [= _ <-].
  - intros Hl. apply IH. exact Hl.
Qed.

(** X22. A run of [main] that starts without a checkpoint file ends
    without one exactly when no epoch of any round had an accuracy above
    [0]; this is the file that [main] loads after the rounds. *)
Theorem main_writes_checkpoint_iff rounds a b :
  last (main_rounds None rounds) = Some (a, b) →
  output_model_file b = None ↔
  Forall (λ ep, ¬ PyFloat.lt 0 (eval_accuracy ep)) (concat rounds).
Proof.
  unfold main_rounds. intros ->%run_rounds_last. by apply train_file_None.
Qed.
End checkpoint_facts.

Lemma train_returns_maximum_witness :
  Forall (λ ep, ¬ PyFloat.lt (best_acc (train fresh_run four_epochs)) (eval_accuracy ep))
    four_epochs ∧
  (best_acc (train fresh_run four_epochs) = best_acc fresh_run ∨
   ∃ ep, ep ∈ four_epochs ∧ best_acc (train fresh_run four_epochs) = eval_accuracy ep).
Proof. apply (train_returns_maximum fresh_run four_epochs). exact zero_not_nan. Defined.

(** The epochs 2 and 3 tie at the highest accuracy: the file is the one
    of epoch 2. *)
Lemma checkpoint_is_first_best_epoch_witness :
  four_epochs !! 2 = Some (scored 0.6 2) ∧
  train fresh_run four_epochs = {| best_acc := 0.6; output_model_file := Some 2 |} ∧
  train {| best_acc := 0.7; output_model_file := Some 9 |} four_epochs
    = {| best_acc := 0.7; output_model_file := Some 9 |}.
Proof.
  split; [reflexivity|]. split.
  - apply (proj2 (checkpoint_is_first_best_epoch fresh_run four_epochs zero_not_nan)
      2 (scored 0.6 2)).
    + reflexivity.
    + reflexivity.
    + intros k' ep' Hk' Hlk. unfold four_epochs in Hlk.
      destruct k' as [|[|k']]; [| |lia]; injection Hlk as <-; reflexivity.
    + intros ep' Hin. unfold four_epochs in Hin.
      repeat (apply elem_of_cons in Hin as [->|Hin];
        [unfold PyFloat.lt; vm_compute; discriminate|]).
      by apply elem_of_nil in Hin.
  - apply (proj1 (checkpoint_is_first_best_epoch
      {| best_acc := 0.7; output_model_file := Some 9 |} four_epochs
      ltac:(unfold PyFloat.nan; vm_compute; discriminate))).
    unfold four_epochs. repeat constructor; unfold PyFloat.lt; vm_compute; discriminate.
Defined.

(** Two rounds whose accuracies are all [0]: nothing is saved. *)
Lemma main_writes_checkpoint_iff_witness :
  last (main_rounds None [[scored 0 0]; [scored 0 1]]) = Some (fresh_run, fresh_run) ∧
  (output_model_file fresh_run = None ↔
   Forall (λ ep, ¬ PyFloat.lt 0 (eval_accuracy ep))
     (concat [[scored 0 0]; [scored 0 1]])).
Proof.
  split; [reflexivity|].
  apply (main_writes_checkpoint_iff [[scored 0 0]; [scored 0 1]] fresh_run fresh_run).
  reflexivity.
Defined.
(** * From the files to the features *)


Section pipeline.
Context `{Tokenizer}.
Implicit Types (lines : list (list string)) (label_list : list string).

Lemma known_label_row label_list set_type i line :
  known_label label_list (row_example set_type i line) ↔
  ∃ l, line !! 0 = Some l ∧ l ∈ label_list.
Proof. done. Qed.

Lemma Forall_known_rows label_list set_type i lines :
  Forall (known_label label_list)
    (imap (λ k line, row_example set_type (i + k) line) lines) ↔
  Forall (λ line, ∃ l, line !! 0 = Some l ∧ l ∈ label_list) lines.
Proof.
  rewrite !Forall_lookup. split.
  - intros Hall k line Hk.
    apply (proj1 (known_label_row label_list set_type (i + k) line)).
    apply (Hall k (row_example set_type (i + k) line)). by rewrite list_lookup_imap, Hk.
  - intros Hall k e. rewrite list_lookup_imap.
    destruct (lines !! k) as [line|] eqn:Hk; [|done]. intros [= <-].
    apply (proj2 (known_label_row label_list set_type (i + k) line)). by eapply Hall.
Qed.

(** X23. The unlabeled file goes through the same encoding as the
    training file: with a tokenizer that gives one id for each token and
    room for the markers, the examples of [get_unlabel_examples] are
    encoded when the first field of every row is one of the labels of
    the task, each feature carrying the position of that field in
    [get_labels()], and [KeyError] is raised otherwise. *)
Theorem unlabeled_rows_need_known_labels lines src_examples trg_examples max_seq_length :
  ids_per_token → (3 ≤ max_seq_length)%Z →
  CLYProcessor.get_unlabel_examples lines = Ok (src_examples, trg_examples) →
  let labelled := Forall (λ line : list string,
    ∃ l, line !! 0 = Some l ∧ l ∈ CLYProcessor.get_labels) lines in
  (labelled →
     ∃ features,
       convert_examples_to_features src_examples CLYProcessor.get_labels max_seq_length
         = Return features ∧
       Forall2 (λ line f, ∃ i,
           CLYProcessor.get_labels !! i = line !! 0 ∧ label_id f = Z.of_nat i)
         lines features) ∧
  (¬ labelled →
     convert_examples_to_features src_examples CLYProcessor.get_labels max_seq_length
       = Throw KeyError).
Proof.
  intros Hids Hmax Hread labelled.
  unfold CLYProcessor.get_unlabel_examples in Hread.
  apply bind_Ok in Hread as (examples&Hread&[= <- <-]).
  apply read_examples_inv in Hread as [Hrows ->].
  unfold convert_examples_to_features.
  pose proof (convert_loop_cases CLYProcessor.get_labels max_seq_length
    (imap (λ k line, row_example "uns" (0 + k) line) lines) Hids Hmax) as Hcases.
  split.
  - intros Hl. rewrite decide_True in Hcases by (by apply Forall_known_rows).
    destruct Hcases as [features Hret]. exists features. split; [done|].
    apply convert_loop_Return in Hret.
    pose proof (Forall2_length _ _ _ Hret) as Hlen. rewrite length_imap in Hlen.
    apply Forall2_same_length_lookup_2; [done|]. intros k line f Hk Hf.
    assert (Hex : imap (λ k line, row_example "uns" (0 + k) line) lines !! k
      = Some (row_example "uns" (0 + k) line)) by (by rewrite list_lookup_imap, Hk).
    pose proof (Forall2_lookup_lr _ _ _ _ _ _ Hret Hex Hf) as Hconv.
    apply convert_example_inv in Hconv as (a&b&_&Henc).
    apply encode_tokens_inv in Henc as (l&i&Hl0&[Hi _]%label_map_Some&Hid&_).
    exists i. cbn in Hl0. by rewrite Hl0.
  - intros Hn. by rewrite decide_False in Hcases by (by rewrite Forall_known_rows).
Qed.
End pipeline.

Lemma unlabeled_rows_need_known_labels_witness :
  (3 ≤ 6)%Z ∧
  CLYProcessor.get_unlabel_examples [["3"; "so so"]; ["5"; "great"]] =
    Ok (imap (row_example "uns") [["3"; "so so"]; ["5"; "great"]],
        imap (row_example "uns") [["3"; "so so"]; ["5"; "great"]]) ∧
  ∃ features,
    convert_examples_to_features
      (imap (row_example "uns") [["3"; "so so"]; ["5"; "great"]])
      CLYProcessor.get_labels 6 = Return features ∧
    Forall2 (λ line f, ∃ i,
        CLYProcessor.get_labels !! i = line !! 0 ∧ label_id f = Z.of_nat i)
      [["3"; "so so"]; ["5"; "great"]] features.
Proof.
  split; [lia|]. split; [reflexivity|].
  apply (unlabeled_rows_need_known_labels [["3"; "so so"]; ["5"; "great"]]
    (imap (row_example "uns") [["3"; "so so"]; ["5"; "great"]])
    (imap (row_example "uns") [["3"; "so so"]; ["5"; "great"]]) 6
    word_tokenizer_ids_per_token); [lia|reflexivity|].
  repeat (apply Forall_cons; split; [eexists; split; [reflexivity|];
    apply (bool_decide_eq_true_1 (_ ∈ _)); vm_compute; reflexivity|]).
  apply Forall_nil_2.
Defined.
(** * The first update and the number of updates *)


Section first_step.
Import PyFloat.

Lemma float_zero_div w : lt 0 w → (0 / w = 0)%float.
Proof.
  unfold lt. rewrite ltb_spec. intros Hw. apply Prim2SF_inj. rewrite div_spec.
  change (Prim2SF 0) with (S754_zero false) in *.
  by destruct (Prim2SF w) as [sw|[]| |[] mw ew].
Qed.

Lemma float_mul_zero lr : lt 0 lr → lt lr infinity → (lr * 0 = 0)%float.
Proof.
  unfold lt. rewrite !ltb_spec. intros H0 Hi. apply Prim2SF_inj. rewrite mul_spec.
  change (Prim2SF 0) with (S754_zero false) in *.
  change (Prim2SF infinity) with (S754_infinity false) in *.
  by destruct (Prim2SF lr) as [sw|[]| |[] mw ew].
Qed.

(** X24. At progress [0], where [args.global_step] starts in every
    round, the rate installed for the first update is [0] for every
    positive warmup proportion and every positive finite learning rate. *)
Theorem first_update_has_rate_zero learning_rate warmup_proportion :
  lt 0 warmup_proportion → lt 0 learning_rate → lt learning_rate infinity →
  warmup_linear 0 warmup_proportion = 0%float ∧
  lr_this_step learning_rate 0 warmup_proportion = 0%float.
Proof.
  intros Hw H0 Hi. unfold lr_this_step.
  rewrite warmup_linear_ramp by done. rewrite float_zero_div by done.
  split; [done|by apply float_mul_zero].
Qed.
End first_step.

Lemma first_update_has_rate_zero_witness :
  PyFloat.lt 0 warmup_default ∧ PyFloat.lt 0 5e-5 ∧ PyFloat.lt 5e-5 infinity ∧
  warmup_linear 0 warmup_default = 0%float ∧
  lr_this_step 5e-5 0 warmup_default = 0%float.
Proof.
  do 3 (split; [reflexivity|]).
  apply (first_update_has_rate_zero 5e-5 warmup_default); reflexivity.
Defined.


Section updates.
Implicit Types (gas t_total global_step : Z) (batches : nat).

Lemma epoch_updates_S gas t_total batches global_step :
  epoch_updates gas t_total (S batches) global_step =
    epoch_updates gas t_total batches global_step ≫= λ g, batch_end gas t_total g batches.
Proof.
  unfold epoch_updates. rewrite seq_S, foldM_app. cbn [foldM plus].
  destruct (foldM _ _ _) as [g|e]; cbn; [|done]. by destruct (batch_end gas t_total g batches).
Qed.

Lemma div_succ (n d : Z) :
  (1 ≤ d)%Z → (0 ≤ n)%Z →
  ((n + 1) / d = n / d + if (n + 1) mod d =? 0 then 1 else 0)%Z.
Proof.
  intros Hd Hn. pose proof (Z.div_mod n d ltac:(lia)) as Hdm.
  pose proof (Z.mod_pos_bound n d ltac:(lia)) as Hr.
  destruct (decide (n mod d + 1 = d)%Z) as [Heq|Hne].
  - assert (Hn1 : (n + 1 = d * (n / d + 1) + 0)%Z) by lia.
    rewrite <-(Z.mod_unique_pos (n + 1) d (n / d + 1) 0) by lia.
    rewrite <-(Z.div_unique_pos (n + 1) d (n / d + 1) 0) by lia. cbn. lia.
  - assert (Hn1 : (n + 1 = d * (n / d) + (n mod d + 1))%Z) by lia.
    rewrite <-(Z.mod_unique_pos (n + 1) d (n / d) (n mod d + 1)) by lia.
    rewrite <-(Z.div_unique_pos (n + 1) d (n / d) (n mod d + 1)) by lia.
    destruct (Z.eqb_spec (n mod d + 1) 0); lia.
Qed.

(** With a planned total that is not zero every update goes through. *)
Lemma epoch_updates_count gas t_total batches global_step :
  (1 ≤ gas)%Z → t_total ≠ 0%Z →
  epoch_updates gas t_total batches global_step =
    Ok (global_step + Z.of_nat batches / gas)%Z.
Proof.
  intros Hgas Ht. induction batches as [|n IH].
  - cbn. rewrite Z.div_0_l by lia. f_equal. lia.
  - rewrite epoch_updates_S, IH. cbn [mbind result_bind]. unfold batch_end.
    replace (Z.of_nat (S n)) with (Z.of_nat n + 1)%Z by lia.
    rewrite (div_succ (Z.of_nat n) gas) by lia.
    rewrite (proj2 (Z.eqb_neq t_total 0) Ht).
    destruct (_ =? _)%Z; f_equal; lia.
Qed.

(** Before the first full group of batches nothing is computed. *)
Lemma epoch_updates_short gas t_total batches global_step :
  (Z.of_nat batches < gas)%Z →
  epoch_updates gas t_total batches global_step = Ok global_step.
Proof.
  intros Hlt. induction batches as [|n IH]; [done|].
  rewrite epoch_updates_S, IH by lia. cbn [mbind result_bind]. unfold batch_end.
  rewrite Z.mod_small by lia.
  by destruct (Z.eqb_spec (Z.of_nat n + 1) 0); [lia|].
Qed.

Lemma epoch_updates_zero_total gas batches global_step :
  (1 ≤ gas)%Z → (gas ≤ Z.of_nat batches)%Z →
  epoch_updates gas 0 batches global_step = Raise ZeroDivisionError.
Proof.
  intros Hgas Hge. unfold epoch_updates.
  replace batches with (Z.to_nat (gas - 1) + S (batches - Z.to_nat gas)) by lia.
  rewrite seq_app, foldM_app.
  fold (epoch_updates gas 0 (Z.to_nat (gas - 1)) global_step).
  rewrite epoch_updates_short by lia. rewrite Nat.add_0_l.
  cbn [mbind result_bind seq foldM].
  assert (Hstep : batch_end gas 0 global_step (Z.to_nat (gas - 1)) = Raise ZeroDivisionError).
  { unfold batch_end.
    replace (Z.of_nat (Z.to_nat (gas - 1)) + 1)%Z with gas by lia.
    by rewrite Z.mod_same by lia. }
  by rewrite Hstep.
Qed.

End updates.

(** * The two pools after a call of [sort] *)

Section ranker_pools.
Implicit Types (pool train : list ref) (ids : list nat) (id2conf : list (Z * float)).
Implicit Types (w : world) (label_list : list string).

Lemma filter_all {A} (P : A → Prop) `{!∀ x, Decision (P x)} (l : list A) :
  Forall P l → filter P l = l.
Proof.
  induction 1 as [|x l Hx _ IH]; [done|]. by rewrite filter_cons_True, IH.
Qed.

Lemma filter_none {A} (P : A → Prop) `{!∀ x, Decision (P x)} (l : list A) :
  Forall (λ x, ¬ P x) l → filter P l = [].
Proof.
  induction 1 as [|x l Hx _ IH]; [done|]. by rewrite filter_cons_False, IH.
Qed.

(** The promoted indices whose record predicts class [i] are those
    selected for [i]. *)
Lemma filter_promoted_class id2conf num_k n i :
  filter (λ j, fst <$> id2conf !! j = Some (Z.of_nat i)) (promoted id2conf num_k n) =
    if decide (i < n) then selected id2conf num_k i else [].
Proof.
  induction n as [|n IH]; [done|]. rewrite promoted_S, filter_app, IH.
  destruct (decide (i = n)) as [->|Hne].
  - rewrite decide_False, decide_True by lia. cbn [app].
    apply filter_all, Forall_forall. intros j [conf Hj]%elem_of_selected. by rewrite Hj.
  - rewrite filter_none.
    + rewrite app_nil_r. destruct (decide (i < n)).
      * by rewrite decide_True by lia.
      * by rewrite decide_False by lia.
    + apply Forall_forall. intros j [conf Hj]%elem_of_selected. rewrite Hj. cbn.
      intros [= Heq]. lia.
Qed.

(** C7, amended.  When the two pools share no example and no example
    occurs twice in the unlabeled pool, no example is in both pools that
    [sort] returns ([sort] does return when there is at most one record
    per unlabeled example): the labeled pool is the old one with the
    moved examples appended, every moved example comes from the unlabeled
    pool, and an example of the unlabeled pool stays there exactly when
    it was not moved.  Nothing here depends on the order of the sorted
    candidates. *)
Theorem sort_keeps_pools_disjoint w train pool label_list id2conf num_k :
  NoDup pool →
  (∀ ex, ex ∈ train → ex ∉ pool) →
  (length id2conf ≤ length pool →
   ∃ r, sort w train pool label_list id2conf num_k = Ok r) ∧
  ∀ w' train' pool',
    sort w train pool label_list id2conf num_k = Ok (w', (train', pool')) →
    (∀ ex, ex ∈ train' → ex ∉ pool') ∧
    ∃ moved,
      train' = train ++ moved ∧
      (∀ ex, ex ∈ moved → ex ∈ pool) ∧
      (∀ ex, ex ∈ pool → ex ∈ pool' ↔ ex ∉ moved) ∧
      pool' `sublist_of` pool.
Proof.
  intros Hnd Hdisj. split.
  { intros Hlen.
    destruct (sort_Ok w train pool label_list id2conf num_k) as [Hs _];
      [by apply promoted_in_range|eauto]. }
  intros w' train' pool' (Hin&_&->&->)%sort_Ok_eq.
  set (ids := promoted id2conf num_k (length label_list)) in *.
  assert (Hrem : ∀ j ex, pool !! j = Some ex →
            ex ∈ remaining_from 0 ids pool ↔ j ∉ ids).
  { intros j ex Hj. rewrite elem_of_remaining_from. cbn. split.
    - intros (k&Hk&Hn). by rewrite (NoDup_lookup _ _ _ _ Hnd Hj Hk).
    - intros Hn. eauto. }
  assert (Hmoved : ∀ ex, ex ∈ gather pool ids → ex ∉ remaining_from 0 ids pool).
  { intros ex (j&Hj&Hlk)%elem_of_gather Hex. by apply (Hrem j ex Hlk) in Hex. }
  split.
  - intros ex [Hex|Hex]%elem_of_app; [|by apply Hmoved].
    intros (k&Hk&_)%elem_of_remaining_from.
    eapply Hdisj; [done|]. by eapply list_elem_of_lookup_2.
  - exists (gather pool ids). split_and!; [done| | |apply remaining_from_sublist].
    + intros ex (j&_&Hlk)%elem_of_gather. by eapply list_elem_of_lookup_2.
    + intros ex (j&Hj)%list_elem_of_lookup_1. rewrite (Hrem j ex Hj). split.
      * intros Hn (j'&Hj'&Hlk)%elem_of_gather.
        by rewrite (NoDup_lookup _ _ _ _ Hnd Hlk Hj) in Hj'.
      * intros Hn Hin'. apply Hn, elem_of_gather. eauto.
Qed.

(** C8.  When no record predicts class [c] of the vocabulary, [sort]
    still returns; it prints [no class c] (a line is printed for the
    classes without candidates and for no other); the examples appended
    to the labeled pool are those at a duplicate-free list of indices of
    the unlabeled pool, each with a record that predicts a class of the
    vocabulary other than [c], and for every class of the vocabulary
    [min K (number of records predicting the class)] of them; and the
    pool sizes are as in C3.  Which records of a class are taken is not
    said. *)
Theorem sort_skips_class_without_candidates
    w train pool label_list id2conf num_k c :
  length id2conf = length pool →
  (0 ≤ num_k)%Z →
  c < length label_list →
  (∀ item, item ∈ id2conf → item.1 ≠ Z.of_nat c) →
  ∃ w' train' pool' ids,
    sort w train pool label_list id2conf num_k = Ok (w', (train', pool')) ∧
    ("no class " +:+ pretty c) ∈ stdout w' ∧
    stdout w' = stdout w ++ diagnostics id2conf (length label_list) ∧
    (∀ i, ("no class " +:+ pretty i) ∈ diagnostics id2conf (length label_list) ↔
       i < length label_list ∧ ∀ item, item ∈ id2conf → item.1 ≠ Z.of_nat i) ∧
    train' = train ++ gather pool ids ∧
    length (gather pool ids) = length ids ∧
    NoDup ids ∧
    (∀ j, j ∈ ids →
       ∃ i conf, i < length label_list ∧ i ≠ c ∧
         id2conf !! j = Some (Z.of_nat i, conf)) ∧
    (∀ i, i < length label_list →
       length (filter (λ j, fst <$> id2conf !! j = Some (Z.of_nat i)) ids) =
         Z.to_nat num_k `min`
           length (filter (λ item : Z * float, item.1 = Z.of_nat i) id2conf)) ∧
    length train' + length pool' = length train + length pool ∧
    (Z.of_nat (length train') - Z.of_nat (length train)
       ≤ num_k * Z.of_nat (length label_list))%Z.
Proof.
  intros Hlen Hk Hc Hnone.
  assert (Hin : Forall (λ j, j < length pool)
    (promoted id2conf num_k (length label_list))) by (apply promoted_in_range; lia).
  destruct (sort_Ok w train pool label_list id2conf num_k Hin) as [Hs _].
  eexists _, _, _, (promoted id2conf num_k (length label_list)). split; [exact Hs|].
  pose proof (sort_sizes train pool label_list id2conf num_k Hlen Hk) as [Hsz Hbd].
  cbn [stdout]. split_and!; try done.
  - apply elem_of_app. right. by apply elem_of_diagnostics.
  - intros i. apply elem_of_diagnostics.
  - by apply gather_length.
  - apply promoted_NoDup.
  - intros j (i&Hi&Hj)%elem_of_promoted.
    destruct (elem_of_selected _ _ _ _ Hj) as [conf Hconf].
    exists i, conf. split_and!; [done| |done]. intros ->.
    apply (Hnone (Z.of_nat c, conf)); [|done]. by eapply list_elem_of_lookup_2.
  - intros i Hi. rewrite filter_promoted_class, decide_True by done.
    by rewrite selected_length, candidates_length.
Qed.
End ranker_pools.

(** Distinct objects in the unlabeled pool. *)
Lemma sort_keeps_pools_disjoint_witness :
  NoDup scenario_pool ∧
  (length scenario_records ≤ length scenario_pool →
   ∃ r, sort scenario_world scenario_train scenario_pool scenario_labels
          scenario_records 1 = Ok r) ∧
  ∀ w' train' pool',
    sort scenario_world scenario_train scenario_pool scenario_labels
      scenario_records 1 = Ok (w', (train', pool')) →
    (∀ ex, ex ∈ train' → ex ∉ pool') ∧
    ∃ moved,
      train' = scenario_train ++ moved ∧
      (∀ ex, ex ∈ moved → ex ∈ scenario_pool) ∧
      (∀ ex, ex ∈ scenario_pool → ex ∈ pool' ↔ ex ∉ moved) ∧
      pool' `sublist_of` scenario_pool.
Proof.
  split; [exact scenario_pool_NoDup|].
  apply (sort_keeps_pools_disjoint scenario_world scenario_train scenario_pool
           scenario_labels scenario_records 1).
  - exact scenario_pool_NoDup.
  - intros ex Hin Hp.
    unfold scenario_train, scenario_pool in *.
    repeat (apply elem_of_cons in Hin as [->|Hin]);
      [| |by apply elem_of_nil in Hin];
      repeat (apply elem_of_cons in Hp as [Hp|Hp]; [discriminate Hp|]);
      by apply elem_of_nil in Hp.
Defined.

(** Nobody predicted class [2]. *)
Lemma sort_skips_class_without_candidates_witness :
  ∃ w' train' pool' ids,
    sort scenario_world scenario_train scenario_pool scenario_labels
      scenario_records 1 = Ok (w', (train', pool')) ∧
    ("no class " +:+ pretty 2) ∈ stdout w' ∧
    stdout w' = stdout scenario_world ++
                  diagnostics scenario_records (length scenario_labels) ∧
    (∀ i, ("no class " +:+ pretty i) ∈
            diagnostics scenario_records (length scenario_labels) ↔
       i < length scenario_labels ∧
       ∀ item, item ∈ scenario_records → item.1 ≠ Z.of_nat i) ∧
    train' = scenario_train ++ gather scenario_pool ids ∧
    length (gather scenario_pool ids) = length ids ∧
    NoDup ids ∧
    (∀ j, j ∈ ids →
       ∃ i conf, i < length scenario_labels ∧ i ≠ 2 ∧
         scenario_records !! j = Some (Z.of_nat i, conf)) ∧
    (∀ i, i < length scenario_labels →
       length (filter (λ j, fst <$> scenario_records !! j = Some (Z.of_nat i)) ids) =
         Z.to_nat 1 `min`
           length (filter (λ item : Z * float, item.1 = Z.of_nat i) scenario_records)) ∧
    length train' + length pool' = length scenario_train + length scenario_pool ∧
    (Z.of_nat (length train') - Z.of_nat (length scenario_train)
       ≤ 1 * Z.of_nat (length scenario_labels))%Z.
Proof.
  apply (sort_skips_class_without_candidates scenario_world scenario_train
           scenario_pool scenario_labels scenario_records 1 2).
  - reflexivity.
  - lia.
  - cbn. lia.
  - intros item Hin. unfold scenario_records in Hin.
    repeat (apply elem_of_cons in Hin as [->|Hin]; [discriminate|]).
    by apply elem_of_nil in Hin.
Defined.
